(** * A shallow embedding of the RRT growth engine and its spatial tree

    The development follows the C++ sources: [Tree.hpp] (the generic rooted
    tree), [LevelData] (the terrain grid and its loader), [RRT.cpp] (the
    growth engine), [LevelViewer.cpp] (the image of a level) and
    [RRTDemo.cpp] (the input handling and the game loop).

    Conventions of the embedding:
    - [int] and [unsigned int] are 32 bits wide; a value is a [Z] and every
      operation writes its wrap-around out ([to_int], [to_uint]);
    - [float] is IEEE-754 binary32 with round-to-nearest-even, every
      operation rounded on its own ([SpecFloat] at precision 24);
    - heap-allocated tree nodes live in a store, a finite map from addresses
      to nodes; a pointer is an [option addr], [None] being [nullptr];
    - a call either returns ([Done]), stops on a failed [assert]
      ([AssertFail]), leaves defined behaviour by a bad memory access
      ([Undefined]), or exhausts the fuel given to its loop ([OutOfFuel]). *)

From Stdlib Require Import ZArith Lia Bool.
From Stdlib Require Import Strings.Ascii.
From Stdlib Require Import Floats.SpecFloat.
From stdpp Require Import base numbers option list gmap.

Local Open Scope Z_scope.

(** ** Outcomes of a call *)

Inductive outcome (A : Type) : Type :=
  | Done (a : A)
  | AssertFail
  | Undefined
  | OutOfFuel.
Arguments Done {A} a.
Arguments AssertFail {A}.
Arguments Undefined {A}.
Arguments OutOfFuel {A}.

#[global] Instance outcome_ret : MRet outcome := @Done.
#[global] Instance outcome_bind : MBind outcome := λ A B f m,
  match m with
  | Done a => f a
  | AssertFail => AssertFail
  | Undefined => Undefined
  | OutOfFuel => OutOfFuel
  end.

(** [assert (b)] of <cassert>. *)
Definition cassert (b : bool) : outcome unit :=
  if b then Done tt else AssertFail.

(** ** Machine integers *)

Definition INT_MAX : Z := 2147483647.
Definition INT_MIN : Z := -2147483648.

(** Conversion to [int] (two's complement) and to [unsigned int]. *)
Definition to_int (z : Z) : Z := (z + 2147483648) mod 4294967296 - 2147483648.
Definition to_uint (z : Z) : Z := z mod 4294967296.

(** [std::abs] on [int]. *)
Definition abs_int (z : Z) : Z := to_int (Z.abs z).

(** ** Single-precision floats *)

Module F32.
Definition prec : Z := 24.
Definition emax : Z := 128.

Definition add : spec_float → spec_float → spec_float := SFadd prec emax.
Definition mul : spec_float → spec_float → spec_float := SFmul prec emax.
Definition div : spec_float → spec_float → spec_float := SFdiv prec emax.
Definition sqrt : spec_float → spec_float := SFsqrt prec emax.
Definition ltb : spec_float → spec_float → bool := SFltb.
Definition leb : spec_float → spec_float → bool := SFleb.

(** [(float) z] for an integer [z]. *)
Definition of_int (z : Z) : spec_float := binary_normalize prec emax z 0 false.

Definition zero : spec_float := S754_zero false.
Definition one : spec_float := of_int 1.

(** [std::fmin]: the smaller operand, a NaN operand being ignored. *)
Definition fmin (a b : spec_float) : spec_float :=
    match SFcompare a b with
    | Some Lt => a
    | Some Eq => a
    | Some Gt => b
    | None => match a with S754_nan => b | _ => a end
    end.

(** The integer part of a finite float, rounded toward zero. *)
Definition trunc (f : spec_float) : option Z :=
    match f with
    | S754_zero _ => Some 0
    | S754_finite s m e =>
        Some (cond_Zopp s
                (match e with
                 | Zneg p => Z.pos m / 2 ^ Z.pos p
                 | _ => Z.pos m * 2 ^ e
                 end))
    | _ => None
    end.

(** [(int) f]: truncation; a value out of the range of [int] (or a NaN)
      converts to the "integer indefinite" [INT_MIN], as the x86
      conversion instruction does. *)
Definition to_int (f : spec_float) : Z :=
    match trunc f with
    | Some z => if (INT_MIN <=? z) && (z <=? INT_MAX) then z else INT_MIN
    | None => INT_MIN
    end.
End F32.

(** ** SFML vectors *)

Module sf.
Record Vector2i : Type := mkVector2i { x : Z; y : Z }.

#[global] Instance Vector2i_eq_dec : EqDecision Vector2i.
Proof. solve_decision. Defined.

Record Vector2f : Type := mkVector2f { fx : spec_float; fy : spec_float }.

(** [operator-] on [Vector2i]. *)
Definition sub (a b : Vector2i) : Vector2i :=
    mkVector2i (to_int (x a - x b)) (to_int (y a - y b)).

(** [operator!=] on [Vector2i]. *)
Definition neq (a b : Vector2i) : bool :=
    negb ((x a =? x b) && (y a =? y b)).

(** The converting constructors [(Vector2f) v] and [Vector2i (v)]. *)
Definition to_f (v : Vector2i) : Vector2f :=
    mkVector2f (F32.of_int (x v)) (F32.of_int (y v)).
Definition to_i (v : Vector2f) : Vector2i :=
    mkVector2i (F32.to_int (fx v)) (F32.to_int (fy v)).

(** [operator+] and [operator*] (by a scalar) on [Vector2f]. *)
Definition addf (a b : Vector2f) : Vector2f :=
    mkVector2f (F32.add (fx a) (fx b)) (F32.add (fy a) (fy b)).
Definition scale (a : Vector2f) (k : spec_float) : Vector2f :=
    mkVector2f (F32.mul (fx a) k) (F32.mul (fy a) k).

(** The value-initialised vector [{ }]. *)
Definition origin : Vector2i := mkVector2i 0 0.
End sf.

(** ** Terrain *)

Inductive TileType : Type := Terrain | OutOfBounds | Tree | Swamp | Water.

#[global] Instance TileType_eq_dec : EqDecision TileType.
Proof. solve_decision. Defined.

Module LevelData.
Record t : Type := mk {
    m_width : Z;
    m_height : Z;
    m_tileData : list TileType
  }.

Definition getWidth (d : t) : Z := m_width d.
Definition getHeight (d : t) : Z := m_height d.
Definition getTileCount (d : t) : Z := to_uint (Z.of_nat (length (m_tileData d))).

(** [operator[]] of the tile vector: reading past the end is undefined. *)
Definition tileAt (d : t) (i : Z) : outcome TileType :=
    match m_tileData d !! Z.to_nat i with
    | Some ty => Done ty
    | None => Undefined
    end.

(** [getTile (x, y)], both arguments [unsigned int]. *)
Definition getTile (d : t) (x y : Z) : outcome TileType :=
    _ ← cassert ((x <? m_width d) && (y <? m_height d));
    tileAt d (to_uint (x + y * m_width d)).

(** A level as [loadFromFile] accepts it: both sides positive and below
      [INT_MAX], one tile per cell, the cell count an [unsigned int]. *)
Record wf (d : t) : Prop := mk_wf {
    wf_width : 0 < m_width d < INT_MAX;
    wf_height : 0 < m_height d < INT_MAX;
    wf_count : Z.of_nat (length (m_tileData d)) = m_width d * m_height d;
    wf_fits : m_width d * m_height d < 4294967296
  }.

(** A coordinate inside the grid. *)
Definition inBounds (d : t) (p : sf.Vector2i) : Prop :=
    0 <= sf.x p < m_width d ∧ 0 <= sf.y p < m_height d.

#[global] Instance inBounds_dec (d : t) (p : sf.Vector2i) : Decision (inBounds d p).
Proof. unfold inBounds. apply _. Defined.

(** The flat index [x + y * width], computed in [unsigned int]. *)
Definition flatIndex (d : t) (p : sf.Vector2i) : Z :=
    to_uint (sf.x p + sf.y p * m_width d).

(** *** Loading a level from a file

    A call of the loader returns, or throws [std::invalid_argument] or
    [std::runtime_error]. *)
Inductive loaded (A : Type) : Type :=
  | Loaded (a : A)
  | InvalidArgument
  | RuntimeError.
Arguments Loaded {A} a.
Arguments InvalidArgument {A}.
Arguments RuntimeError {A}.

#[global] Instance loaded_ret : MRet loaded := @Loaded.
#[global] Instance loaded_bind : MBind loaded := λ A B f m,
  match m with
  | Loaded a => f a
  | InvalidArgument => InvalidArgument
  | RuntimeError => RuntimeError
  end.

(** [determineTileType (tile)]. *)
Definition determineTileType (tile : ascii) : loaded TileType :=
  if (tile =? ".")%char || (tile =? "G")%char then Loaded Terrain
  else if (tile =? "@")%char || (tile =? "O")%char then Loaded OutOfBounds
  else if (tile =? "T")%char then Loaded Tree
  else if (tile =? "S")%char then Loaded Swamp
  else if (tile =? "W")%char then Loaded Water
  else InvalidArgument.

(** The white space that [stream >> tile] skips, in the classic locale:
    the space and the characters from tab to carriage return. *)
Definition isspace (c : ascii) : bool :=
  (nat_of_ascii c =? 32)%nat
  || ((9 <=? nat_of_ascii c)%nat && (nat_of_ascii c <=? 13)%nat).

(** The tile vector while it is filled: its elements and its capacity. *)
Record vector : Type := mkVector {
    elements : list TileType;
    capacity : nat
  }.

Section loader.
(** What the library decides: [reserved n] is the capacity of the tile
    vector after [clear (); shrink_to_fit (); reserve (n)], and [grown c]
    the capacity after a [push_back] on a full vector of capacity [c]. *)
Variables reserved grown : nat → nat.

Definition push_back (v : vector) (tile : TileType) : vector :=
  mkVector (elements v ++ [tile])
           (if (length (elements v) <? capacity v)%nat then capacity v
            else grown (capacity v)).

(** [readHeader (stream)]. The extractions from the stream are not
    modelled: [header] holds the height and the width they stored, both
    [unsigned int], and is [None] when one of them failed. *)
Definition readHeader (header : option (Z * Z)) : loaded (Z * Z * vector) :=
  match header with
  | None => RuntimeError
  | Some (height, width) =>
      if (width =? 0) || (width >=? to_uint INT_MAX)
         || (height =? 0) || (height >=? to_uint INT_MAX)
      then RuntimeError
      else Loaded (width, height,
                   mkVector [] (reserved (Z.to_nat (to_uint (width * height)))))
  end.

(** The loop of [readLevel]: [stream >> tile] skips white space, takes the
    next character, and fails at the end of the file. *)
Fixpoint readTiles (stream : list ascii) (v : vector) : loaded vector :=
  match stream with
  | [] => Loaded v
  | c :: rest =>
      if isspace c then readTiles rest v
      else tile ← determineTileType c; readTiles rest (push_back v tile)
  end.

(** [readLevel (stream)], on the characters left in the stream. *)
Definition readLevel (stream : list ascii) (v : vector) : loaded vector :=
  v' ← readTiles stream v;
  if negb (length (elements v') =? capacity v')%nat then RuntimeError
  else Loaded v'.

(** [loadFromFile (file)]. [file] is [None] when the file cannot be opened;
    otherwise it holds what the extractions of [readHeader] give and the
    characters that follow the header. Both helpers assert that the stream
    is open, which it is once the test on the stream has passed. *)
Definition loadFromFile (file : option (option (Z * Z) * list ascii)) : loaded t :=
  match file with
  | None => InvalidArgument
  | Some (header, body) =>
      '(width, height, v) ← readHeader header;
      v' ← readLevel body v;
      Loaded (mk width height (elements v'))
  end.
End loader.
End LevelData.

(** ** The spatial tree (Tree.hpp) *)

(** The address of a heap-allocated node; a [Branch] or [Parent] pointer is
    an [option addr]. *)
Definition addr : Type := nat.

Module Tree.
Record t (T : Type) : Type := mk {
    m_data : T;
    m_parent : option addr;
    m_branches : list (option addr)
  }.
Arguments mk {T} _ _ _.
Arguments m_data {T} _.
Arguments m_parent {T} _.
Arguments m_branches {T} _.

(** Following a pointer: a null or dangling one is undefined behaviour. *)
Definition deref {T} (h : gmap addr (t T)) (p : option addr) : outcome (t T) :=
  match p with
  | Some a => match h !! a with Some n => Done n | None => Undefined end
  | None => Undefined
  end.

(** [new Tree<T> ()]: a node at an unused address, every member
    value-initialised ([dflt] stands for [T { }]). *)
Definition new {T} (dflt : T) (h : gmap addr (t T)) : gmap addr (t T) * addr :=
  let p := fresh (dom h) in (<[p := mk dflt None []]> h, p).

Definition isRoot {T} (n : t T) : bool := bool_decide (m_parent n = None).
Definition isTip {T} (n : t T) : bool := bool_decide (m_branches n = []).

Definition getData {T} (h : gmap addr (t T)) (this : option addr) : outcome T :=
  n ← deref h this; Done (m_data n).

Definition getParent {T} (h : gmap addr (t T)) (this : option addr)
  : outcome (option addr) :=
  n ← deref h this; Done (m_parent n).

Definition getBranches {T} (h : gmap addr (t T)) (this : option addr)
  : outcome (list (option addr)) :=
  n ← deref h this; Done (m_branches n).

Definition setData {T} (h : gmap addr (t T)) (this : addr) (data : T)
  : outcome (gmap addr (t T)) :=
  n ← deref h (Some this);
  Done (<[this := mk data (m_parent n) (m_branches n)]> h).

Definition setParent {T} (h : gmap addr (t T)) (this : option addr)
    (parent : option addr) : outcome (gmap addr (t T)) :=
  n ← deref h this;
  match this with
  | Some a => Done (<[a := mk (m_data n) parent (m_branches n)]> h)
  | None => Undefined
  end.

(** [clear ()] empties the branch vector; the children are not deleted. *)
Definition clear {T} (h : gmap addr (t T)) (this : addr)
  : outcome (gmap addr (t T)) :=
  n ← deref h (Some this);
  Done (<[this := mk (m_data n) (m_parent n) []]> h).

(** [addBranch (branch)]: push the pointer, then set the parent of
    [m_branches.back ()]. *)
Definition addBranch {T} (h : gmap addr (t T)) (this : addr)
    (branch : option addr) : outcome (gmap addr (t T)) :=
  n ← deref h (Some this);
  let h1 := <[this := mk (m_data n) (m_parent n) (m_branches n ++ [branch])]> h in
  setParent h1 branch (Some this).

(** The copy assignment [operator=]. Its body assigns [copy.m_branches] to
    the name [branches]; the class has no such member, and the model reads
    it as [m_branches], the vector of child pointers. Neither [m_data] nor
    [m_parent] is assigned. *)
Definition copy_assign {T} (h : gmap addr (t T)) (this copy : addr)
  : outcome (gmap addr (t T)) :=
  if decide (this = copy) then Done h
  else
    n ← deref h (Some this);
    c ← deref h (Some copy);
    Done (<[this := mk (m_data n) (m_parent n) (m_branches c)]> h).

(** The copy constructor: a value-initialised node, then [*this = copy]. *)
Definition copy_construct {T} (dflt : T) (h : gmap addr (t T)) (copy : addr)
  : outcome (gmap addr (t T) * addr) :=
  let '(h1, this) := new dflt h in
  h2 ← copy_assign h1 this copy;
  Done (h2, this).

(** The nodes of the tree rooted at [root]: the root, and every child
    pointer stored in the branch vector of a node of the tree. *)
Inductive inTree {T} (h : gmap addr (t T)) (root : addr) : addr → Prop :=
  | inTree_root : inTree h root root
  | inTree_branch p n q :
      inTree h root p → h !! p = Some n → Some q ∈ m_branches n →
      inTree h root q.

(** [getBranchCount ()]: the size of the branch vector, returned as an
    [unsigned int]. *)
Definition getBranchCount {T} (h : gmap addr (t T)) (this : option addr)
  : outcome Z :=
  n ← deref h this; Done (to_uint (Z.of_nat (length (m_branches n)))).

(** [getBranch (index)], which [operator[]] forwards to. *)
Definition getBranch {T} (h : gmap addr (t T)) (this : option addr) (index : Z)
  : outcome (option addr) :=
  count ← getBranchCount h this;
  _ ← cassert (index <? count);
  n ← deref h this;
  match m_branches n !! Z.to_nat index with
  | Some b => Done b
  | None => Undefined
  end.

(** The loop of [findIndex]: [i] is its [unsigned int] counter, compared
    with the size of the vector; each unit of fuel pays for one test of the
    loop condition. *)
Fixpoint findIndexLoop (fuel : nat) (branches : list (option addr))
    (branch : option addr) (i : Z) : outcome Z :=
  match fuel with
  | O => OutOfFuel
  | S fuel' =>
      if i <? Z.of_nat (length branches) then
        match branches !! Z.to_nat i with
        | Some b =>
            if decide (b = branch) then Done i
            else findIndexLoop fuel' branches branch (to_uint (i + 1))
        | None => Undefined
        end
      else Done i
  end.

(** [findIndex (branch)]. A loop that ends tests its condition at most once
    more than the vector has elements (the counter reaches the size, or it
    finds the pointer before it wraps around), which is the fuel given. *)
Definition findIndex {T} (h : gmap addr (t T)) (this : option addr)
    (branch : option addr) : outcome Z :=
  n ← deref h this;
  findIndexLoop (S (length (m_branches n))) (m_branches n) branch 0.

(** [addBranch (index, branch)]: insert the pointer before position
    [index], then set the parent of [m_branches[index]]. *)
Definition addBranchAt {T} (h : gmap addr (t T)) (this : addr) (index : Z)
    (branch : option addr) : outcome (gmap addr (t T)) :=
  count ← getBranchCount h (Some this);
  _ ← cassert (index <=? count);
  n ← deref h (Some this);
  let i := Z.to_nat index in
  let h1 := <[this := mk (m_data n) (m_parent n)
                         (take i (m_branches n) ++ branch :: drop i (m_branches n))]> h in
  n1 ← deref h1 (Some this);
  match m_branches n1 !! i with
  | Some b => setParent h1 b (Some this)
  | None => Undefined
  end.

(** One turn of the loop of the destructor of the node [p], at slot [i] of
    its branch vector: a child that is not null is deleted ([delete_child]),
    then the slot is set to null. *)
Definition destroySlot {T}
    (delete_child : gmap addr (t T) → addr → outcome (gmap addr (t T)))
    (p : addr) (acc : outcome (gmap addr (t T))) (i : nat)
  : outcome (gmap addr (t T)) :=
  h0 ← acc;
  n0 ← deref h0 (Some p);
  match m_branches n0 !! i with
  | Some branch =>
      h1 ← match branch with
           | Some q => delete_child h0 q
           | None => Done h0
           end;
      n1 ← deref h1 (Some p);
      Done (<[p := mk (m_data n1) (m_parent n1) (<[i := None]> (m_branches n1))]> h1)
  | None => Undefined
  end.

(** [delete p] for a node pointer that is not null: the destructor, which
    visits the slots of the branch vector in order, then the release of the
    node. Each unit of fuel pays for one level of the recursion. *)
Fixpoint destroy {T} (fuel : nat) (h : gmap addr (t T)) (p : addr)
  : outcome (gmap addr (t T)) :=
  match fuel with
  | O => OutOfFuel
  | S fuel' =>
      n ← deref h (Some p);
      h' ← foldl (destroySlot (destroy fuel') p) (Done h)
                 (seq 0 (length (m_branches n)));
      Done (delete p h')
  end.

(** [delete branch]: nothing happens for a null pointer. *)
Definition delete_ptr {T} (fuel : nat) (h : gmap addr (t T))
    (branch : option addr) : outcome (gmap addr (t T)) :=
  match branch with
  | Some q => destroy fuel h q
  | None => Done h
  end.

(** [removeBranch (index)]: swap the slot with the last one, delete the
    node the last slot now points to, drop the last slot. *)
Definition removeBranch {T} (fuel : nat) (h : gmap addr (t T)) (this : addr)
    (index : Z) : outcome (gmap addr (t T)) :=
  count ← getBranchCount h (Some this);
  _ ← cassert (index <? count);
  n ← deref h (Some this);
  let branches := m_branches n in
  let i := Z.to_nat index in
  let back := (length branches - 1)%nat in
  a ← match branches !! i with Some a => Done a | None => Undefined end;
  z ← match branches !! back with Some z => Done z | None => Undefined end;
  let h1 := <[this := mk (m_data n) (m_parent n)
                         (<[back := a]> (<[i := z]> branches))]> h in
  n1 ← deref h1 (Some this);
  b ← match last (m_branches n1) with Some b => Done b | None => Undefined end;
  h2 ← delete_ptr fuel h1 b;
  n2 ← deref h2 (Some this);
  match m_branches n2 with
  | [] => Undefined
  | _ :: _ =>
      Done (<[this := mk (m_data n2) (m_parent n2)
                         (take (length (m_branches n2) - 1) (m_branches n2))]> h2)
  end.

(** [removeBranch (branch)]. *)
Definition removeBranchPtr {T} (fuel : nat) (h : gmap addr (t T)) (this : addr)
    (branch : option addr) : outcome (gmap addr (t T)) :=
  index ← findIndex h (Some this) branch;
  removeBranch fuel h this index.

(** [removeBranchOrdered (index)]: delete the node the slot points to, then
    erase the slot. *)
Definition removeBranchOrdered {T} (fuel : nat) (h : gmap addr (t T))
    (this : addr) (index : Z) : outcome (gmap addr (t T)) :=
  count ← getBranchCount h (Some this);
  _ ← cassert (index <? count);
  n ← deref h (Some this);
  b ← match m_branches n !! Z.to_nat index with
      | Some b => Done b
      | None => Undefined
      end;
  h1 ← delete_ptr fuel h b;
  n1 ← deref h1 (Some this);
  if decide (Z.to_nat index < length (m_branches n1))%nat then
    Done (<[this := mk (m_data n1) (m_parent n1)
                       (delete (Z.to_nat index) (m_branches n1))]> h1)
  else Undefined.

(** [removeBranchOrdered (branch)]. *)
Definition removeBranchOrderedPtr {T} (fuel : nat) (h : gmap addr (t T))
    (this : addr) (branch : option addr) : outcome (gmap addr (t T)) :=
  index ← findIndex h (Some this) branch;
  removeBranchOrdered fuel h this index.
End Tree.

(** ** The growth engine (RRT.hpp, RRT.cpp) *)

Module RRT.
Record t : Type := mk {
    m_data : option LevelData.t;
    m_start : sf.Vector2i;
    m_end : sf.Vector2i;
    m_sampleDistance : spec_float;
    m_branchDistance : spec_float;
    m_nodes : list (option addr);
    m_tree : option addr;
    (** the free store holding the nodes [m_tree] and [m_nodes] point to *)
    store : gmap addr (Tree.t sf.Vector2i)
  }.

Definition with_store (this : t) (h : gmap addr (Tree.t sf.Vector2i)) : t :=
  mk (m_data this) (m_start this) (m_end this) (m_sampleDistance this)
     (m_branchDistance this) (m_nodes this) (m_tree this) h.

Definition with_nodes (this : t) (nodes : list (option addr)) : t :=
  mk (m_data this) (m_start this) (m_end this) (m_sampleDistance this)
     (m_branchDistance this) nodes (m_tree this) (store this).

(** [*m_data]: a null [shared_ptr] (no [prepareTree] yet) is undefined. *)
Definition level (this : t) : outcome LevelData.t :=
  match m_data this with Some d => Done d | None => Undefined end.

(** [m_nodes[i]] for an [unsigned int] index. *)
Definition nodeAt (nodes : list (option addr)) (i : Z) : outcome (option addr) :=
  match nodes !! Z.to_nat i with Some b => Done b | None => Undefined end.

(** The constructor. *)
Definition construct (sampleDistance branchDistance : spec_float) : outcome t :=
  _ ← cassert (F32.ltb F32.zero sampleDistance && F32.leb F32.one branchDistance);
  let '(h, root) := Tree.new sf.origin ∅ in
  Done (mk None sf.origin sf.origin sampleDistance branchDistance [] (Some root) h).

Definition hasFinished (this : t) : outcome bool :=
  d ← level this;
  let width := LevelData.getWidth d in
  let start := to_uint (sf.x (m_start this) + sf.y (m_start this) * width) in
  let end_ := to_uint (sf.x (m_end this) + sf.y (m_end this) * width) in
  s ← nodeAt (m_nodes this) start;
  match s with
  | Some _ => e ← nodeAt (m_nodes this) end_; Done (bool_decide (is_Some e))
  | None => Done false
  end.

(** The condition of the assertion that opens [prepareTree]. *)
Definition prepareCondition (data : LevelData.t) (start end_ : sf.Vector2i) : bool :=
  (0 <=? sf.x start) && (sf.x start <? to_int (LevelData.getWidth data))
  && (0 <=? sf.x end_) && (sf.y end_ <? to_int (LevelData.getHeight data)).

Definition prepareTree (this : t) (data : LevelData.t) (start end_ : sf.Vector2i)
  : outcome t :=
  _ ← cassert (prepareCondition data start end_);
  (* m_nodes.clear (); m_tree->clear (); *)
  old ← match m_tree this with Some r => Done r | None => Undefined end;
  h1 ← Tree.clear (store this) old;
  (* m_data = data; m_nodes.resize (m_data->getTileCount ()); *)
  let nodes := replicate (Z.to_nat (LevelData.getTileCount data)) (@None addr) in
  (* m_tree.reset (new RRTTree ()): the new root is allocated, then the old
     root, whose branch vector was just emptied, is destroyed. *)
  let '(h2, root) := Tree.new sf.origin h1 in
  let h3 := delete old h2 in
  h4 ← Tree.setData h3 root start;
  let i := to_uint (sf.x start + sf.y start * LevelData.getWidth data) in
  _ ← nodeAt nodes i;
  Done (mk (Some data) start end_ (m_sampleDistance this) (m_branchDistance this)
           (<[Z.to_nat i := Some root]> nodes) (Some root) h4).

Definition isValidTile (this : t) (position : sf.Vector2i) (base : TileType)
  : outcome bool :=
  d ← level this;
  type ← LevelData.getTile d (to_uint (sf.x position)) (to_uint (sf.y position));
  Done (match base with
        | OutOfBounds | Tree =>
            negb (bool_decide (type = OutOfBounds)) && negb (bool_decide (type = Tree))
        | Water => bool_decide (type = Water)
        | _ => bool_decide (type = Terrain) || bool_decide (type = Swamp)
        end).

(** The scan of [determineNearest] over [m_nodes], carrying [closest] and
    [nearDistance]. *)
Fixpoint nearestLoop (h : gmap addr (Tree.t sf.Vector2i)) (position : sf.Vector2i)
    (nodes : list (option addr)) (closest : option addr) (nearDistance : Z)
  : outcome (option addr) :=
  match nodes with
  | [] => Done closest
  | None :: rest => nearestLoop h position rest closest nearDistance
  | Some b :: rest =>
      data ← Tree.getData h (Some b);
      let difference := sf.sub data position in
      let distance :=
        to_int (abs_int (sf.x difference) + abs_int (sf.y difference)) in
      if distance <? nearDistance
      then nearestLoop h position rest (Some b) distance
      else nearestLoop h position rest closest nearDistance
  end.

Definition determineNearest (this : t) (position : sf.Vector2i)
  : outcome (option addr) :=
  nearestLoop (store this) position (m_nodes this) (m_tree this) INT_MAX.

(** The [lerp] lambda of [calculateBranch]. *)
Definition lerp (start end_ : sf.Vector2i) (delta : spec_float) : sf.Vector2i :=
  sf.to_i (sf.addf (sf.to_f start) (sf.scale (sf.to_f (sf.sub end_ start)) delta)).

(** One step of the sampling cursor: advance by the sample distance, clamped
    to the magnitude and to the branch distance. *)
Definition advance (this : t) (magnitude current : spec_float) : spec_float :=
  F32.fmin (F32.fmin (F32.add current (m_sampleDistance this)) magnitude)
           (m_branchDistance this).

(** The guard of the sampling loop. *)
Definition sampling (this : t) (magnitude current : spec_float) : bool :=
  F32.ltb current magnitude && F32.ltb current (m_branchDistance this).

(** The [while] loop of [calculateBranch]; [h] is the free store, [branch]
    the node allocated so far. Each unit of fuel pays for one iteration. *)
Fixpoint sampleLoop (fuel : nat) (this : t) (start end_ : sf.Vector2i)
    (startType : TileType) (magnitude : spec_float)
    (h : gmap addr (Tree.t sf.Vector2i)) (branch : option addr)
    (current : spec_float)
  : outcome (gmap addr (Tree.t sf.Vector2i) * option addr) :=
  match fuel with
  | O => OutOfFuel
  | S fuel' =>
      if sampling this magnitude current then
        let current' := advance this magnitude current in
        let inc := lerp start end_ (F32.div current' magnitude) in
        if sf.neq inc start then
          valid ← isValidTile this inc startType;
          if valid : bool then
            let '(h1, b) :=
              match branch with
              | Some b => (h, b)
              | None => Tree.new sf.origin h
              end in
            h2 ← Tree.setData h1 b inc;
            sampleLoop fuel' this start end_ startType magnitude h2 (Some b) current'
          else Done (h, branch)
        else sampleLoop fuel' this start end_ startType magnitude h branch current'
      else Done (h, branch)
  end.

(** The magnitude of [end_ - start], as [calculateBranch] computes it. *)
Definition magnitudeOf (start end_ : sf.Vector2i) : spec_float :=
  let difference := sf.sub end_ start in
  F32.sqrt (F32.of_int (to_int (to_int (sf.x difference * sf.x difference)
                                + to_int (sf.y difference * sf.y difference)))).

Definition calculateBranch (fuel : nat) (this : t) (start end_ : sf.Vector2i)
  : outcome (gmap addr (Tree.t sf.Vector2i) * option addr) :=
  d ← level this;
  startType ← LevelData.getTile d (to_uint (sf.x start)) (to_uint (sf.y start));
  sampleLoop fuel this start end_ startType (magnitudeOf start end_)
             (store this) None F32.zero.

(** The sample [sf::Vector2i (rand () % width, rand () % height)], for the
    values [rx] and [ry] the two calls of [rand ()] return. *)
Definition sample (width height rx ry : Z) : sf.Vector2i :=
  sf.mkVector2i (to_int (to_uint rx mod width)) (to_int (to_uint ry mod height)).
Arguments sample : simpl never.

(** [generateBranch ()]; [rx] and [ry] are the values the two calls of
    [rand ()] return. *)
Definition generateBranch (fuel : nat) (this : t) (rx ry : Z) : outcome t :=
  finished ← hasFinished this;
  if negb finished && sf.neq (m_start this) (m_end this) then
    d ← level this;
    let width := LevelData.getWidth d in
    let height := LevelData.getHeight d in
    (* a remainder by zero is undefined *)
    _ ← (if (width =? 0) || (height =? 0) then Undefined else Done tt);
    let random := sample width height rx ry in
    slot ← nodeAt (m_nodes this) (to_uint (sf.x random + sf.y random * width));
    match slot with
    | Some _ => Done this
    | None =>
        nearest ← determineNearest this random;
        nearData ← Tree.getData (store this) nearest;
        '(h1, branch) ← calculateBranch fuel this nearData random;
        match branch with
        | Some b =>
            newData ← Tree.getData h1 (Some b);
            let index := to_uint (sf.x newData + sf.y newData * width) in
            occupied ← nodeAt (m_nodes this) index;
            match occupied with
            | None =>
                this_ ← match nearest with Some a => Done a | None => Undefined end;
                h2 ← Tree.addBranch h1 this_ (Some b);
                Done (with_nodes (with_store this h2)
                        (<[Z.to_nat index := Some b]> (m_nodes this)))
            | Some _ => Done (with_store this (delete b h1))
            end
        | None => Done (with_store this h1)
        end
    end
  else Done this.

(** A run of [generateBranch] calls, one per triple (fuel, rx, ry). *)
Fixpoint generateBranches (this : t) (calls : list (nat * Z * Z)) : outcome t :=
  match calls with
  | [] => Done this
  | (fuel, rx, ry) :: rest =>
      this' ← generateBranch fuel this rx ry;
      generateBranches this' rest
  end.

Definition getStart (this : t) : sf.Vector2i := m_start this.
Definition getEnd (this : t) : sf.Vector2i := m_end this.

(** A line segment given to the render target: its two vertices. *)
Definition line : Type := sf.Vector2f * sf.Vector2f.

(** The vertex [sf::Vector2f (position.x * scale.x, position.y * scale.y)]. *)
Definition vertex (position : sf.Vector2i) (scale : sf.Vector2f) : sf.Vector2f :=
  sf.mkVector2f (F32.mul (F32.of_int (sf.x position)) (sf.fx scale))
                (F32.mul (F32.of_int (sf.y position)) (sf.fy scale)).

(** One turn of the loop of the lambda of [draw], for the child at index
    [i] of the node [branch]: the child, if it is not null, is drawn
    ([draw_child]); then, if [branch] is not a root, the segment from
    [branch] to its parent is drawn. [acc] is the list of the segments drawn
    so far, in order. *)
Definition drawChild (draw_child : option addr → list line → outcome (list line))
    (h : gmap addr (Tree.t sf.Vector2i)) (scale : sf.Vector2f)
    (branch : option addr) (acc : outcome (list line)) (i : Z)
  : outcome (list line) :=
  drawTo ← acc;
  child ← Tree.getBranch h branch i;
  drawTo ← match child with
           | Some _ => draw_child child drawTo
           | None => Done drawTo
           end;
  n ← Tree.deref h branch;
  if negb (Tree.isRoot n) then
    position ← Tree.getData h branch;
    up ← Tree.getParent h branch;
    parent ← Tree.getData h up;
    Done (drawTo ++ [(vertex position scale, vertex parent scale)])
  else Done drawTo.

(** The recursive lambda of [draw]. Each unit of fuel pays for one level of
    the recursion. *)
Fixpoint drawBranch (fuel : nat) (h : gmap addr (Tree.t sf.Vector2i))
    (scale : sf.Vector2f) (branch : option addr) (drawTo : list line)
  : outcome (list line) :=
  match fuel with
  | O => OutOfFuel
  | S fuel' =>
      branches ← Tree.getBranchCount h branch;
      foldl (drawChild (drawBranch fuel' h scale) h scale branch)
            (Done drawTo) (seqZ 0 branches)
  end.

(** [draw (drawTo, scale)]: the segments drawn on a target, in order. *)
Definition draw (fuel : nat) (this : t) (scale : sf.Vector2f)
  : outcome (list line) :=
  drawBranch fuel (store this) scale (m_tree this) [].
End RRT.

(** ** The view of a level (LevelViewer.cpp) *)

Module LevelViewer.
(** [sf::Color]: red, green, blue. *)
Record Color : Type := mkColor { red : Z; green : Z; blue : Z }.

#[global] Instance Color_eq_dec : EqDecision Color.
Proof. solve_decision. Defined.

(** [determineColour]; the [default] label of its switch stands for no
    enumerator of [TileType]. *)
Definition determineColour (tile : TileType) : Color :=
  match tile with
  | Terrain => mkColor 1 142 14
  | Tree => mkColor 95 80 29
  | Swamp => mkColor 130 148 71
  | Water => mkColor 43 71 62
  | OutOfBounds => mkColor 40 40 40
  end.

(** The body of the inner loop of [createView]: the tile at (x, y) is looked
    up and [image.setPixel (x, y, colour)] is called; [acc] is the list of
    the calls made so far, in order. *)
Definition paint (data : LevelData.t) (y : Z)
    (acc : outcome (list (Z * Z * Color))) (x : Z) : outcome (list (Z * Z * Color)) :=
  image ← acc;
  tile ← LevelData.getTile data x y;
  Done (image ++ [(x, y, determineColour tile)]).

(** [createView]: the calls of [image.setPixel] it makes, in order. *)
Definition createView (data : LevelData.t) : outcome (list (Z * Z * Color)) :=
  foldl (λ acc (y : Z), foldl (paint data y) acc (seqZ 0 (LevelData.getWidth data)))
        (Done []) (seqZ 0 (LevelData.getHeight data)).
End LevelViewer.

(** ** The demo application (RRTDemo.cpp) *)

Module RRTDemo.
(** The members the input handling works on: the level, the scale of the
    viewer, the engine, and the start and goal picked so far. *)
Record t : Type := mk {
    m_data : LevelData.t;
    m_scale : sf.Vector2f;
    m_rrt : RRT.t;
    m_start : sf.Vector2i;
    m_end : sf.Vector2i
  }.

(** The tile under the mouse: [(int) (mousePos.x / renderScale.x)] and the
    same for y. *)
Definition tileUnder (mousePos : sf.Vector2i) (renderScale : sf.Vector2f)
  : sf.Vector2i :=
  sf.mkVector2i (F32.to_int (F32.div (F32.of_int (sf.x mousePos)) (sf.fx renderScale)))
                (F32.to_int (F32.div (F32.of_int (sf.y mousePos)) (sf.fy renderScale))).

(** [handleInput ()]; [mousePos] is the mouse position in the window,
    [windowSize] the size of the window, [left] and [right] tell whether the
    two mouse buttons are pressed. *)
Definition handleInput (this : t) (mousePos windowSize : sf.Vector2i)
    (left right : bool) : outcome t :=
  if (0 <=? sf.x mousePos) && (sf.x mousePos <? sf.x windowSize)
     && (0 <=? sf.y mousePos) && (sf.y mousePos <? sf.y windowSize)
  then
    let tilePos := tileUnder mousePos (m_scale this) in
    valid ← RRT.isValidTile (m_rrt this) tilePos OutOfBounds;
    if valid : bool then
      let start := if left then tilePos else m_start this in
      let end_ := if right then tilePos else m_end this in
      if sf.neq start (RRT.getStart (m_rrt this))
         || sf.neq end_ (RRT.getEnd (m_rrt this))
      then
        rrt ← RRT.prepareTree (m_rrt this) (m_data this) start end_;
        Done (mk (m_data this) (m_scale this) rrt start end_)
      else Done (mk (m_data this) (m_scale this) (m_rrt this) start end_)
    else Done this
  else Done this.

(** What the outside world supplies to one turn of the game loop: the mouse
    position, the window size, the two buttons, the two values of [rand ()],
    and the fuel of the loops of [generateBranch] and [draw]. *)
Record frame : Type := mkFrame {
    mousePos : sf.Vector2i;
    windowSize : sf.Vector2i;
    left : bool;
    right : bool;
    rx : Z;
    ry : Z;
    growFuel : nat;
    drawFuel : nat
  }.

(** One turn of the loop of [gameLoop]: input, one growth step, drawing. It
    returns the segments drawn for the tree. *)
Definition turn (this : t) (f : frame) : outcome (t * list RRT.line) :=
  this1 ← handleInput this (mousePos f) (windowSize f) (left f) (right f);
  rrt ← RRT.generateBranch (growFuel f) (m_rrt this1) (rx f) (ry f);
  lines ← RRT.draw (drawFuel f) rrt (m_scale this1);
  Done (mk (m_data this1) (m_scale this1) rrt (m_start this1) (m_end this1), lines).

(** The turns of the loop, one per frame, until the window is closed. *)
Fixpoint turns (this : t) (frames : list frame) : outcome t :=
  match frames with
  | [] => Done this
  | f :: rest => '(this', _) ← turn this f; turns this' rest
  end.

(** [gameLoop ()]: the tree is prepared with the value-initialised start and
    goal, then the loop runs. *)
Definition gameLoop (this : t) (frames : list frame) : outcome t :=
  rrt ← RRT.prepareTree (m_rrt this) (m_data this) sf.origin sf.origin;
  turns (mk (m_data this) (m_scale this) rrt (m_start this) (m_end this)) frames.
End RRTDemo.

(** ** Notions the properties are stated with *)

#[global] Instance outcome_eq_dec {A} `{EqDecision A} : EqDecision (outcome A).
Proof. solve_decision. Defined.

(** The terrain category of a cell: the tile stored at [x + y * width]. *)
Definition terrainAt (d : LevelData.t) (p : sf.Vector2i) : option TileType :=
  LevelData.m_tileData d !! Z.to_nat (sf.x p + sf.y p * LevelData.m_width d).

(** The slot of the occupancy index at flat index [i] holds a node. *)
Definition occupied (nodes : list (option addr)) (i : Z) : Prop :=
  ∃ p : addr, nodes !! Z.to_nat i = Some (Some p).

(** The node at address [p] is registered in the occupancy index. *)
Definition registered (this : RRT.t) (p : addr) : Prop :=
  ∃ i : nat, RRT.m_nodes this !! i = Some (Some p).

(** The node at address [p] belongs to the tree and holds coordinate [c]. *)
Definition treeNode (this : RRT.t) (p : addr) (c : sf.Vector2i) : Prop :=
  ∃ root n, RRT.m_tree this = Some root ∧ Tree.inTree (RRT.store this) root p ∧
    RRT.store this !! p = Some n ∧ Tree.m_data n = c.

(** Manhattan and squared Euclidean distance between two coordinates. *)
Definition manhattan (a b : sf.Vector2i) : Z :=
  Z.abs (sf.x a - sf.x b) + Z.abs (sf.y a - sf.y b).
Definition euclid2 (a b : sf.Vector2i) : Z :=
  (sf.x a - sf.x b) * (sf.x a - sf.x b) + (sf.y a - sf.y b) * (sf.y a - sf.y b).

(** Every registered node exists and holds a coordinate of the grid. *)
Definition registeredInBounds (this : RRT.t) (d : LevelData.t) : Prop :=
  ∀ i p, RRT.m_nodes this !! i = Some (Some p) →
    ∃ n, RRT.store this !! p = Some n ∧ LevelData.inBounds d (Tree.m_data n).

(** The occupancy index and the tree agree: a slot is occupied exactly when
    a node of the tree holds a coordinate with that flat index. *)
Definition consistent (this : RRT.t) : Prop :=
  ∃ d, RRT.m_data this = Some d ∧
    ∀ i : nat, (∃ p, RRT.m_nodes this !! i = Some (Some p)) ↔
      (∃ p c, treeNode this p c ∧ Z.to_nat (LevelData.flatIndex d c) = i).

(** No two nodes of the tree hold the same coordinate. *)
Definition distinctCoordinates (this : RRT.t) : Prop :=
  ∀ p q c, treeNode this p c → treeNode this q c → p = q.

(** The states of a session: what [prepareTree] returns, and what
    [generateBranch] returns from such a state. *)
Inductive reachable : RRT.t → Prop :=
  | reachable_prepare r data start end_ this :
      RRT.prepareTree r data start end_ = Done this → reachable this
  | reachable_generate this fuel rx ry this' :
      reachable this → RRT.generateBranch fuel this rx ry = Done this' →
      reachable this'.

(** [this'] is [this] with one node grafted: a node at a new address [b],
    holding [c], appended to the children of [parent] (the root or a
    registered node), and registered in the slot of [c], which was empty;
    nothing else differs. *)
Definition grafted (this this' : RRT.t) (parent b : addr) (c : sf.Vector2i) : Prop :=
  ∃ d np,
    RRT.m_data this = Some d ∧
    (RRT.m_tree this = Some parent ∨ registered this parent) ∧
    RRT.store this !! parent = Some np ∧
    RRT.store this !! b = None ∧
    RRT.m_nodes this !! Z.to_nat (LevelData.flatIndex d c) = Some None ∧
    this' = RRT.with_nodes
              (RRT.with_store this
                 (<[b := Tree.mk c (Some parent) []]>
                    (<[parent := Tree.mk (Tree.m_data np) (Tree.m_parent np)
                                         (Tree.m_branches np ++ [Some b])]>
                       (RRT.store this))))
              (<[Z.to_nat (LevelData.flatIndex d c) := Some b]> (RRT.m_nodes this)).

(** What every session state satisfies: a registered node exists and is
    filed under the flat index of its coordinate; the root is registered;
    the children of a registered node are registered; every registered node
    is in the tree. *)
Definition sessionInvariant (this : RRT.t) : Prop :=
  ∃ d root,
    RRT.m_data this = Some d ∧ RRT.m_tree this = Some root ∧
    registered this root ∧
    (∀ i p, RRT.m_nodes this !! i = Some (Some p) →
       ∃ n, RRT.store this !! p = Some n
            ∧ Z.to_nat (LevelData.flatIndex d (Tree.m_data n)) = i) ∧
    (∀ p n q, registered this p → RRT.store this !! p = Some n →
       Some q ∈ Tree.m_branches n → registered this q) ∧
    (∀ p, registered this p → Tree.inTree (RRT.store this) root p).

(** The sessions opened within the precondition of [prepareTree]: a level
    as it is loaded, start and goal inside the grid. *)
Inductive session : RRT.t → Prop :=
  | session_prepare r d start end_ this :
      LevelData.wf d → LevelData.inBounds d start → LevelData.inBounds d end_ →
      RRT.prepareTree r d start end_ = Done this → session this
  | session_generate this fuel rx ry this' :
      session this → RRT.generateBranch fuel this rx ry = Done this' →
      session this'.

(** The shape of a session state over the level [d]: start and goal inside
    the grid, one slot per cell, every registered node live and inside the
    grid, the root registered. *)
Definition wellFormedSession (this : RRT.t) (d : LevelData.t) : Prop :=
  RRT.m_data this = Some d ∧ LevelData.wf d ∧
  LevelData.inBounds d (RRT.m_start this) ∧ LevelData.inBounds d (RRT.m_end this) ∧
  length (RRT.m_nodes this) = Z.to_nat (LevelData.m_width d * LevelData.m_height d) ∧
  registeredInBounds this d ∧
  ∃ root, RRT.m_tree this = Some root ∧ registered this root.

(** The state of the scan after the slots [pre]: [closest] is the first
    registered node of [pre] at the least distance [nd] from [position]. *)
Definition firstNearest (h : gmap addr (Tree.t sf.Vector2i)) (position : sf.Vector2i)
    (pre : list (option addr)) (closest : option addr) (nd : Z) : Prop :=
  ∃ (i : nat) (p : addr) (n : Tree.t sf.Vector2i),
    pre !! i = Some (Some p) ∧ closest = Some p ∧ h !! p = Some n ∧
    nd = manhattan (Tree.m_data n) position ∧
    ∀ (j : nat) (q : addr) (m : Tree.t sf.Vector2i),
      pre !! j = Some (Some q) → h !! q = Some m →
      nd <= manhattan (Tree.m_data m) position ∧
      ((j < i)%nat → nd < manhattan (Tree.m_data m) position).

(** *** The sampling walk, in the words of the specification *)

(** The cursor without its clamps after [k] steps of the sample distance. *)
Definition unclamped (this : RRT.t) (k : nat) : spec_float :=
  Nat.iter k (λ c, F32.add c (RRT.m_sampleDistance this)) F32.zero.

(** After [n] steps the unclamped cursor is no longer below the maximum
    branch length. *)
Definition cursorReaches (this : RRT.t) (n : nat) : Prop :=
  F32.ltb (unclamped this n) (RRT.m_branchDistance this) = false.

(** The Euclidean length of the segment from [start] to [target], in the
    arithmetic of the embedding: the differences, their squares and the sum
    of the squares in [int], the root in [float]. *)
Definition segmentLength (start target : sf.Vector2i) : spec_float :=
  let dx := to_int (sf.x target - sf.x start) in
  let dy := to_int (sf.y target - sf.y start) in
  F32.sqrt (F32.of_int (to_int (to_int (dx * dx) + to_int (dy * dy)))).

(** The cursor one sample step further, clamped so that it exceeds neither
    the magnitude nor the maximum branch length. *)
Definition nextCursor (step maxLength magnitude current : spec_float) : spec_float :=
  F32.fmin (F32.fmin (F32.add current step) magnitude) maxLength.

(** The successive positions of the sampling cursor after [current], at most
    [n] of them: the cursor walks upward in increments of the sample step
    for as long as it is below the magnitude and below the maximum branch
    length. *)
Fixpoint cursors (n : nat) (step maxLength magnitude current : spec_float)
  : list spec_float :=
  match n with
  | O => []
  | S n' =>
      if F32.ltb current magnitude && F32.ltb current maxLength
      then let next := nextCursor step maxLength magnitude current in
           next :: cursors n' step maxLength magnitude next
      else []
  end.

(** The point of the segment from [start] to [target] at the fraction
    [fraction] of its length, truncated to an integer coordinate. *)
Definition interpolate (start target : sf.Vector2i) (fraction : spec_float)
  : sf.Vector2i :=
  sf.mkVector2i
    (F32.to_int (F32.add (F32.of_int (sf.x start))
                   (F32.mul (F32.of_int (to_int (sf.x target - sf.x start))) fraction)))
    (F32.to_int (F32.add (F32.of_int (sf.y start))
                   (F32.mul (F32.of_int (to_int (sf.y target - sf.y start))) fraction))).

(** The candidate points, at most [n] of them: the segment interpolated at
    the fraction [current / magnitude] for each position of the cursor, which
    starts from 0 and steps by the sample distance of the engine up to its
    maximum branch length. *)
Definition candidates (n : nat) (this : RRT.t) (start target : sf.Vector2i)
  : list sf.Vector2i :=
  let magnitude := segmentLength start target in
  (λ current, interpolate start target (F32.div current magnitude))
    <$> cursors n (RRT.m_sampleDistance this) (RRT.m_branchDistance this)
                magnitude F32.zero.

(** The terminal coordinate of a branch from [start] with base category
    [base]: candidates equal to [start] are skipped; the first candidate
    that is not valid stops the walk; the result is the last candidate
    before it, if any. A candidate whose lookup fails its assertion fails
    the walk. *)
Definition terminalBySpec (this : RRT.t) (start : sf.Vector2i) (base : TileType)
    (cs : list sf.Vector2i) : outcome (option sf.Vector2i) :=
  let moving := filter (λ c, c ≠ start) cs in
  match list_find (λ c, RRT.isValidTile this c base ≠ Done true) moving with
  | None => Done (last moving)
  | Some (i, c) => _ ← RRT.isValidTile this c base; Done (last (take i moving))
  end.

(** The store and pointer [calculateBranch] hands back for a terminal
    coordinate: none, or one new parentless, childless node holding it. *)
Definition handBack (h : gmap addr (Tree.t sf.Vector2i)) (r : option sf.Vector2i)
  : gmap addr (Tree.t sf.Vector2i) * option addr :=
  match r with
  | None => (h, None)
  | Some c => (<[fresh (dom h) := Tree.mk c None []]> h, Some (fresh (dom h)))
  end.

(** Every candidate of the branch the call with [rx] and [ry] constructs
    lies inside the grid. *)
Definition candidatesInGrid (this : RRT.t) (d : LevelData.t) (fuel : nat)
    (rx ry : Z) : Prop :=
  let random := RRT.sample (LevelData.m_width d) (LevelData.m_height d) rx ry in
  ∀ nearest nearData,
    RRT.determineNearest this random = Done nearest →
    Tree.getData (RRT.store this) nearest = Done nearData →
    Forall (LevelData.inBounds d) (candidates fuel this nearData random).

(** The sampling cursor leaves its loop within [fuel] iterations. *)
Fixpoint haltsWithin (fuel : nat) (this : RRT.t) (magnitude current : spec_float)
  : bool :=
  match fuel with
  | O => false
  | S fuel' =>
      if RRT.sampling this magnitude current
      then haltsWithin fuel' this magnitude (RRT.advance this magnitude current)
      else true
  end.

(** The later terminal coordinate [t], or the earlier one [r] if there is
    no later one. *)
Definition orElse (t r : option sf.Vector2i) : option sf.Vector2i :=
  match t with Some c => Some c | None => r end.

(** The registered nodes hold coordinates of the grid, as a check. *)
Definition registeredInBoundsb (this : RRT.t) (d : LevelData.t) : bool :=
  forallb (λ slot : option addr,
             match slot with
             | None => true
             | Some p =>
                 match RRT.store this !! p with
                 | Some n =>
                     let c := Tree.m_data n in
                     (0 <=? sf.x c) && (sf.x c <? LevelData.m_width d)
                     && (0 <=? sf.y c) && (sf.y c <? LevelData.m_height d)
                 | None => false
                 end
             end) (RRT.m_nodes this).

(** *** Concrete inputs *)

(** The default parameters of the engine: 0.25 and 15. *)
Definition quarter : spec_float := S754_finite false 8388608 (-25).
Definition fifteen : spec_float := S754_finite false 15728640 (-20).

(** A [w] by [h] level of plain terrain. *)
Definition openLevel (w h : Z) : LevelData.t :=
  LevelData.mk w h (replicate (Z.to_nat (w * h)) Terrain).

(** The engine [RRT ()] constructs. *)
Definition engine : RRT.t :=
  RRT.mk None sf.origin sf.origin quarter fifteen [] (Some 0%nat)
         {[ 0%nat := Tree.mk sf.origin None [] ]}.

(** The session [prepareTree] opens on a 5 by 5 level from (0,0) to (4,4). *)
Definition session5 : RRT.t :=
  RRT.mk (Some (openLevel 5 5)) (sf.mkVector2i 0 0) (sf.mkVector2i 4 4)
         quarter fifteen
         (<[0%nat := Some 1%nat]> (replicate 25 None)) (Some 1%nat)
         {[ 1%nat := Tree.mk (sf.mkVector2i 0 0) None [] ]}.

(** The session on a 21 by 21 level from (20,20) to (0,0). *)
Definition session21 : RRT.t :=
  RRT.mk (Some (openLevel 21 21)) (sf.mkVector2i 20 20) (sf.mkVector2i 0 0)
         quarter fifteen
         (<[440%nat := Some 1%nat]> (replicate 441 None)) (Some 1%nat)
         {[ 1%nat := Tree.mk (sf.mkVector2i 20 20) None [] ]}.

(** [session5] after one call that grafted the node (4,4). *)
Definition grown5 : RRT.t :=
  RRT.mk (Some (openLevel 5 5)) (sf.mkVector2i 0 0) (sf.mkVector2i 4 4)
         quarter fifteen
         (<[24%nat := Some 2%nat]> (<[0%nat := Some 1%nat]> (replicate 25 None)))
         (Some 1%nat)
         {[ 1%nat := Tree.mk (sf.mkVector2i 0 0) None [Some 2%nat];
            2%nat := Tree.mk (sf.mkVector2i 4 4) (Some 1%nat) [] ]}.

(** A corridor of five cells with a tree in the middle, and a session on it
    from its left end to its right end. *)
Definition corridor : LevelData.t :=
  LevelData.mk 5 1 [Terrain; Terrain; Tree; Terrain; Terrain].
Definition sessionCorridor : RRT.t :=
  RRT.mk (Some corridor) (sf.mkVector2i 0 0) (sf.mkVector2i 4 0)
         quarter fifteen
         (<[0%nat := Some 1%nat]> (replicate 5 None)) (Some 1%nat)
         {[ 1%nat := Tree.mk (sf.mkVector2i 0 0) None [] ]}.

(** [session21] after one call that sampled (0,0). *)
Definition grown21 : RRT.t :=
  RRT.mk (Some (openLevel 21 21)) (sf.mkVector2i 20 20) (sf.mkVector2i 0 0)
         quarter fifteen
         (<[198%nat := Some 2%nat]> (<[440%nat := Some 1%nat]> (replicate 441 None)))
         (Some 1%nat)
         {[ 1%nat := Tree.mk (sf.mkVector2i 20 20) None [Some 2%nat];
            2%nat := Tree.mk (sf.mkVector2i 9 9) (Some 1%nat) [] ]}.

(** The sample distance 2^-11, and the engine [RRT (2^-11, 15)]
    constructs. *)
Definition fine : spec_float := S754_finite false 8388608 (-34).
Definition fineEngine : RRT.t :=
  RRT.mk None sf.origin sf.origin fine fifteen [] (Some 0%nat)
         {[ 0%nat := Tree.mk sf.origin None [] ]}.

(** A single row of 16777220 cells of plain terrain, and the session of
    [fineEngine] on it whose start is the last cell, (16777219,0), and whose
    goal is the first. *)
Definition wideLevel : LevelData.t :=
  LevelData.mk 16777220 1 (replicate (Z.to_nat 16777220) Terrain).
Definition sessionWide : RRT.t :=
  RRT.mk (Some wideLevel) (sf.mkVector2i 16777219 0) (sf.mkVector2i 0 0)
         fine fifteen
         (<[Z.to_nat 16777219 := Some 1%nat]> (replicate (Z.to_nat 16777220) None))
         (Some 1%nat)
         {[ 1%nat := Tree.mk (sf.mkVector2i 16777219 0) None [] ]}.

(** A parent holding (3,4) with one child holding (5,6). *)
Definition family : gmap addr (Tree.t sf.Vector2i) :=
  {[ 0%nat := Tree.mk (sf.mkVector2i 3 4) None [Some 1%nat];
     1%nat := Tree.mk (sf.mkVector2i 5 6) (Some 0%nat) [] ]}.

(** *** Notions and inputs for the tree operations, the drawing, the demo
    and the loader *)

(** The cell with flat index [i]: column [i mod width], row [i / width]. *)
Definition cellOf (d : LevelData.t) (i : Z) : sf.Vector2i :=
  sf.mkVector2i (i mod LevelData.m_width d) (i / LevelData.m_width d).

(** Parent pointers and branch vectors tell the same story: the root has no
    parent and holds the start; no registered node has a null or a repeated
    pointer among its branches; a pointer among the branches of a registered
    node leads to a node whose parent pointer leads back; and a registered
    node other than the root is among the branches of the registered node
    its parent pointer names. *)
Definition kinship (this : RRT.t) : Prop :=
  ∃ root nr,
    RRT.m_tree this = Some root ∧ RRT.store this !! root = Some nr ∧
    Tree.m_parent nr = None ∧ Tree.m_data nr = RRT.m_start this ∧
    (∀ p n, registered this p → RRT.store this !! p = Some n →
       (None ∉ Tree.m_branches n) ∧ NoDup (Tree.m_branches n)) ∧
    (∀ p n q, registered this p → RRT.store this !! p = Some n →
       Some q ∈ Tree.m_branches n →
       ∃ m, RRT.store this !! q = Some m ∧ Tree.m_parent m = Some p) ∧
    (∀ q m, registered this q → RRT.store this !! q = Some m → q ≠ root →
       ∃ p n, Tree.m_parent m = Some p ∧ registered this p ∧
              RRT.store this !! p = Some n ∧ Some q ∈ Tree.m_branches n).

(** Every edge of the tree passed the validity test: the coordinate of a
    child is valid for the terrain category found at its parent, and differs
    from the coordinate of the parent. *)
Definition passableEdges (this : RRT.t) : Prop :=
  ∃ d, RRT.m_data this = Some d ∧
    ∀ p n q m, registered this p → RRT.store this !! p = Some n →
      Some q ∈ Tree.m_branches n → RRT.store this !! q = Some m →
      ∃ base,
        LevelData.getTile d (to_uint (sf.x (Tree.m_data n)))
                            (to_uint (sf.y (Tree.m_data n))) = Done base
        ∧ RRT.isValidTile this (Tree.m_data m) base = Done true
        ∧ Tree.m_data m ≠ Tree.m_data n.

(** The two media a branch can grow in. *)
Definition land (type : TileType) : Prop := type = Terrain ∨ type = Swamp.

(** [grown5] after [prepareTree] opened a new session from (1,1) to (3,3):
    the node (4,4) of the old tree is still in the store. *)
Definition reopened5 : RRT.t :=
  RRT.mk (Some (openLevel 5 5)) (sf.mkVector2i 1 1) (sf.mkVector2i 3 3)
         quarter fifteen
         (<[6%nat := Some 3%nat]> (replicate 25 None)) (Some 3%nat)
         {[ 3%nat := Tree.mk (sf.mkVector2i 1 1) None [];
            2%nat := Tree.mk (sf.mkVector2i 4 4) (Some 1%nat) [] ]}.

(** The store [h] without the nodes at the addresses [nodes]. *)
Definition released {T} (nodes : gset addr) (h : gmap addr (Tree.t T))
  : gmap addr (Tree.t T) :=
  filter (λ kv, kv.1 ∉ nodes) h.

(** [owns d h p nodes]: what is reachable from [p] is a proper tree of at
    most [d] levels, whose nodes are at the addresses [nodes]. Every node of
    it is allocated; a null slot leads nowhere; the subtrees under two slots
    of one node have no node in common, and none of them holds the node
    itself. *)
Fixpoint owns {T} (d : nat) (h : gmap addr (Tree.t T)) (p : addr)
    (nodes : gset addr) : Prop :=
  match d with
  | O => False
  | S d' =>
      ∃ (n : Tree.t T) (parts : list (gset addr)),
        h !! p = Some n
        ∧ length parts = length (Tree.m_branches n)
        ∧ (∀ i branch part,
             Tree.m_branches n !! i = Some branch → parts !! i = Some part →
             match branch with
             | Some c => owns d' h c part
             | None => part = ∅
             end)
        ∧ (∀ i j Si Sj, i ≠ j → parts !! i = Some Si → parts !! j = Some Sj →
             Si ## Sj)
        ∧ (p ∉ ⋃ parts)
        ∧ nodes = {[p]} ∪ ⋃ parts
  end.

(** [family] with a third node, holding (7,8), that is no one's child. *)
Definition household : gmap addr (Tree.t sf.Vector2i) :=
  {[ 0%nat := Tree.mk (sf.mkVector2i 3 4) None [Some 1%nat];
     1%nat := Tree.mk (sf.mkVector2i 5 6) (Some 0%nat) [];
     2%nat := Tree.mk (sf.mkVector2i 7 8) None [] ]}.

(** A parent with three children, none of which has children. *)
Definition clan : gmap addr (Tree.t sf.Vector2i) :=
  {[ 0%nat := Tree.mk (sf.mkVector2i 0 0) None [Some 1%nat; Some 2%nat; Some 3%nat];
     1%nat := Tree.mk (sf.mkVector2i 1 1) (Some 0%nat) [];
     2%nat := Tree.mk (sf.mkVector2i 2 2) (Some 0%nat) [];
     3%nat := Tree.mk (sf.mkVector2i 3 3) (Some 0%nat) [] ]}.

(** The segment [draw] joins a node to its parent with. *)
Definition segment (scale : sf.Vector2f) (n parent : Tree.t sf.Vector2i) : RRT.line :=
  (RRT.vertex (Tree.m_data n) scale, RRT.vertex (Tree.m_data parent) scale).

(** [l] is the segment of a node of the tree rooted at [root] that has a
    parent and at least one slot in its branch vector. *)
Definition innerSegment (h : gmap addr (Tree.t sf.Vector2i)) (root : addr)
    (scale : sf.Vector2f) (l : RRT.line) : Prop :=
  ∃ p n up parent,
    Tree.inTree h root p ∧ h !! p = Some n ∧ Tree.m_branches n ≠ []
    ∧ Tree.m_parent n = Some up ∧ h !! up = Some parent
    ∧ l = segment scale n parent.

(** The nodes of the tree have a depth: a child lies one level below its
    parent, and no node lies deeper than [bound]. *)
Definition levelled (this : RRT.t) (bound : nat) : Prop :=
  ∃ depth : addr → nat,
    (∀ p, registered this p → (depth p <= bound)%nat)
    ∧ ∀ p n q, registered this p → RRT.store this !! p = Some n →
        Some q ∈ Tree.m_branches n → depth q = S (depth p).

(** [session5] after two calls that grafted (2,2) on the root and (2,4) on
    (2,2): a chain of three nodes. *)
Definition chain5 : RRT.t :=
  RRT.mk (Some (openLevel 5 5)) (sf.mkVector2i 0 0) (sf.mkVector2i 4 4)
         quarter fifteen
         (<[22%nat := Some 3%nat]>
            (<[12%nat := Some 2%nat]> (<[0%nat := Some 1%nat]> (replicate 25 None))))
         (Some 1%nat)
         {[ 1%nat := Tree.mk (sf.mkVector2i 0 0) None [Some 2%nat];
            2%nat := Tree.mk (sf.mkVector2i 2 2) (Some 1%nat) [Some 3%nat];
            3%nat := Tree.mk (sf.mkVector2i 2 4) (Some 2%nat) [] ]}.

(** One pixel per tile. *)
Definition unitScale : sf.Vector2f := sf.mkVector2f F32.one F32.one.

(** The pixel [createView] sets for the cell with flat index [i]. *)
Definition pixelOf (d : LevelData.t) (i : Z) : Z * Z * LevelViewer.Color :=
  (i mod LevelData.m_width d, i / LevelData.m_width d,
   LevelViewer.determineColour (default Terrain (LevelData.m_tileData d !! Z.to_nat i))).

(** What the demo keeps true of its members between two turns of its
    loop: the engine is in a session on the level of the demo, opened
    within the precondition of [prepareTree], and the start and goal of the
    engine are those of the demo. *)
Definition inSession (this : RRTDemo.t) : Prop :=
  session (RRTDemo.m_rrt this)
  ∧ RRT.m_data (RRTDemo.m_rrt this) = Some (RRTDemo.m_data this)
  ∧ RRT.m_start (RRTDemo.m_rrt this) = RRTDemo.m_start this
  ∧ RRT.m_end (RRTDemo.m_rrt this) = RRTDemo.m_end this.

(** The mouse is over the window. *)
Definition onScreen (mousePos windowSize : sf.Vector2i) : bool :=
  (0 <=? sf.x mousePos) && (sf.x mousePos <? sf.x windowSize)
  && (0 <=? sf.y mousePos) && (sf.y mousePos <? sf.y windowSize).

(** A cell a start or goal may be put on with the mouse: inside the grid,
    on a tile that is neither OutOfBounds nor Tree. *)
Definition pickable (d : LevelData.t) (p : sf.Vector2i) : Prop :=
  LevelData.inBounds d p
  ∧ ∃ type, terrainAt d p = Some type ∧ type ≠ OutOfBounds ∧ type ≠ Tree.

(** The demo on a 5 by 5 level of plain terrain, one pixel per tile: as it
    is when [gameLoop] starts, and in the session from (0,0) to (4,4). *)
Definition fresh5 : RRTDemo.t :=
  RRTDemo.mk (openLevel 5 5) unitScale engine sf.origin sf.origin.
Definition demo5 : RRTDemo.t :=
  RRTDemo.mk (openLevel 5 5) unitScale session5 (sf.mkVector2i 0 0) (sf.mkVector2i 4 4).

(** A frame with the mouse over the tile (2,3) and the left button down. *)
Definition click5 : RRTDemo.frame :=
  RRTDemo.mkFrame (sf.mkVector2i 2 3) (sf.mkVector2i 5 5) true false 4 4 61 5.

(** The characters of the body of a level file that are tiles: those that
    are not white space. *)
Definition tileChars (body : list ascii) : list ascii :=
  List.filter (λ c, negb (LevelData.isspace c)) body.

(** [tiles] are the tile types of the characters [chars], one by one. *)
Definition decodes (chars : list ascii) (tiles : list TileType) : Prop :=
  Forall2 (λ c tile, LevelData.determineTileType c = LevelData.Loaded tile) chars tiles.

(** Doubling, the growth of the vector of libstdc++ and libc++. *)
Definition doubled (c : nat) : nat := Nat.max 1 (2 * c).

(** * Properties *)

Lemma to_uint_small z : 0 <= z < 4294967296 → to_uint z = z.
Proof. intros. unfold to_uint. apply Z.mod_small; lia. Qed.

Lemma to_int_small z : -2147483648 <= z <= 2147483647 → to_int z = z.
Proof. intros. unfold to_int. rewrite Z.mod_small; lia. Qed.

Example default_parameters :
  quarter = F32.div F32.one (F32.of_int 4) ∧ fifteen = F32.of_int 15.
Proof. split; vm_compute; reflexivity. Qed.

Example construct_defaults : RRT.construct quarter fifteen = Done engine.
Proof. vm_compute. reflexivity. Qed.

Example prepare_session5 :
  RRT.prepareTree engine (openLevel 5 5) (sf.mkVector2i 0 0) (sf.mkVector2i 4 4)
  = Done session5.
Proof. vm_compute. reflexivity. Qed.

Example prepare_session21 :
  RRT.prepareTree engine (openLevel 21 21) (sf.mkVector2i 20 20) (sf.mkVector2i 0 0)
  = Done session21.
Proof. vm_compute. reflexivity. Qed.

(** ** Terrain lookups *)

Lemma flat_in_range (d : LevelData.t) (p : sf.Vector2i) :
  LevelData.wf d → LevelData.inBounds d p →
  0 <= sf.x p + sf.y p * LevelData.m_width d
     < LevelData.m_width d * LevelData.m_height d.
Proof.
  intros [Hw Hh _ _] [Hx Hy].
  assert (0 <= sf.y p * LevelData.m_width d) by (apply Z.mul_nonneg_nonneg; lia).
  assert (sf.y p * LevelData.m_width d
          <= (LevelData.m_height d - 1) * LevelData.m_width d)
    by (apply Z.mul_le_mono_nonneg_r; lia).
  lia.
Qed.

Lemma flatIndex_inBounds (d : LevelData.t) (p : sf.Vector2i) :
  LevelData.wf d → LevelData.inBounds d p →
  LevelData.flatIndex d p = sf.x p + sf.y p * LevelData.m_width d.
Proof.
  intros Hwf Hp. pose proof (flat_in_range d p Hwf Hp).
  destruct Hwf as [_ _ _ Hfit]. unfold LevelData.flatIndex.
  apply to_uint_small. lia.
Qed.

Lemma getTile_inBounds (d : LevelData.t) (p : sf.Vector2i) :
  LevelData.wf d → LevelData.inBounds d p →
  ∃ type, terrainAt d p = Some type ∧
    LevelData.getTile d (to_uint (sf.x p)) (to_uint (sf.y p)) = Done type.
Proof.
  intros Hwf Hp. pose proof (flat_in_range d p Hwf Hp) as Hflat.
  pose proof Hwf as [Hw Hh Hcount Hfit]. destruct Hp as [Hx Hy].
  unfold INT_MAX in *.
  assert (Hlt : (Z.to_nat (sf.x p + sf.y p * LevelData.m_width d)
                 < length (LevelData.m_tileData d))%nat) by lia.
  destruct (lookup_lt_is_Some_2 _ _ Hlt) as [type Htype].
  exists type. split; [exact Htype|].
  unfold LevelData.getTile, LevelData.tileAt.
  rewrite (to_uint_small (sf.x p)), (to_uint_small (sf.y p)) by lia.
  replace ((sf.x p <? LevelData.m_width d) && (sf.y p <? LevelData.m_height d))
    with true by (symmetry; apply andb_true_iff; split; apply Z.ltb_lt; lia).
  simpl. rewrite to_uint_small by lia. rewrite Htype. reflexivity.
Qed.

(** C1: for an in-bounds position and any base category, [isValidTile]
    returns the base-dependent passability rule applied to the terrain
    category at the position: with base OutOfBounds or Tree, true exactly
    when the category is neither of the two; with base Water, true exactly
    when the category is Water; with any other base, true exactly when the
    category is Terrain or Swamp. *)
Theorem isValidTile_rule (this : RRT.t) (d : LevelData.t)
    (position : sf.Vector2i) (base : TileType) :
  RRT.m_data this = Some d → LevelData.wf d → LevelData.inBounds d position →
  ∃ type b, terrainAt d position = Some type ∧
    RRT.isValidTile this position base = Done b ∧
    (base = OutOfBounds ∨ base = Tree →
       (b = true ↔ type ≠ OutOfBounds ∧ type ≠ Tree)) ∧
    (base = Water → (b = true ↔ type = Water)) ∧
    (base ≠ OutOfBounds → base ≠ Tree → base ≠ Water →
       (b = true ↔ type = Terrain ∨ type = Swamp)).
Proof.
  intros Hd Hwf Hp.
  destruct (getTile_inBounds d position Hwf Hp) as (type & Hty & Hget).
  exists type. unfold RRT.isValidTile, RRT.level. rewrite Hd. simpl.
  rewrite Hget. simpl. eexists. split; [exact Hty|]. split; [reflexivity|].
  destruct base, type; simpl; repeat split; intros;
    try discriminate; try congruence; try tauto;
    repeat match goal with
           | H : _ ∨ _ |- _ => destruct H
           | H : _ ∧ _ |- _ => destruct H
           end; congruence.
Qed.

Lemma wf_openLevel5 : LevelData.wf (openLevel 5 5).
Proof. split; vm_compute; try split; congruence. Qed.

Lemma isValidTile_rule_witness :
  ∃ type b, terrainAt (openLevel 5 5) (sf.mkVector2i 2 3) = Some type ∧
    RRT.isValidTile session5 (sf.mkVector2i 2 3) Water = Done b ∧
    (Water = OutOfBounds ∨ Water = Tree →
       (b = true ↔ type ≠ OutOfBounds ∧ type ≠ Tree)) ∧
    (Water = Water → (b = true ↔ type = Water)) ∧
    (Water ≠ OutOfBounds → Water ≠ Tree → Water ≠ Water →
       (b = true ↔ type = Terrain ∨ type = Swamp)).
Proof.
  apply (isValidTile_rule session5 (openLevel 5 5) (sf.mkVector2i 2 3) Water).
  - reflexivity.
  - exact wf_openLevel5.
  - unfold LevelData.inBounds; simpl; lia.
Defined.

(** ** Termination test and session set-up *)

(** Inversion of a bind that returned. *)
Lemma bind_Done {A B} (m : outcome A) (f : A → outcome B) (b : B) :
  m ≫= f = Done b → ∃ a, m = Done a ∧ f a = Done b.
Proof. destruct m; simpl; intros; try discriminate; eauto. Qed.

Tactic Notation "bind_inv" hyp(H) "as" ident(a) ident(Ha) :=
  apply bind_Done in H; destruct H as (a & Ha & H).

Lemma nodeAt_lt (nodes : list (option addr)) (i : Z) :
  (Z.to_nat i < length nodes)%nat →
  ∃ slot, nodes !! Z.to_nat i = Some slot ∧ RRT.nodeAt nodes i = Done slot.
Proof.
  intros Hlt. destruct (lookup_lt_is_Some_2 _ _ Hlt) as [slot Hslot].
  exists slot. unfold RRT.nodeAt. rewrite Hslot. auto.
Qed.

Lemma nodeAt_Done (nodes : list (option addr)) (i : Z) slot :
  RRT.nodeAt nodes i = Done slot → nodes !! Z.to_nat i = Some slot.
Proof.
  unfold RRT.nodeAt. destruct (nodes !! Z.to_nat i); intros; congruence.
Qed.

Lemma hasFinished_value (this : RRT.t) (d : LevelData.t) :
  RRT.m_data this = Some d →
  (Z.to_nat (LevelData.flatIndex d (RRT.m_start this)) < length (RRT.m_nodes this))%nat →
  (Z.to_nat (LevelData.flatIndex d (RRT.m_end this)) < length (RRT.m_nodes this))%nat →
  ∃ b, RRT.hasFinished this = Done b ∧
    (b = true ↔ occupied (RRT.m_nodes this) (LevelData.flatIndex d (RRT.m_start this))
               ∧ occupied (RRT.m_nodes this) (LevelData.flatIndex d (RRT.m_end this))).
Proof.
  intros Hd Hs He.
  destruct (nodeAt_lt _ _ Hs) as (s & Hls & Hns).
  destruct (nodeAt_lt _ _ He) as (e & Hle & Hne).
  unfold RRT.hasFinished, RRT.level, LevelData.getWidth. rewrite Hd. simpl.
  unfold LevelData.flatIndex in *. rewrite Hns. simpl.
  destruct s as [ps|].
  - rewrite Hne. simpl. eexists. split; [reflexivity|].
    unfold occupied. rewrite Hls, Hle. destruct e as [pe|]; simpl.
    + split; [intros _; split; eauto|intros _].
      first [reflexivity | apply bool_decide_eq_true; eauto].
    + split; [|intros [_ [p Hp]]; discriminate].
      intros Hb. first [discriminate Hb
                       | apply bool_decide_eq_true in Hb; destruct Hb; discriminate].
  - exists false. split; [reflexivity|]. unfold occupied. rewrite Hls.
    split; [discriminate|]. intros [[p Hp] _]. discriminate.
Qed.

(** What [prepareTree] builds from an engine whose root node is live. *)
Lemma prepareTree_live (r : RRT.t) (d : LevelData.t) (start end_ : sf.Vector2i)
    (old : addr) (nold : Tree.t sf.Vector2i) :
  RRT.m_tree r = Some old → RRT.store r !! old = Some nold →
  RRT.prepareCondition d start end_ = true →
  (Z.to_nat (LevelData.flatIndex d start)
   < Z.to_nat (LevelData.getTileCount d))%nat →
  let h1 := <[old := Tree.mk (Tree.m_data nold) (Tree.m_parent nold) []]> (RRT.store r) in
  let root := fresh (dom h1) in
  RRT.prepareTree r d start end_ =
    Done (RRT.mk (Some d) start end_ (RRT.m_sampleDistance r) (RRT.m_branchDistance r)
            (<[Z.to_nat (LevelData.flatIndex d start) := Some root]>
               (replicate (Z.to_nat (LevelData.getTileCount d)) None))
            (Some root)
            (<[root := Tree.mk start None []]>
               (delete old (<[root := Tree.mk sf.origin None []]> h1)))).
Proof.
  intros Htree Hold Hcond Hidx h1 root.
  unfold RRT.prepareTree. rewrite Hcond, Htree. simpl.
  unfold Tree.clear, Tree.deref. rewrite Hold. simpl. fold h1. fold root.
  assert (Hne : root ≠ old).
  { intros Heq. apply (is_fresh (dom h1)). fold root. rewrite Heq.
    apply elem_of_dom. unfold h1. rewrite lookup_insert_eq. eauto. }
  unfold Tree.setData, Tree.deref.
  rewrite lookup_delete_ne by congruence. rewrite lookup_insert_eq. simpl.
  unfold LevelData.flatIndex, LevelData.getWidth in *.
  destruct (nodeAt_lt (replicate (Z.to_nat (LevelData.getTileCount d)) None)
              (to_uint (sf.x start + sf.y start * LevelData.m_width d)))
    as (slot & _ & Hslot).
  { rewrite length_replicate. exact Hidx. }
  rewrite Hslot. simpl. reflexivity.
Qed.

Lemma prepareCondition_inBounds (d : LevelData.t) (start end_ : sf.Vector2i) :
  LevelData.wf d → LevelData.inBounds d start → LevelData.inBounds d end_ →
  RRT.prepareCondition d start end_ = true.
Proof.
  intros [Hw Hh _ _] [Hsx Hsy] [Hex Hey]. unfold INT_MAX in *.
  unfold RRT.prepareCondition, LevelData.getWidth, LevelData.getHeight.
  rewrite !to_int_small by lia.
  repeat (apply andb_true_iff; split); try apply Z.leb_le; try apply Z.ltb_lt; lia.
Qed.

Lemma getTileCount_wf (d : LevelData.t) :
  LevelData.wf d →
  LevelData.getTileCount d = LevelData.m_width d * LevelData.m_height d.
Proof.
  intros [Hw Hh Hcount Hfit]. unfold LevelData.getTileCount.
  rewrite Hcount. apply to_uint_small. nia.
Qed.

(** C9: the assertion of [prepareTree] does not check the bounds its
    comment announces. On a 5 by 5 level it holds for the start (0,7),
    which lies outside the grid, and the call goes on to write past the end
    of the occupancy index; it also holds for the goal (7,0), and the call
    returns normally. *)
Theorem prepareTree_accepts_out_of_bounds :
  ¬ LevelData.inBounds (openLevel 5 5) (sf.mkVector2i 0 7)
  ∧ RRT.prepareCondition (openLevel 5 5) (sf.mkVector2i 0 7) (sf.mkVector2i 0 0) = true
  ∧ RRT.prepareTree engine (openLevel 5 5) (sf.mkVector2i 0 7) (sf.mkVector2i 0 0)
    = Undefined
  ∧ ¬ LevelData.inBounds (openLevel 5 5) (sf.mkVector2i 7 0)
  ∧ ∃ this, RRT.prepareTree engine (openLevel 5 5) (sf.mkVector2i 0 0)
                            (sf.mkVector2i 7 0) = Done this.
Proof.
  split; [unfold LevelData.inBounds; simpl; lia|].
  split; [reflexivity|].
  split; [vm_compute; reflexivity|].
  split; [unfold LevelData.inBounds; simpl; lia|].
  eexists. vm_compute. reflexivity.
Qed.

(** C8: copying a node is neither deep nor complete. The copy of the parent
    of [family] holds the value-initialised payload (0,0), not (3,4); its
    branch vector holds the address of the original child, which no copy was
    made of and whose parent is still the original; and assigning the parent
    to its child leaves the child's parent pointer in place, so the
    assigned-to node is no root. *)
Theorem copy_shares_children :
  ∃ h' c,
    Tree.copy_construct sf.origin family 0%nat = Done (h', 2%nat)
    ∧ h' !! 2%nat = Some c
    ∧ Tree.m_data c = sf.mkVector2i 0 0
    ∧ Tree.m_data <$> family !! 0%nat = Some (sf.mkVector2i 3 4)
    ∧ Tree.m_branches c = [Some 1%nat]
    ∧ Tree.m_branches <$> family !! 0%nat = Some [Some 1%nat]
    ∧ h' !! 1%nat = Some (Tree.mk (sf.mkVector2i 5 6) (Some 0%nat) [])
    ∧ dom h' = {[ 0%nat; 1%nat; 2%nat ]}
    ∧ ∃ h'' n, Tree.copy_assign family 1%nat 0%nat = Done h''
               ∧ h'' !! 1%nat = Some n ∧ Tree.isRoot n = false.
Proof.
  eexists. eexists.
  split; [vm_compute; reflexivity|].
  split; [vm_compute; reflexivity|].
  repeat (split; [vm_compute; reflexivity|]).
  eexists. eexists.
  split; [vm_compute; reflexivity|].
  split; vm_compute; reflexivity.
Qed.

(** ** The nearest-node scan *)

Lemma manhattan_bound (d : LevelData.t) (a b : sf.Vector2i) :
  LevelData.wf d → LevelData.inBounds d a → LevelData.inBounds d b →
  Z.abs (sf.x a - sf.x b) < LevelData.m_width d
  ∧ Z.abs (sf.y a - sf.y b) < LevelData.m_height d
  ∧ manhattan a b < INT_MAX.
Proof.
  intros [Hw Hh _ Hfit] [Hax Hay] [Hbx Hby]. unfold manhattan, INT_MAX in *.
  set (w := LevelData.m_width d) in *. set (h := LevelData.m_height d) in *.
  split; [lia|]. split; [lia|].
  assert (Hsum : w + h - 2 < 2147483647); [|lia].
  destruct (Z.eq_dec w 1) as [->|Hw1]; [lia|].
  destruct (Z.eq_dec h 1) as [->|Hh1]; [lia|].
  destruct (Z.eq_dec w 2) as [Hw2|Hw2]; [rewrite Hw2 in *; lia|].
  destruct (Z.eq_dec h 2) as [Hh2|Hh2]; [rewrite Hh2 in *; lia|].
  assert (H3 : 0 <= (w - 3) * (h - 3)) by (apply Z.mul_nonneg_nonneg; lia).
  lia.
Qed.

(** The distance [determineNearest] computes is the Manhattan distance. *)
Lemma distance_manhattan (d : LevelData.t) (data position : sf.Vector2i) :
  LevelData.wf d → LevelData.inBounds d data → LevelData.inBounds d position →
  let difference := sf.sub data position in
  to_int (abs_int (sf.x difference) + abs_int (sf.y difference))
  = manhattan data position.
Proof.
  intros Hwf Hd Hp. destruct (manhattan_bound d data position Hwf Hd Hp)
    as (Hx & Hy & Hm).
  destruct Hwf as [Hw Hh _ _]. unfold manhattan, INT_MAX in *. simpl.
  rewrite (to_int_small (sf.x data - sf.x position)) by lia.
  rewrite (to_int_small (sf.y data - sf.y position)) by lia.
  unfold abs_int.
  rewrite (to_int_small (Z.abs (sf.x data - sf.x position))) by lia.
  rewrite (to_int_small (Z.abs (sf.y data - sf.y position))) by lia.
  apply to_int_small. lia.
Qed.

Lemma nearestLoop_scan (d : LevelData.t) (h : gmap addr (Tree.t sf.Vector2i))
    (position : sf.Vector2i) :
  LevelData.wf d → LevelData.inBounds d position →
  ∀ (rest pre : list (option addr)) (closest : option addr) (nd : Z),
    (∀ i p, (pre ++ rest) !! i = Some (Some p) →
       ∃ n, h !! p = Some n ∧ LevelData.inBounds d (Tree.m_data n)) →
    ((∀ j q, pre !! j ≠ Some (Some q)) ∧ nd = INT_MAX)
    ∨ firstNearest h position pre closest nd →
    ∃ result, RRT.nearestLoop h position rest closest nd = Done result ∧
      (((∀ j q, (pre ++ rest) !! j ≠ Some (Some q)) ∧ result = closest)
       ∨ ∃ nd', firstNearest h position (pre ++ rest) result nd').
Proof.
  intros Hwf Hpos. induction rest as [|slot rest IH]; intros pre closest nd Hreg Hst.
  - simpl. exists closest. split; [reflexivity|]. rewrite app_nil_r.
    destruct Hst as [[Hnone _]|Hbest]; [left; auto|right; eauto].
  - replace (pre ++ slot :: rest) with ((pre ++ [slot]) ++ rest) in *
      by (rewrite <- app_assoc; reflexivity).
    destruct slot as [b|]; simpl.
    + assert (Hhere : ((pre ++ [Some b]) ++ rest) !! length pre = Some (Some b)).
      { rewrite lookup_app_l by (rewrite length_app; simpl; lia).
        rewrite lookup_app_r by lia. rewrite Nat.sub_diag. reflexivity. }
      destruct (Hreg (length pre) b Hhere) as (n & Hn & Hin).
      unfold Tree.getData, Tree.deref. rewrite Hn. simpl.
      pose proof (distance_manhattan d (Tree.m_data n) position Hwf Hin Hpos) as Hdist.
      simpl in Hdist. rewrite Hdist.
      destruct (manhattan_bound d (Tree.m_data n) position Hwf Hin Hpos) as (_ & _ & Hlt).
      assert (Hnext : ∃ c' nd',
                (if manhattan (Tree.m_data n) position <? nd
                 then RRT.nearestLoop h position rest (Some b)
                        (manhattan (Tree.m_data n) position)
                 else RRT.nearestLoop h position rest closest nd)
                = RRT.nearestLoop h position rest c' nd'
                ∧ firstNearest h position (pre ++ [Some b]) c' nd').
      { destruct (Z.ltb_spec (manhattan (Tree.m_data n) position) nd) as [Hless|Hge].
        - exists (Some b), (manhattan (Tree.m_data n) position).
          split; [reflexivity|]. exists (length pre), b, n.
          split; [rewrite lookup_app_r by lia; rewrite Nat.sub_diag; reflexivity|].
          split; [reflexivity|]. split; [exact Hn|]. split; [reflexivity|].
          intros j q m Hj Hq. apply lookup_snoc_Some in Hj.
          destruct Hj as [[Hjlt Hj]|[Hjeq Hj]].
          + destruct Hst as [[Hnone _]|(i & p & n0 & _ & _ & _ & Hnd & Hall)].
            * exfalso. exact (Hnone j q Hj).
            * destruct (Hall j q m Hj Hq) as [Hle _]. split; intros; lia.
          + injection Hj as <-. rewrite Hn in Hq. injection Hq as <-.
            split; [lia|intros; lia].
        - exists closest, nd. split; [reflexivity|].
          destruct Hst as [[Hnone Hnd]|(i & p & n0 & Hi & Hc & Hp & Hnd & Hall)];
            [lia|].
          exists i, p, n0.
          split; [rewrite lookup_app_l by (eapply lookup_lt_Some; eauto); exact Hi|].
          split; [exact Hc|]. split; [exact Hp|]. split; [exact Hnd|].
          intros j q m Hj Hq. apply lookup_snoc_Some in Hj.
          destruct Hj as [[Hjlt Hj]|[Hjeq Hj]]; [exact (Hall j q m Hj Hq)|].
          injection Hj as <-. rewrite Hn in Hq. injection Hq as <-.
          pose proof (lookup_lt_Some _ _ _ Hi). split; [lia|intros; lia]. }
      destruct Hnext as (c' & nd' & -> & Hst').
      destruct (IH (pre ++ [Some b]) c' nd' Hreg (or_intror Hst'))
        as (result & Hrun & Hres).
      exists result. split; [exact Hrun|]. right.
      destruct Hres as [[Hnone _]|Hbest]; [|exact Hbest].
      exfalso. exact (Hnone _ _ Hhere).
    + apply IH; [exact Hreg|].
      destruct Hst as [[Hnone Hnd]|(i & p & n0 & Hi & Hc & Hp & Hnd & Hall)].
      * left. split; [|exact Hnd]. intros j q Hj. apply lookup_snoc_Some in Hj.
        destruct Hj as [[_ Hj]|[_ Hj]]; [exact (Hnone j q Hj)|discriminate].
      * right. exists i, p, n0.
        split; [rewrite lookup_app_l by (eapply lookup_lt_Some; eauto); exact Hi|].
        split; [exact Hc|]. split; [exact Hp|]. split; [exact Hnd|].
        intros j q m Hj Hq. apply lookup_snoc_Some in Hj.
        destruct Hj as [[_ Hj]|[_ Hj]]; [exact (Hall j q m Hj Hq)|discriminate].
Qed.

Lemma determineNearest_scan (this : RRT.t) (d : LevelData.t)
    (position : sf.Vector2i) :
  LevelData.wf d → LevelData.inBounds d position →
  registeredInBounds this d →
  (∃ p, registered this p) →
  ∃ (i : nat) (p : addr) (n : Tree.t sf.Vector2i),
    RRT.determineNearest this position = Done (Some p) ∧
    RRT.m_nodes this !! i = Some (Some p) ∧
    RRT.store this !! p = Some n ∧
    ∀ (j : nat) (q : addr) (m : Tree.t sf.Vector2i),
      RRT.m_nodes this !! j = Some (Some q) → RRT.store this !! q = Some m →
      manhattan (Tree.m_data n) position <= manhattan (Tree.m_data m) position ∧
      ((j < i)%nat →
       manhattan (Tree.m_data n) position < manhattan (Tree.m_data m) position).
Proof.
  intros Hwf Hpos Hreg [p0 [i0 Hp0]].
  destruct (nearestLoop_scan d (RRT.store this) position Hwf Hpos
              (RRT.m_nodes this) [] (RRT.m_tree this) INT_MAX)
    as (result & Hrun & Hres).
  - simpl. exact Hreg.
  - left. split; [|reflexivity]. intros j q Hj. rewrite lookup_nil in Hj. discriminate.
  - simpl in Hres. destruct Hres as [[Hnone _]|(nd & i & p & n & Hi & Hc & Hp & Hnd & Hall)].
    + exfalso. exact (Hnone i0 p0 Hp0).
    + exists i, p, n. unfold RRT.determineNearest. rewrite Hrun, Hc.
      split; [reflexivity|]. split; [exact Hi|]. split; [exact Hp|].
      intros j q m Hj Hq. rewrite <- Hnd. exact (Hall j q m Hj Hq).
Qed.

(** C4: in a state whose registered nodes hold coordinates of the grid and
    where at least one node (the root) is registered, the nearest-node
    search returns a registered node at the least Manhattan distance from
    the sampled coordinate, and among the nodes at that distance the one
    whose slot comes first in the occupancy index. *)
Theorem determineNearest_first_minimum (this : RRT.t) (d : LevelData.t)
    (position : sf.Vector2i) :
  LevelData.wf d → LevelData.inBounds d position →
  registeredInBounds this d →
  (∃ p, registered this p) →
  ∃ (i : nat) (p : addr) (n : Tree.t sf.Vector2i),
    RRT.determineNearest this position = Done (Some p) ∧
    RRT.m_nodes this !! i = Some (Some p) ∧
    RRT.store this !! p = Some n ∧
    ∀ (j : nat) (q : addr) (m : Tree.t sf.Vector2i),
      RRT.m_nodes this !! j = Some (Some q) → RRT.store this !! q = Some m →
      manhattan (Tree.m_data n) position <= manhattan (Tree.m_data m) position ∧
      ((j < i)%nat →
       manhattan (Tree.m_data n) position < manhattan (Tree.m_data m) position).
Proof. exact (determineNearest_scan this d position). Qed.

Lemma registeredInBoundsb_sound (this : RRT.t) (d : LevelData.t) :
  registeredInBoundsb this d = true → registeredInBounds this d.
Proof.
  unfold registeredInBoundsb, registeredInBounds. intros Hall i p Hi.
  rewrite forallb_forall in Hall.
  assert (Hin : In (Some p) (RRT.m_nodes this))
    by (apply list_elem_of_In; eapply list_elem_of_lookup_2; exact Hi).
  specialize (Hall _ Hin). simpl in Hall.
  destruct (RRT.store this !! p) as [n|]; [|discriminate].
  exists n. split; [reflexivity|].
  apply andb_true_iff in Hall as [Hall Hy2].
  apply andb_true_iff in Hall as [Hall Hy1].
  apply andb_true_iff in Hall as [Hx1 Hx2].
  unfold LevelData.inBounds. lia.
Qed.

Example generate_grown5 : RRT.generateBranch 61 session5 4 4 = Done grown5.
Proof. vm_compute. reflexivity. Qed.

Lemma determineNearest_first_minimum_witness :
  ∃ (i : nat) (p : addr) (n : Tree.t sf.Vector2i),
    RRT.determineNearest grown5 (sf.mkVector2i 2 2) = Done (Some p) ∧
    RRT.m_nodes grown5 !! i = Some (Some p) ∧
    RRT.store grown5 !! p = Some n ∧
    ∀ (j : nat) (q : addr) (m : Tree.t sf.Vector2i),
      RRT.m_nodes grown5 !! j = Some (Some q) → RRT.store grown5 !! q = Some m →
      manhattan (Tree.m_data n) (sf.mkVector2i 2 2)
      <= manhattan (Tree.m_data m) (sf.mkVector2i 2 2) ∧
      ((j < i)%nat →
       manhattan (Tree.m_data n) (sf.mkVector2i 2 2)
       < manhattan (Tree.m_data m) (sf.mkVector2i 2 2)).
Proof.
  apply (determineNearest_first_minimum grown5 (openLevel 5 5) (sf.mkVector2i 2 2)).
  - exact wf_openLevel5.
  - unfold LevelData.inBounds; simpl; lia.
  - apply registeredInBoundsb_sound. vm_compute. reflexivity.
  - exists 1%nat, 0%nat. vm_compute. reflexivity.
Defined.

Example nearest_tie_goes_to_first_slot :
  RRT.determineNearest grown5 (sf.mkVector2i 2 2) = Done (Some 1%nat)
  ∧ manhattan (sf.mkVector2i 0 0) (sf.mkVector2i 2 2)
    = manhattan (sf.mkVector2i 4 4) (sf.mkVector2i 2 2).
Proof. split; vm_compute; reflexivity. Qed.

(** ** Branch construction *)

Lemma neq_true_iff (a b : sf.Vector2i) : sf.neq a b = true ↔ a ≠ b.
Proof.
  unfold sf.neq. destruct a as [ax ay], b as [bx b_y]. simpl.
  rewrite negb_true_iff, andb_false_iff, !Z.eqb_neq.
  split; [intros [H|H] Heq; injection Heq; intros; contradiction|].
  intros Hne. destruct (Z.eq_dec ax bx) as [->|]; [|auto].
  destruct (Z.eq_dec ay b_y) as [->|]; [contradiction|auto].
Qed.

Lemma neq_false_iff (a b : sf.Vector2i) : sf.neq a b = false ↔ a = b.
Proof.
  destruct (sf.neq a b) eqn:Hn.
  - apply neq_true_iff in Hn. split; [discriminate|contradiction].
  - split; [intros _|reflexivity]. destruct (decide (a = b)) as [|Hne]; [assumption|].
    apply neq_true_iff in Hne. congruence.
Qed.

Lemma last_cons_orElse (c : sf.Vector2i) (l : list sf.Vector2i) :
  last (c :: l) = orElse (last l) (Some c).
Proof.
  destruct l as [|x l]; [reflexivity|].
  change (last (c :: x :: l)) with (last (x :: l)).
  destruct (last (x :: l)) eqn:Hl; [reflexivity|].
  apply last_None in Hl. discriminate.
Qed.

Section walk.
Variables (this : RRT.t) (start : sf.Vector2i) (base : TileType).

Lemma terminalBySpec_nil : terminalBySpec this start base [] = Done None.
Proof. reflexivity. Qed.

Lemma terminalBySpec_skip (cs : list sf.Vector2i) :
  terminalBySpec this start base (start :: cs) = terminalBySpec this start base cs.
Proof.
  unfold terminalBySpec. rewrite filter_cons_False by (intros H; apply H; reflexivity).
  reflexivity.
Qed.

Lemma terminalBySpec_valid (c : sf.Vector2i) (cs : list sf.Vector2i) :
  c ≠ start → RRT.isValidTile this c base = Done true →
  terminalBySpec this start base (c :: cs)
  = (t ← terminalBySpec this start base cs; Done (orElse t (Some c))).
Proof.
  intros Hne Hvalid. unfold terminalBySpec. rewrite filter_cons_True by exact Hne.
  simpl list_find. destruct (decide (RRT.isValidTile this c base ≠ Done true)) as [Hbad|_];
    [contradiction|].
  destruct (list_find _ (filter (λ c0, c0 ≠ start) cs)) as [[i c']|]; simpl.
  - destruct (RRT.isValidTile this c' base); simpl; try reflexivity.
    rewrite last_cons_orElse. reflexivity.
  - rewrite last_cons_orElse. reflexivity.
Qed.

Lemma terminalBySpec_stop (c : sf.Vector2i) (cs : list sf.Vector2i) :
  c ≠ start → RRT.isValidTile this c base ≠ Done true →
  terminalBySpec this start base (c :: cs)
  = (_ ← RRT.isValidTile this c base; Done None).
Proof.
  intros Hne Hbad. unfold terminalBySpec. rewrite filter_cons_True by exact Hne.
  simpl list_find. destruct (decide (RRT.isValidTile this c base ≠ Done true));
    [reflexivity|contradiction].
Qed.

Lemma orElse_Some (t : option sf.Vector2i) (c : sf.Vector2i) (r : option sf.Vector2i) :
  orElse (orElse t (Some c)) r = orElse t (Some c).
Proof. destruct t; reflexivity. Qed.

Lemma cursors_step (fuel : nat) (magnitude current : spec_float) :
  RRT.sampling this magnitude current = true →
  cursors (S fuel) (RRT.m_sampleDistance this) (RRT.m_branchDistance this)
          magnitude current
  = RRT.advance this magnitude current
    :: cursors fuel (RRT.m_sampleDistance this) (RRT.m_branchDistance this)
               magnitude (RRT.advance this magnitude current).
Proof.
  unfold RRT.sampling. intros Hguard. cbn [cursors]. rewrite Hguard. reflexivity.
Qed.

Lemma cursors_stop (fuel : nat) (magnitude current : spec_float) :
  RRT.sampling this magnitude current = false →
  cursors (S fuel) (RRT.m_sampleDistance this) (RRT.m_branchDistance this)
          magnitude current = [].
Proof.
  unfold RRT.sampling. intros Hguard. cbn [cursors]. rewrite Hguard. reflexivity.
Qed.

(** The [lerp] of the code is the interpolation of the specification. *)
Lemma lerp_interpolate (end_ : sf.Vector2i) (delta : spec_float) :
  RRT.lerp start end_ delta = interpolate start end_ delta.
Proof. reflexivity. Qed.

(** The loop, started with the store and pointer standing for the terminal
    coordinate [r], hands back the store and pointer of the terminal
    coordinate the walk ends with, unless its fuel ends first. *)
Lemma sampleLoop_walk (end_ : sf.Vector2i) (magnitude : spec_float) :
  ∀ (fuel : nat) (current : spec_float) (h0 : gmap addr (Tree.t sf.Vector2i))
    (r : option sf.Vector2i),
  ∃ o : outcome (option sf.Vector2i),
    RRT.sampleLoop fuel this start end_ base magnitude
                   (handBack h0 r).1 (handBack h0 r).2 current
    = (r' ← o; Done (handBack h0 r'))
    ∧ (haltsWithin fuel this magnitude current = true →
       o = (t ← terminalBySpec this start base
                  ((λ c, interpolate start end_ (F32.div c magnitude))
                     <$> cursors fuel (RRT.m_sampleDistance this)
                                 (RRT.m_branchDistance this) magnitude current);
            Done (orElse t r)))
    ∧ (∀ r', o = Done r' →
       r' = r ∨ ∃ c delta, r' = Some c ∧ c = RRT.lerp start end_ delta
                           ∧ RRT.isValidTile this c base = Done true)
    ∧ (o = OutOfFuel
       ∨ o = (t ← terminalBySpec this start base
                    ((λ c, interpolate start end_ (F32.div c magnitude))
                       <$> cursors fuel (RRT.m_sampleDistance this)
                                   (RRT.m_branchDistance this) magnitude current);
              Done (orElse t r))).
Proof.
  induction fuel as [|fuel IH]; intros current h0 r.
  - exists OutOfFuel. split; [reflexivity|]. simpl.
    split; [discriminate|]. split; [discriminate|]. left. reflexivity.
  - cbn [RRT.sampleLoop haltsWithin].
    destruct (RRT.sampling this magnitude current) eqn:Hguard.
    2:{ exists (Done r). rewrite (cursors_stop fuel magnitude current Hguard).
        split; [destruct r; reflexivity|].
        split; [intros _; reflexivity|].
        split; [intros r' [= <-]; left; reflexivity|]. right. reflexivity. }
    rewrite (cursors_step fuel magnitude current Hguard).
    set (next := RRT.advance this magnitude current).
    rewrite fmap_cons. cbv beta.
    change (interpolate start end_ (F32.div next magnitude))
      with (RRT.lerp start end_ (F32.div next magnitude)).
    set (inc := RRT.lerp start end_ (F32.div next magnitude)).
    set (later := (λ c, interpolate start end_ (F32.div c magnitude))
                    <$> cursors fuel (RRT.m_sampleDistance this)
                                (RRT.m_branchDistance this) magnitude next).
    destruct (sf.neq inc start) eqn:Hmove.
    2:{ apply neq_false_iff in Hmove.
        destruct (IH next h0 r) as (o & Hrun & Hspec & Hres & Hwalk).
        fold later in Hspec, Hwalk.
        exists o. split; [exact Hrun|]. rewrite Hmove, terminalBySpec_skip.
        split; [exact Hspec|]. split; [exact Hres|exact Hwalk]. }
    apply neq_true_iff in Hmove.
    destruct (RRT.isValidTile this inc base) as [[|]| | |] eqn:Hvalid;
      cbn [mbind outcome_bind].
    + destruct (IH next h0 (Some inc)) as (o & Hrun & Hspec & Hres & Hwalk).
      fold later in Hspec, Hwalk.
      assert (Hsame : (t ← terminalBySpec this start base later;
                       Done (orElse t (Some inc)))
                      = (t ← terminalBySpec this start base (inc :: later);
                         Done (orElse t r))).
      { rewrite (terminalBySpec_valid inc _ Hmove Hvalid).
        destruct (terminalBySpec this start base later) as [t| | |]; simpl;
          try reflexivity.
        rewrite orElse_Some. reflexivity. }
      exists o. split; [|split; [|split]].
      * rewrite <- Hrun. destruct r as [v|]; simpl;
          unfold Tree.setData, Tree.deref; rewrite lookup_insert_eq; simpl;
          rewrite insert_insert_eq; reflexivity.
      * intros Hhalt. rewrite (Hspec Hhalt). exact Hsame.
      * intros r' Hr'. right. destruct (Hres r' Hr') as [->|Hlater]; [|exact Hlater].
        exists inc, (F32.div next magnitude). auto.
      * destruct Hwalk as [->| ->]; [left; reflexivity|right; exact Hsame].
    + exists (Done r).
      rewrite (terminalBySpec_stop inc _ Hmove) by (rewrite Hvalid; discriminate).
      rewrite Hvalid. split; [destruct r; reflexivity|].
      split; [intros _; reflexivity|].
      split; [intros r' [= <-]; left; reflexivity|right; reflexivity].
    + exists AssertFail.
      rewrite (terminalBySpec_stop inc _ Hmove) by (rewrite Hvalid; discriminate).
      rewrite Hvalid. split; [reflexivity|]. split; [intros _; reflexivity|].
      split; [discriminate|right; reflexivity].
    + exists Undefined.
      rewrite (terminalBySpec_stop inc _ Hmove) by (rewrite Hvalid; discriminate).
      rewrite Hvalid. split; [reflexivity|]. split; [intros _; reflexivity|].
      split; [discriminate|right; reflexivity].
    + exists OutOfFuel.
      rewrite (terminalBySpec_stop inc _ Hmove) by (rewrite Hvalid; discriminate).
      rewrite Hvalid. split; [reflexivity|]. split; [intros _; reflexivity|].
      split; [discriminate|left; reflexivity].
Qed.
End walk.

(** The length of a segment whose squared length fits an [int] is the root
    of the sum of the squares of its sides. *)
Lemma segmentLength_exact (start target : sf.Vector2i) :
  (sf.x target - sf.x start) * (sf.x target - sf.x start)
  + (sf.y target - sf.y start) * (sf.y target - sf.y start) <= INT_MAX →
  segmentLength start target
  = F32.sqrt (F32.of_int ((sf.x target - sf.x start) * (sf.x target - sf.x start)
                          + (sf.y target - sf.y start) * (sf.y target - sf.y start))).
Proof.
  unfold segmentLength, INT_MAX. intros Hfits.
  set (dx := sf.x target - sf.x start) in *. set (dy := sf.y target - sf.y start) in *.
  assert (Hx : -46341 < dx < 46341) by nia.
  assert (Hy : -46341 < dy < 46341) by nia.
  cbv zeta. rewrite (to_int_small dx), (to_int_small dy) by lia.
  rewrite (to_int_small (dx * dx)), (to_int_small (dy * dy)) by nia.
  rewrite to_int_small by nia. reflexivity.
Qed.

(** *** Termination of the sampling loop *)

Lemma ltb_irrefl (x : spec_float) : F32.ltb x x = false.
Proof.
  unfold F32.ltb, SFltb.
  destruct x as [s|s| |s m e]; simpl; try reflexivity; try (destruct s; reflexivity).
  destruct s; rewrite Z.compare_refl, Pos.compare_cont_refl; reflexivity.
Qed.

Lemma fmin_cases (a b : spec_float) : F32.fmin a b = a ∨ F32.fmin a b = b.
Proof.
  unfold F32.fmin. destruct (SFcompare a b) as [[| |]|]; auto.
  destruct a; auto.
Qed.

Lemma advance_cases (this : RRT.t) (magnitude current : spec_float) :
  RRT.advance this magnitude current = F32.add current (RRT.m_sampleDistance this)
  ∨ RRT.advance this magnitude current = magnitude
  ∨ RRT.advance this magnitude current = RRT.m_branchDistance this.
Proof.
  unfold RRT.advance.
  destruct (fmin_cases (F32.fmin (F32.add current (RRT.m_sampleDistance this)) magnitude)
              (RRT.m_branchDistance this)) as [Ha|Ha]; rewrite Ha; [|auto].
  destruct (fmin_cases (F32.add current (RRT.m_sampleDistance this)) magnitude)
    as [Hb|Hb]; rewrite Hb; auto.
Qed.

Lemma haltsWithin_unclamped (this : RRT.t) (magnitude : spec_float) (n : nat) :
  cursorReaches this n →
  ∀ (fuel k : nat), (k <= n)%nat → (n - k < fuel)%nat →
    haltsWithin fuel this magnitude (unclamped this k) = true.
Proof.
  intros Hreach. induction fuel as [|fuel IH]; intros k Hk Hfuel; [lia|].
  simpl. destruct (RRT.sampling this magnitude (unclamped this k)) eqn:Hguard;
    [|reflexivity].
  assert (Hlt : (k < n)%nat).
  { destruct (decide (k = n)) as [->|]; [|lia].
    unfold RRT.sampling in Hguard. apply andb_true_iff in Hguard as [_ Hbd].
    unfold cursorReaches in Hreach. congruence. }
  destruct (advance_cases this magnitude (unclamped this k)) as [Ha|[Ha|Ha]];
    rewrite Ha.
  - change (F32.add (unclamped this k) (RRT.m_sampleDistance this))
      with (unclamped this (S k)).
    apply IH; lia.
  - destruct fuel as [|fuel]; [lia|]. simpl.
    unfold RRT.sampling. rewrite ltb_irrefl. reflexivity.
  - destruct fuel as [|fuel]; [lia|]. simpl.
    unfold RRT.sampling. rewrite ltb_irrefl, andb_false_r. reflexivity.
Qed.

Lemma haltsWithin_start (this : RRT.t) (magnitude : spec_float) (n fuel : nat) :
  cursorReaches this n → (n < fuel)%nat →
  haltsWithin fuel this magnitude F32.zero = true.
Proof.
  intros Hreach Hfuel.
  apply (haltsWithin_unclamped this magnitude n Hreach fuel 0%nat); lia.
Qed.


Lemma calculateBranch_walk (this : RRT.t) (d : LevelData.t)
    (start end_ : sf.Vector2i) (base : TileType) (n fuel : nat) :
  RRT.m_data this = Some d →
  LevelData.getTile d (to_uint (sf.x start)) (to_uint (sf.y start)) = Done base →
  cursorReaches this n → (n < fuel)%nat →
  RRT.calculateBranch fuel this start end_
  = (r ← terminalBySpec this start base (candidates fuel this start end_);
     Done (handBack (RRT.store this) r)).
Proof.
  intros Hd Hget Hreach Hfuel.
  unfold RRT.calculateBranch, RRT.level. rewrite Hd. simpl. rewrite Hget. simpl.
  destruct (sampleLoop_walk this start base end_ (RRT.magnitudeOf start end_)
              fuel F32.zero (RRT.store this) None) as (o & Hrun & Hspec & _).
  simpl in Hrun. rewrite Hrun.
  rewrite (Hspec (haltsWithin_start this _ n fuel Hreach Hfuel)).
  unfold candidates.
  destruct (terminalBySpec this start base _) as [[c|]| | |]; reflexivity.
Qed.



Lemma cursorReaches_defaults (this : RRT.t) :
  RRT.m_sampleDistance this = quarter → RRT.m_branchDistance this = fifteen →
  cursorReaches this 60.
Proof.
  intros Hs Hb. unfold cursorReaches, unclamped. rewrite Hs, Hb.
  vm_compute. reflexivity.
Qed.


(** In the corridor the walk from the left end stops in front of the tree. *)
Example corridor_stops_at_tree :
  terminalBySpec sessionCorridor (sf.mkVector2i 0 0) Terrain
    (candidates 61 sessionCorridor (sf.mkVector2i 0 0) (sf.mkVector2i 4 0))
  = Done (Some (sf.mkVector2i 1 0))
  ∧ RRT.calculateBranch 61 sessionCorridor (sf.mkVector2i 0 0) (sf.mkVector2i 4 0)
    = Done (<[2%nat := Tree.mk (sf.mkVector2i 1 0) None []]> (RRT.store sessionCorridor),
            Some 2%nat).
Proof. split; vm_compute; reflexivity. Qed.

(** *** Accepted candidates lie inside the grid *)

Lemma F32_to_int_range (f : spec_float) : INT_MIN <= F32.to_int f <= INT_MAX.
Proof.
  unfold F32.to_int, INT_MIN, INT_MAX. destruct (F32.trunc f) as [z|]; [|lia].
  destruct ((-2147483648 <=? z) && (z <=? 2147483647)) eqn:Hr; [|lia].
  apply andb_true_iff in Hr as [H1 H2]. lia.
Qed.

Lemma to_uint_lt_inv (z bound : Z) :
  INT_MIN <= z <= INT_MAX → bound < INT_MAX → to_uint z < bound → 0 <= z < bound.
Proof.
  unfold to_uint, INT_MIN, INT_MAX. intros Hz Hb Hlt.
  destruct (Z.neg_nonneg_cases z) as [Hneg|Hpos].
  - assert (Hmod : z mod 4294967296 = z + 4294967296)
      by (symmetry; apply (Z.mod_unique_pos z 4294967296 (-1)); lia).
    lia.
  - rewrite Z.mod_small in Hlt by lia. lia.
Qed.

Lemma isValidTile_Done_inBounds (this : RRT.t) (d : LevelData.t) (c : sf.Vector2i)
    (base : TileType) (b : bool) :
  RRT.m_data this = Some d → LevelData.wf d →
  INT_MIN <= sf.x c <= INT_MAX → INT_MIN <= sf.y c <= INT_MAX →
  RRT.isValidTile this c base = Done b → LevelData.inBounds d c.
Proof.
  intros Hd [Hw Hh _ _] Hx Hy H. unfold RRT.isValidTile, RRT.level in H.
  rewrite Hd in H. simpl in H. bind_inv H as type Htype.
  unfold LevelData.getTile in Htype. bind_inv Htype as u Hassert.
  unfold cassert in Hassert.
  destruct ((to_uint (sf.x c) <? LevelData.m_width d)
            && (to_uint (sf.y c) <? LevelData.m_height d)) eqn:Hc; [|discriminate].
  apply andb_true_iff in Hc as [Hcx Hcy]. apply Z.ltb_lt in Hcx, Hcy.
  split; apply to_uint_lt_inv; assumption || lia.
Qed.

Lemma lerp_accepted_inBounds (this : RRT.t) (d : LevelData.t)
    (start end_ : sf.Vector2i) (delta : spec_float) (base : TileType) (b : bool) :
  RRT.m_data this = Some d → LevelData.wf d →
  RRT.isValidTile this (RRT.lerp start end_ delta) base = Done b →
  LevelData.inBounds d (RRT.lerp start end_ delta).
Proof.
  intros Hd Hwf H.
  apply (isValidTile_Done_inBounds this d _ base b Hd Hwf); [| |exact H];
    apply F32_to_int_range.
Qed.

(** ** One growth step *)

Lemma calculateBranch_Done (fuel : nat) (this : RRT.t) (start end_ : sf.Vector2i)
    (h1 : gmap addr (Tree.t sf.Vector2i)) (branch : option addr) :
  RRT.calculateBranch fuel this start end_ = Done (h1, branch) →
  ∃ r, (h1, branch) = handBack (RRT.store this) r
       ∧ ∀ c, r = Some c →
           ∃ d base delta, RRT.m_data this = Some d ∧ c = RRT.lerp start end_ delta
                           ∧ RRT.isValidTile this c base = Done true.
Proof.
  unfold RRT.calculateBranch. intros H.
  bind_inv H as d Hd. bind_inv H as base Hbase.
  destruct (sampleLoop_walk this start base end_ (RRT.magnitudeOf start end_)
              fuel F32.zero (RRT.store this) None) as (o & Hrun & _ & Hres & _).
  simpl in Hrun. rewrite Hrun in H. destruct o as [r| | |]; simpl in H; try discriminate.
  exists r. split; [congruence|]. intros c ->.
  destruct (Hres (Some c) eq_refl) as [|(c' & delta & [= <-] & Hc & Hvalid)];
    [discriminate|].
  exists d, base, delta. split; [|auto].
  unfold RRT.level in Hd. destruct (RRT.m_data this); congruence.
Qed.

Lemma nearestLoop_result (h : gmap addr (Tree.t sf.Vector2i)) (position : sf.Vector2i) :
  ∀ (nodes : list (option addr)) (closest : option addr) (nd : Z) result,
    RRT.nearestLoop h position nodes closest nd = Done result →
    result = closest ∨ ∃ i p, nodes !! i = Some (Some p) ∧ result = Some p.
Proof.
  induction nodes as [|slot nodes IH]; intros closest nd result H; simpl in H.
  - left. congruence.
  - destruct slot as [b|].
    + bind_inv H as data Hdata. destruct (_ <? nd).
      * destruct (IH _ _ _ H) as [->|(i & p & Hi & ->)].
        -- right. exists 0%nat, b. auto.
        -- right. exists (S i), p. auto.
      * destruct (IH _ _ _ H) as [->|(i & p & Hi & ->)]; [auto|].
        right. exists (S i), p. auto.
    + destruct (IH _ _ _ H) as [->|(i & p & Hi & ->)]; [auto|].
      right. exists (S i), p. auto.
Qed.

Lemma with_store_same (this : RRT.t) : RRT.with_store this (RRT.store this) = this.
Proof. destruct this; reflexivity. Qed.

Lemma fresh_unused (h : gmap addr (Tree.t sf.Vector2i)) : h !! fresh (dom h) = None.
Proof. apply not_elem_of_dom. apply is_fresh. Qed.

(** A call that returns has grafted one node, whose coordinate passed the
    validity test, or changed nothing. *)
Lemma generateBranch_Done_grid (fuel : nat) (this this' : RRT.t) (rx ry : Z) :
  RRT.generateBranch fuel this rx ry = Done this' →
  this' = this
  ∨ ∃ parent b c, grafted this this' parent b c
                  ∧ ∀ d, RRT.m_data this = Some d → LevelData.wf d →
                         LevelData.inBounds d c.
Proof.
  unfold RRT.generateBranch. intros H. bind_inv H as finished Hfinished.
  destruct (negb finished && sf.neq (RRT.m_start this) (RRT.m_end this));
    [|left; congruence].
  bind_inv H as d Hd. bind_inv H as u Hu. bind_inv H as slot Hslot.
  destruct slot as [|]; [left; congruence|].
  bind_inv H as nearest Hnearest. bind_inv H as nearData Hnearest0.
  bind_inv H as result Hresult. destruct result as [h1 branch].
  destruct (calculateBranch_Done _ _ _ _ _ _ Hresult) as (r & Hr & Hvalid).
  destruct r as [c|]; simpl in Hr; injection Hr as -> ->.
  2:{ left. rewrite with_store_same in H. congruence. }
  pose proof (fresh_unused (RRT.store this)) as Hfresh.
  set (b := fresh (dom (RRT.store this))) in *.
  unfold Tree.getData, Tree.deref in H. rewrite lookup_insert_eq in H. simpl in H.
  bind_inv H as occupiedSlot HoccupiedSlot. destruct occupiedSlot as [|].
  { left. rewrite delete_insert_eq, delete_id in H by exact Hfresh.
    rewrite with_store_same in H. congruence. }
  destruct nearest as [parent|]; [|discriminate]. simpl in H.
  unfold Tree.getData, Tree.deref in Hnearest0.
  destruct (RRT.store this !! parent) as [np|] eqn:Hnp; [|discriminate].
  assert (Hne : parent ≠ b) by (intros ->; congruence).
  unfold Tree.addBranch, Tree.deref in H.
  rewrite lookup_insert_ne in H by congruence. rewrite Hnp in H. simpl in H.
  unfold Tree.setParent, Tree.deref in H.
  rewrite lookup_insert_ne in H by congruence.
  rewrite lookup_insert_eq in H. simpl in H.
  right. exists parent, b, c. split.
  2:{ intros d' Hd' Hwf.
      destruct (Hvalid c eq_refl) as (d0 & base & delta & _ & -> & Hok).
      exact (lerp_accepted_inBounds this d' _ _ delta base true Hd' Hwf Hok). }
  exists d, np.
  split; [unfold RRT.level in Hd; destruct (RRT.m_data this); congruence|].
  split.
  { unfold RRT.determineNearest in Hnearest.
    destruct (nearestLoop_result _ _ _ _ _ _ Hnearest) as [Hroot|(i & p & Hi & Hp)].
    - left. congruence.
    - right. exists i. congruence. }
  split; [exact Hnp|]. split; [exact Hfresh|].
  split; [exact (nodeAt_Done _ _ _ HoccupiedSlot)|].
  injection H as <-. unfold LevelData.flatIndex, LevelData.getWidth.
  f_equal. f_equal.
  rewrite (insert_insert_ne (RRT.store this) parent b) by congruence.
  rewrite insert_insert_eq. reflexivity.
Qed.

Lemma generateBranch_Done (fuel : nat) (this this' : RRT.t) (rx ry : Z) :
  RRT.generateBranch fuel this rx ry = Done this' →
  this' = this ∨ ∃ parent b c, grafted this this' parent b c.
Proof.
  intros H. destruct (generateBranch_Done_grid fuel this this' rx ry H)
    as [->|(parent & b & c & Hgraft & _)]; [left; reflexivity|].
  right. exists parent, b, c. exact Hgraft.
Qed.

(** *** No call runs out of fuel once the cursor is known to halt *)

Lemma bind_fuelled {A B} (m : outcome A) (f : A → outcome B) :
  m ≠ OutOfFuel → (∀ a, m = Done a → f a ≠ OutOfFuel) → m ≫= f ≠ OutOfFuel.
Proof. destruct m; simpl; intros Hm Hf; try discriminate; [eauto|contradiction]. Qed.

Lemma cassert_fuelled (b : bool) : cassert b ≠ OutOfFuel.
Proof. destruct b; discriminate. Qed.

Lemma nodeAt_fuelled (nodes : list (option addr)) (i : Z) :
  RRT.nodeAt nodes i ≠ OutOfFuel.
Proof. unfold RRT.nodeAt. destruct (nodes !! Z.to_nat i); discriminate. Qed.

Lemma level_fuelled (this : RRT.t) : RRT.level this ≠ OutOfFuel.
Proof. unfold RRT.level. destruct (RRT.m_data this); discriminate. Qed.

Lemma deref_fuelled {T} (h : gmap addr (Tree.t T)) (p : option addr) :
  Tree.deref h p ≠ OutOfFuel.
Proof. unfold Tree.deref. destruct p as [a|]; [destruct (h !! a)|]; discriminate. Qed.

Lemma getData_fuelled {T} (h : gmap addr (Tree.t T)) (p : option addr) :
  Tree.getData h p ≠ OutOfFuel.
Proof.
  unfold Tree.getData. apply bind_fuelled; [apply deref_fuelled|discriminate].
Qed.

Lemma addBranch_fuelled {T} (h : gmap addr (Tree.t T)) (this : addr) (b : option addr) :
  Tree.addBranch h this b ≠ OutOfFuel.
Proof.
  unfold Tree.addBranch, Tree.setParent.
  apply bind_fuelled; [apply deref_fuelled|]. intros n _.
  apply bind_fuelled; [apply deref_fuelled|]. intros c _. destruct b; discriminate.
Qed.

Lemma hasFinished_fuelled (this : RRT.t) : RRT.hasFinished this ≠ OutOfFuel.
Proof.
  unfold RRT.hasFinished.
  apply bind_fuelled; [apply level_fuelled|]. intros d _.
  apply bind_fuelled; [apply nodeAt_fuelled|]. intros [s|] _; [|discriminate].
  apply bind_fuelled; [apply nodeAt_fuelled|]. discriminate.
Qed.

Lemma nearestLoop_fuelled (h : gmap addr (Tree.t sf.Vector2i)) (position : sf.Vector2i) :
  ∀ (nodes : list (option addr)) (closest : option addr) (nd : Z),
    RRT.nearestLoop h position nodes closest nd ≠ OutOfFuel.
Proof.
  induction nodes as [|[b|] nodes IH]; intros closest nd; simpl;
    [discriminate| |apply IH].
  apply bind_fuelled; [apply getData_fuelled|]. intros data _.
  destruct (_ <? nd); apply IH.
Qed.

Lemma isValidTile_fuelled (this : RRT.t) (position : sf.Vector2i) (base : TileType) :
  RRT.isValidTile this position base ≠ OutOfFuel.
Proof.
  unfold RRT.isValidTile, LevelData.getTile, LevelData.tileAt.
  apply bind_fuelled; [apply level_fuelled|]. intros d _.
  apply bind_fuelled; [|discriminate].
  apply bind_fuelled; [apply cassert_fuelled|]. intros _ _.
  destruct (_ !! _); discriminate.
Qed.

Lemma terminalBySpec_fuelled (this : RRT.t) (start : sf.Vector2i) (base : TileType)
    (cs : list sf.Vector2i) :
  terminalBySpec this start base cs ≠ OutOfFuel.
Proof.
  unfold terminalBySpec. destruct (list_find _ _) as [[i c]|]; [|discriminate].
  apply bind_fuelled; [apply isValidTile_fuelled|discriminate].
Qed.

Lemma calculateBranch_fuelled (this : RRT.t) (start end_ : sf.Vector2i) (n fuel : nat) :
  cursorReaches this n → (n < fuel)%nat →
  RRT.calculateBranch fuel this start end_ ≠ OutOfFuel.
Proof.
  intros Hreach Hfuel. unfold RRT.calculateBranch.
  apply bind_fuelled; [apply level_fuelled|]. intros d _.
  apply bind_fuelled.
  { unfold LevelData.getTile, LevelData.tileAt.
    apply bind_fuelled; [apply cassert_fuelled|]. intros _ _.
    destruct (_ !! _); discriminate. }
  intros base _.
  destruct (sampleLoop_walk this start base end_ (RRT.magnitudeOf start end_)
              fuel F32.zero (RRT.store this) None) as (o & Hrun & Hspec & _).
  simpl in Hrun. rewrite Hrun.
  rewrite (Hspec (haltsWithin_start this _ n fuel Hreach Hfuel)).
  apply bind_fuelled; [|discriminate].
  apply bind_fuelled; [apply terminalBySpec_fuelled|discriminate].
Qed.

Lemma generateBranch_fuelled (this : RRT.t) (n fuel : nat) (rx ry : Z) :
  cursorReaches this n → (n < fuel)%nat →
  RRT.generateBranch fuel this rx ry ≠ OutOfFuel.
Proof.
  intros Hreach Hfuel. unfold RRT.generateBranch.
  apply bind_fuelled; [apply hasFinished_fuelled|]. intros finished _.
  destruct (negb finished && _); [|discriminate].
  apply bind_fuelled; [apply level_fuelled|]. intros d _.
  apply bind_fuelled; [destruct (_ || _); discriminate|]. intros _ _.
  apply bind_fuelled; [apply nodeAt_fuelled|]. intros [slot|] _; [discriminate|].
  apply bind_fuelled; [apply nearestLoop_fuelled|]. intros nearest _.
  apply bind_fuelled; [apply getData_fuelled|]. intros nearData _.
  apply bind_fuelled; [exact (calculateBranch_fuelled _ _ _ n fuel Hreach Hfuel)|].
  intros [h1 [b|]] _; [|discriminate].
  apply bind_fuelled; [apply getData_fuelled|]. intros newData _.
  apply bind_fuelled; [apply nodeAt_fuelled|]. intros [occ|] _; [discriminate|].
  apply bind_fuelled; [destruct nearest; discriminate|]. intros parent _.
  apply bind_fuelled; [apply addBranch_fuelled|discriminate].
Qed.

Lemma generateBranch_finished (fuel : nat) (this : RRT.t) (rx ry : Z) :
  RRT.hasFinished this = Done true → RRT.generateBranch fuel this rx ry = Done this.
Proof. intros H. unfold RRT.generateBranch. rewrite H. reflexivity. Qed.

Lemma generateBranch_same_ends (fuel : nat) (this : RRT.t) (rx ry : Z) (b : bool) :
  RRT.m_start this = RRT.m_end this → RRT.hasFinished this = Done b →
  RRT.generateBranch fuel this rx ry = Done this.
Proof.
  intros Heq H. unfold RRT.generateBranch. rewrite H. simpl.
  replace (sf.neq (RRT.m_start this) (RRT.m_end this)) with false
    by (symmetry; apply neq_false_iff; exact Heq).
  rewrite andb_false_r. reflexivity.
Qed.

Lemma generateBranches_finished (this : RRT.t) (calls : list (nat * Z * Z)) :
  RRT.hasFinished this = Done true → RRT.generateBranches this calls = Done this.
Proof.
  intros H. induction calls as [|[[fuel rx] ry] calls IH]; [reflexivity|].
  simpl. rewrite (generateBranch_finished fuel this rx ry H). simpl. exact IH.
Qed.

(** ** The occupancy index and the tree *)

Lemma inTree_registered (this : RRT.t) (root : addr) :
  registered this root →
  (∀ p n q, registered this p → RRT.store this !! p = Some n →
     Some q ∈ Tree.m_branches n → registered this q) →
  ∀ p, Tree.inTree (RRT.store this) root p → registered this p.
Proof.
  intros Hroot Hkids p Hp. induction Hp as [|p n q _ IH Hn Hq]; [exact Hroot|].
  exact (Hkids p n q IH Hn Hq).
Qed.

Lemma invariant_consistent (this : RRT.t) :
  sessionInvariant this → consistent this ∧ distinctCoordinates this.
Proof.
  intros (d & root & Hd & Hroot & Hreg & Hfile & Hkids & Htree).
  pose proof (inTree_registered this root Hreg Hkids) as Hback.
  split.
  - exists d. split; [exact Hd|]. intros i. split.
    + intros [p Hp]. destruct (Hfile i p Hp) as (n & Hn & Hflat).
      exists p, (Tree.m_data n). split; [|exact Hflat].
      exists root, n. repeat split; try assumption. apply Htree. exists i. exact Hp.
    + intros (p & c & (root' & n & Hroot' & Hin & Hn & Hc) & Hflat).
      assert (root' = root) as -> by congruence.
      destruct (Hback p Hin) as [j Hj].
      destruct (Hfile j p Hj) as (n' & Hn' & Hflat').
      assert (n' = n) as -> by congruence.
      exists p. rewrite <- Hflat, <- Hc, Hflat'. exact Hj.
  - intros p q c (rp & np & Hrp & Hinp & Hnp & Hcp) (rq & nq & Hrq & Hinq & Hnq & Hcq).
    assert (rp = root) as -> by congruence. assert (rq = root) as -> by congruence.
    destruct (Hback p Hinp) as [j Hj]. destruct (Hback q Hinq) as [k Hk].
    destruct (Hfile j p Hj) as (np' & Hnp' & Hflatp).
    destruct (Hfile k q Hk) as (nq' & Hnq' & Hflatq).
    assert (np' = np) as -> by congruence. assert (nq' = nq) as -> by congruence.
    assert (j = k) as -> by (rewrite <- Hflatp, <- Hflatq, Hcp, Hcq; reflexivity).
    congruence.
Qed.

Lemma lookup_single_slot (n i j : nat) (r p : addr) :
  (<[i := Some r]> (replicate n (@None addr))) !! j = Some (Some p) →
  j = i ∧ p = r ∧ (i < n)%nat.
Proof.
  intros H. destruct (decide (j = i)) as [->|Hne].
  - pose proof (lookup_lt_Some _ _ _ H) as Hlt.
    rewrite length_insert, length_replicate in Hlt.
    rewrite list_lookup_insert_eq in H by (rewrite length_replicate; exact Hlt).
    split; [reflexivity|]. split; [congruence|exact Hlt].
  - rewrite list_lookup_insert_ne in H by congruence.
    apply lookup_replicate in H as [H _]. discriminate.
Qed.

(** What a returning [prepareTree] built. *)
Lemma prepareTree_Done (r : RRT.t) (d : LevelData.t) (start end_ : sf.Vector2i)
    (this : RRT.t) :
  RRT.prepareTree r d start end_ = Done this →
  ∃ root h,
    this = RRT.mk (Some d) start end_ (RRT.m_sampleDistance r) (RRT.m_branchDistance r)
             (<[Z.to_nat (LevelData.flatIndex d start) := Some root]>
                (replicate (Z.to_nat (LevelData.getTileCount d)) None))
             (Some root) h
    ∧ h !! root = Some (Tree.mk start None [])
    ∧ (Z.to_nat (LevelData.flatIndex d start) < Z.to_nat (LevelData.getTileCount d))%nat.
Proof.
  intros Hrun. pose proof Hrun as H. unfold RRT.prepareTree in H.
  bind_inv H as u Hcond.
  destruct (RRT.prepareCondition d start end_) eqn:Hc; [|discriminate].
  bind_inv H as old Hold.
  destruct (RRT.m_tree r) as [old'|] eqn:Htree; [|discriminate].
  injection Hold as ->.
  bind_inv H as h1 Hclear. unfold Tree.clear, Tree.deref in Hclear.
  destruct (RRT.store r !! old) as [nold|] eqn:Hnold; [|discriminate].
  simpl in H. bind_inv H as h4 Hset. bind_inv H as slot Hslot.
  apply nodeAt_Done, lookup_lt_Some in Hslot. rewrite length_replicate in Hslot.
  rewrite (prepareTree_live r d start end_ old nold Htree Hnold Hc Hslot) in Hrun.
  injection Hrun as <-. eexists. eexists. split; [reflexivity|].
  split; [apply lookup_insert_eq|exact Hslot].
Qed.

Lemma prepareTree_invariant (r : RRT.t) (d : LevelData.t) (start end_ : sf.Vector2i)
    (this : RRT.t) :
  RRT.prepareTree r d start end_ = Done this → sessionInvariant this.
Proof.
  intros Hrun.
  destruct (prepareTree_Done r d start end_ this Hrun) as (root & h & -> & Hroot & Hslot).
  exists d, root. simpl.
  assert (Hlive : (<[Z.to_nat (LevelData.flatIndex d start) := Some root]>
                     (replicate (Z.to_nat (LevelData.getTileCount d)) None))
                  !! Z.to_nat (LevelData.flatIndex d start) = Some (Some root))
    by (apply list_lookup_insert_eq; rewrite length_replicate; exact Hslot).
  split; [reflexivity|]. split; [reflexivity|].
  split; [exists (Z.to_nat (LevelData.flatIndex d start)); exact Hlive|].
  split; [|split].
  - intros i p Hi. apply lookup_single_slot in Hi as (-> & -> & _).
    eexists. split; [exact Hroot|]. reflexivity.
  - intros p n q [i Hi] Hn Hq. simpl in Hi.
    apply lookup_single_slot in Hi as (-> & -> & _).
    rewrite Hroot in Hn. injection Hn as <-. simpl in Hq.
    apply elem_of_nil in Hq. contradiction.
  - intros p [i Hi]. simpl in Hi. apply lookup_single_slot in Hi as (-> & -> & _).
    apply Tree.inTree_root.
Qed.

Lemma prepareTree_wellFormed (r : RRT.t) (d : LevelData.t) (start end_ : sf.Vector2i)
    (this : RRT.t) :
  LevelData.wf d → LevelData.inBounds d start → LevelData.inBounds d end_ →
  RRT.prepareTree r d start end_ = Done this → wellFormedSession this d.
Proof.
  intros Hwf Hs He Hrun.
  destruct (prepareTree_Done r d start end_ this Hrun) as (root & h & -> & Hroot & Hslot).
  unfold wellFormedSession. simpl.
  split; [reflexivity|]. split; [exact Hwf|]. split; [exact Hs|]. split; [exact He|].
  split; [rewrite length_insert, length_replicate, getTileCount_wf by exact Hwf;
          reflexivity|].
  split.
  - intros i p Hi. simpl in Hi. apply lookup_single_slot in Hi as (-> & -> & _).
    exists (Tree.mk start None []). simpl. auto.
  - exists root. split; [reflexivity|].
    exists (Z.to_nat (LevelData.flatIndex d start)). simpl.
    apply list_lookup_insert_eq. rewrite length_replicate. exact Hslot.
Qed.

Section graft.
Variables (this this' : RRT.t) (parent b : addr) (c : sf.Vector2i).
Hypothesis Hgraft : grafted this this' parent b c.

Lemma grafted_registered (p : addr) : registered this p → registered this' p.
Proof.
  destruct Hgraft as (d & np & Hd & Hpar & Hnp & Hb & Hempty & ->).
  intros [i Hi]. exists i. simpl.
  rewrite list_lookup_insert_ne; [exact Hi|]. intros <-. congruence.
Qed.

Lemma grafted_registered_inv (p : addr) :
  registered this' p → p = b ∨ registered this p.
Proof.
  destruct Hgraft as (d & np & Hd & Hpar & Hnp & Hb & Hempty & ->).
  intros [i Hi]. simpl in Hi.
  destruct (decide (i = Z.to_nat (LevelData.flatIndex d c))) as [->|Hne].
  - rewrite list_lookup_insert_eq in Hi by (eapply lookup_lt_Some; exact Hempty).
    left. congruence.
  - rewrite list_lookup_insert_ne in Hi by congruence. right. exists i. exact Hi.
Qed.

Lemma grafted_lookup_old (p : addr) (n : Tree.t sf.Vector2i) :
  RRT.store this !! p = Some n →
  ∃ n', RRT.store this' !! p = Some n' ∧ Tree.m_data n' = Tree.m_data n
        ∧ ∀ q, Some q ∈ Tree.m_branches n → Some q ∈ Tree.m_branches n'.
Proof.
  destruct Hgraft as (d & np & Hd & Hpar & Hnp & Hb & Hempty & ->).
  intros Hn. simpl. assert (p ≠ b) by congruence.
  rewrite lookup_insert_ne by congruence.
  destruct (decide (p = parent)) as [->|Hne].
  - rewrite lookup_insert_eq. eexists. split; [reflexivity|].
    assert (n = np) as -> by congruence. simpl. split; [reflexivity|].
    intros q Hq. apply elem_of_app. left. exact Hq.
  - rewrite lookup_insert_ne by congruence. exists n. auto.
Qed.

Lemma grafted_inTree (root p : addr) :
  Tree.inTree (RRT.store this) root p → Tree.inTree (RRT.store this') root p.
Proof.
  intros Hp. induction Hp as [|p n q _ IH Hn Hq]; [apply Tree.inTree_root|].
  destruct (grafted_lookup_old p n Hn) as (n' & Hn' & _ & Hsub).
  exact (Tree.inTree_branch _ _ p n' q IH Hn' (Hsub q Hq)).
Qed.

Lemma grafted_invariant : sessionInvariant this → sessionInvariant this'.
Proof.
  intros (d & root & Hd & Hroot & Hreg & Hfile & Hkids & Htree).
  pose proof grafted_registered as Hkeep.
  pose proof grafted_registered_inv as Hinv.
  pose proof grafted_lookup_old as Hold.
  pose proof grafted_inTree as Hmono.
  destruct Hgraft as (d' & np & Hd' & Hpar & Hnp & Hb & Hempty & Heq).
  assert (d' = d) as -> by congruence.
  assert (Hparent : registered this parent).
  { destruct Hpar as [Hp|Hp]; [|exact Hp]. congruence. }
  assert (Hne : parent ≠ b) by congruence.
  assert (Hslot : RRT.m_nodes this' !! Z.to_nat (LevelData.flatIndex d c) = Some (Some b)).
  { rewrite Heq. simpl. apply list_lookup_insert_eq.
    eapply lookup_lt_Some. exact Hempty. }
  assert (Hnew : RRT.store this' !! b = Some (Tree.mk c (Some parent) [])).
  { rewrite Heq. simpl. apply lookup_insert_eq. }
  assert (Hnp' : RRT.store this' !! parent
                 = Some (Tree.mk (Tree.m_data np) (Tree.m_parent np)
                                 (Tree.m_branches np ++ [Some b]))).
  { rewrite Heq. simpl. rewrite lookup_insert_ne by congruence.
    apply lookup_insert_eq. }
  exists d, root.
  split; [rewrite Heq; exact Hd|]. split; [rewrite Heq; exact Hroot|].
  split; [exact (Hkeep root Hreg)|]. split; [|split].
  - intros i p Hi.
    destruct (decide (i = Z.to_nat (LevelData.flatIndex d c))) as [->|Hi'].
    + assert (p = b) as -> by congruence. eexists. split; [exact Hnew|reflexivity].
    + assert (Hi0 : RRT.m_nodes this !! i = Some (Some p)).
      { rewrite Heq in Hi. simpl in Hi.
        rewrite list_lookup_insert_ne in Hi by congruence. exact Hi. }
      destruct (Hfile i p Hi0) as (n & Hn & Hflat).
      destruct (Hold p n Hn) as (n' & Hn' & Hdata & _).
      exists n'. split; [exact Hn'|]. rewrite Hdata. exact Hflat.
  - intros p n q Hp Hn Hq. destruct (Hinv p Hp) as [->|Hp0].
    + rewrite Hnew in Hn. injection Hn as <-. simpl in Hq.
      apply elem_of_nil in Hq. contradiction.
    + destruct Hp0 as [i Hi]. destruct (Hfile i p Hi) as (n0 & Hn0 & _).
      destruct (decide (p = parent)) as [->|Hpp].
      * rewrite Hnp' in Hn. injection Hn as <-. simpl in Hq.
        apply elem_of_app in Hq as [Hq|Hq].
        -- apply Hkeep. exact (Hkids parent np q Hparent Hnp Hq).
        -- apply list_elem_of_singleton in Hq. injection Hq as ->.
           eexists. exact Hslot.
      * assert (Hsame : RRT.store this' !! p = RRT.store this !! p).
        { rewrite Heq. simpl. rewrite !lookup_insert_ne by congruence. reflexivity. }
        rewrite Hsame in Hn. apply Hkeep.
        exact (Hkids p n q (ex_intro _ i Hi) Hn Hq).
  - intros p Hp. destruct (Hinv p Hp) as [->|Hp0].
    + apply (Tree.inTree_branch _ _ parent _ b (Hmono root parent (Htree parent Hparent)) Hnp').
      simpl. apply elem_of_app. right. apply list_elem_of_singleton. reflexivity.
    + exact (Hmono root p (Htree p Hp0)).
Qed.
Lemma grafted_wellFormed (d : LevelData.t) :
  LevelData.inBounds d c → wellFormedSession this d → wellFormedSession this' d.
Proof.
  intros Hc (Hd & Hwf & Hs & He & Hlen & Hreg & root & Htree & Hroot).
  pose proof grafted_registered as Hkeep.
  pose proof grafted_lookup_old as Hold.
  destruct Hgraft as (d' & np & Hd' & Hpar & Hnp & Hb & Hempty & Heq).
  assert (d' = d) as -> by congruence.
  unfold wellFormedSession. rewrite Heq. simpl.
  split; [exact Hd|]. split; [exact Hwf|]. split; [exact Hs|]. split; [exact He|].
  split; [rewrite length_insert; exact Hlen|]. split.
  - intros i p Hi. simpl in Hi.
    destruct (decide (i = Z.to_nat (LevelData.flatIndex d c))) as [->|Hi'].
    + rewrite list_lookup_insert_eq in Hi by (eapply lookup_lt_Some; exact Hempty).
      injection Hi as <-. simpl. rewrite lookup_insert_eq.
      eexists. split; [reflexivity|exact Hc].
    + rewrite list_lookup_insert_ne in Hi by congruence.
      destruct (Hreg i p Hi) as (n & Hn & Hin).
      destruct (Hold p n Hn) as (n' & Hn' & Hdata & _).
      rewrite Heq in Hn'. simpl in Hn'. exists n'. split; [exact Hn'|].
      rewrite Hdata. exact Hin.
  - exists root. split; [exact Htree|].
    pose proof (Hkeep root Hroot) as Hr. rewrite Heq in Hr. exact Hr.
Qed.
End graft.

Lemma reachable_invariant (this : RRT.t) : reachable this → sessionInvariant this.
Proof.
  induction 1 as [r d start end_ this Hprep|this fuel rx ry this' _ IH Hgen].
  - exact (prepareTree_invariant r d start end_ this Hprep).
  - destruct (generateBranch_Done fuel this this' rx ry Hgen)
      as [->|(parent & b & c & Hgraft)]; [exact IH|].
    exact (grafted_invariant this this' parent b c Hgraft IH).
Qed.

(** C3: in every state reached by [prepareTree] followed by calls of
    [generateBranch], a slot of the occupancy index is occupied exactly when
    a node of the tree holds a coordinate with that flat index, and no two
    nodes of the tree hold the same coordinate; a further call of
    [generateBranch] keeps both. *)
Theorem occupancy_matches_tree :
  (∀ this, reachable this → consistent this ∧ distinctCoordinates this)
  ∧ (∀ this fuel rx ry this',
       reachable this → RRT.generateBranch fuel this rx ry = Done this' →
       consistent this' ∧ distinctCoordinates this').
Proof.
  split.
  - intros this Hreach. apply invariant_consistent, reachable_invariant, Hreach.
  - intros this fuel rx ry this' Hreach Hgen.
    apply invariant_consistent, reachable_invariant.
    exact (reachable_generate this fuel rx ry this' Hreach Hgen).
Qed.

Lemma reachable_session5 : reachable session5.
Proof.
  exact (reachable_prepare engine (openLevel 5 5) (sf.mkVector2i 0 0)
           (sf.mkVector2i 4 4) session5 prepare_session5).
Qed.

Lemma occupancy_matches_tree_witness :
  (consistent session5 ∧ distinctCoordinates session5)
  ∧ (consistent grown5 ∧ distinctCoordinates grown5).
Proof.
  split.
  - apply (proj1 occupancy_matches_tree session5). exact reachable_session5.
  - apply (proj2 occupancy_matches_tree session5 61%nat 4 4 grown5).
    + exact reachable_session5.
    + vm_compute. reflexivity.
Defined.

(** ** Sessions within the precondition of [prepareTree] *)

Lemma session_reachable (this : RRT.t) : session this → reachable this.
Proof.
  induction 1 as [r d start end_ this _ _ _ Hprep|this fuel rx ry this' _ IH Hgen].
  - exact (reachable_prepare r d start end_ this Hprep).
  - exact (reachable_generate this fuel rx ry this' IH Hgen).
Qed.

Lemma session_wellFormed (this : RRT.t) :
  session this → ∃ d, wellFormedSession this d.
Proof.
  induction 1 as [r d start end_ this Hwf Hs He Hprep|this fuel rx ry this' _ IH Hgen].
  - exists d. exact (prepareTree_wellFormed r d start end_ this Hwf Hs He Hprep).
  - destruct IH as [d Hform]. exists d.
    destruct (generateBranch_Done_grid fuel this this' rx ry Hgen)
      as [->|(parent & b & c & Hgraft & Hgrid)]; [exact Hform|].
    pose proof Hform as (Hd & Hwf & _).
    exact (grafted_wellFormed this this' parent b c Hgraft d (Hgrid d Hd Hwf) Hform).
Qed.

Lemma sample_inBounds (d : LevelData.t) (rx ry : Z) :
  LevelData.wf d →
  LevelData.inBounds d (RRT.sample (LevelData.m_width d) (LevelData.m_height d) rx ry).
Proof.
  intros [Hw Hh _ _]. unfold RRT.sample, LevelData.inBounds, INT_MAX in *. simpl.
  pose proof (Z.mod_pos_bound (to_uint rx) (LevelData.m_width d)).
  pose proof (Z.mod_pos_bound (to_uint ry) (LevelData.m_height d)).
  rewrite !to_int_small by lia. lia.
Qed.

Lemma slot_in_range (this : RRT.t) (d : LevelData.t) (c : sf.Vector2i) :
  wellFormedSession this d → LevelData.inBounds d c →
  (Z.to_nat (LevelData.flatIndex d c) < length (RRT.m_nodes this))%nat.
Proof.
  intros (_ & Hwf & _ & _ & Hlen & _) Hc.
  rewrite Hlen, flatIndex_inBounds by assumption.
  pose proof (flat_in_range d c Hwf Hc). lia.
Qed.

Lemma isValidTile_inBounds_Done (this : RRT.t) (d : LevelData.t) (c : sf.Vector2i)
    (base : TileType) :
  RRT.m_data this = Some d → LevelData.wf d → LevelData.inBounds d c →
  ∃ b, RRT.isValidTile this c base = Done b.
Proof.
  intros Hd Hwf Hc. destruct (getTile_inBounds d c Hwf Hc) as (type & _ & Hget).
  unfold RRT.isValidTile, RRT.level. rewrite Hd. simpl. rewrite Hget. simpl. eauto.
Qed.

(** Over candidates inside the grid the walk ends with a candidate or with
    none; it never fails. *)
Lemma terminalBySpec_inGrid (this : RRT.t) (d : LevelData.t) (start : sf.Vector2i)
    (base : TileType) (cs : list sf.Vector2i) :
  RRT.m_data this = Some d → LevelData.wf d → Forall (LevelData.inBounds d) cs →
  ∃ t, terminalBySpec this start base cs = Done t ∧ ∀ c, t = Some c → c ∈ cs.
Proof.
  intros Hd Hwf Hall. unfold terminalBySpec.
  set (moving := filter (λ c, c ≠ start) cs).
  assert (Hsub : ∀ c, c ∈ moving → c ∈ cs)
    by (intros c Hc; apply list_elem_of_filter in Hc as [_ Hc]; exact Hc).
  destruct (list_find _ moving) as [[i c]|] eqn:Hfind.
  - apply list_find_Some in Hfind as (Hi & _ & _).
    apply list_elem_of_lookup_2 in Hi. rewrite Forall_forall in Hall.
    destruct (isValidTile_inBounds_Done this d c base Hd Hwf (Hall c (Hsub c Hi)))
      as [b ->].
    simpl. eexists. split; [reflexivity|]. intros c' Hc'.
    apply last_Some_elem_of in Hc'. apply Hsub. exact (subseteq_take i moving c' Hc').
  - eexists. split; [reflexivity|]. intros c' Hc'.
    apply last_Some_elem_of in Hc'. exact (Hsub c' Hc').
Qed.

Lemma getData_live {T} (h : gmap addr (Tree.t T)) (p : addr) (n : Tree.t T) :
  h !! p = Some n → Tree.getData h (Some p) = Done (Tree.m_data n).
Proof. intros H. unfold Tree.getData, Tree.deref. rewrite H. reflexivity. Qed.

(** In a session state, a call whose sampling cursor halts and whose
    candidates stay inside the grid returns. *)
Lemma generateBranch_returns (this : RRT.t) (d : LevelData.t) (n fuel : nat)
    (rx ry : Z) :
  wellFormedSession this d → cursorReaches this n → (n < fuel)%nat →
  candidatesInGrid this d fuel rx ry →
  ∃ this', RRT.generateBranch fuel this rx ry = Done this'.
Proof.
  intros Hform Hreach Hfuel Hgrid.
  pose proof Hform as (Hd & Hwf & Hs & He & Hlen & Hreg & root & Htree & Hroot).
  destruct (hasFinished_value this d Hd (slot_in_range this d _ Hform Hs)
              (slot_in_range this d _ Hform He)) as (finished & Hfin & _).
  unfold RRT.generateBranch. rewrite Hfin. simpl.
  destruct (negb finished && sf.neq (RRT.m_start this) (RRT.m_end this));
    [|eexists; reflexivity].
  unfold RRT.level, LevelData.getWidth, LevelData.getHeight. rewrite Hd. simpl.
  pose proof Hwf as [Hw Hh _ _].
  replace ((LevelData.m_width d =? 0) || (LevelData.m_height d =? 0)) with false
    by (symmetry; apply orb_false_iff; split; apply Z.eqb_neq; lia).
  simpl. unfold candidatesInGrid in Hgrid.
  set (random := RRT.sample (LevelData.m_width d) (LevelData.m_height d) rx ry) in *.
  pose proof (sample_inBounds d rx ry Hwf) as Hrandom. fold random in Hrandom.
  destruct (nodeAt_lt (RRT.m_nodes this) (LevelData.flatIndex d random)
              (slot_in_range this d random Hform Hrandom)) as (slot & _ & Hslot).
  unfold LevelData.flatIndex in Hslot.
  change (sf.x random) with (to_int (to_uint rx mod LevelData.m_width d)) in Hslot.
  change (sf.y random) with (to_int (to_uint ry mod LevelData.m_height d)) in Hslot.
  rewrite Hslot. simpl.
  destruct slot as [|]; [eexists; reflexivity|].
  destruct (determineNearest_scan this d random Hwf Hrandom Hreg (ex_intro _ root Hroot))
    as (i & p & np & Hnearest & Hi & Hp & _).
  rewrite Hnearest. simpl.
  destruct (Hreg i p Hi) as (np' & Hp' & Hin).
  assert (np' = np) as -> by congruence.
  rewrite (getData_live _ p np Hp). simpl.
  specialize (Hgrid (Some p) (Tree.m_data np) Hnearest (getData_live _ p np Hp)).
  destruct (getTile_inBounds d (Tree.m_data np) Hwf Hin) as (base & _ & Hget).
  rewrite (calculateBranch_walk this d (Tree.m_data np) random base n fuel
             Hd Hget Hreach Hfuel).
  destruct (terminalBySpec_inGrid this d (Tree.m_data np) base _ Hd Hwf Hgrid)
    as (t & -> & Ht).
  simpl. destruct t as [c|]; simpl; [|eexists; reflexivity].
  rewrite (getData_live _ _ _ (lookup_insert_eq _ _ _)). simpl.
  rewrite Forall_forall in Hgrid. pose proof (Hgrid c (Ht c eq_refl)) as Hc.
  destruct (nodeAt_lt (RRT.m_nodes this) (LevelData.flatIndex d c)
              (slot_in_range this d c Hform Hc)) as (occupiedSlot & _ & Hocc).
  unfold LevelData.flatIndex in Hocc. rewrite Hocc. simpl.
  destruct occupiedSlot as [|]; [eexists; reflexivity|]. simpl.
  assert (Hne : p ≠ fresh (dom (RRT.store this))).
  { intros ->. rewrite fresh_unused in Hp. discriminate. }
  unfold Tree.addBranch, Tree.setParent, Tree.deref.
  rewrite lookup_insert_ne by congruence. rewrite Hp. simpl.
  rewrite lookup_insert_ne by congruence. rewrite lookup_insert_eq. simpl.
  eexists. reflexivity.
Qed.

(** C7: [hasFinished] returns true exactly when the slots of the occupancy
    index at the flat indices of the start and of the goal are both
    occupied: in any state where the two indices are within the index, and
    so in every session state; and right after [prepareTree] with the goal
    equal to the start it returns true. *)
Theorem hasFinished_iff_both_occupied :
  (∀ (this : RRT.t) (d : LevelData.t),
     RRT.m_data this = Some d →
     (Z.to_nat (LevelData.flatIndex d (RRT.m_start this)) < length (RRT.m_nodes this))%nat →
     (Z.to_nat (LevelData.flatIndex d (RRT.m_end this)) < length (RRT.m_nodes this))%nat →
     ∃ b, RRT.hasFinished this = Done b ∧
       (b = true ↔
          occupied (RRT.m_nodes this) (LevelData.flatIndex d (RRT.m_start this))
          ∧ occupied (RRT.m_nodes this) (LevelData.flatIndex d (RRT.m_end this))))
  ∧ (∀ (this : RRT.t), session this →
     ∃ d b, RRT.m_data this = Some d ∧ RRT.hasFinished this = Done b ∧
       (b = true ↔
          occupied (RRT.m_nodes this) (LevelData.flatIndex d (RRT.m_start this))
          ∧ occupied (RRT.m_nodes this) (LevelData.flatIndex d (RRT.m_end this))))
  ∧ (∀ (r : RRT.t) (d : LevelData.t) (start : sf.Vector2i) old nold,
       RRT.m_tree r = Some old → RRT.store r !! old = Some nold →
       LevelData.wf d → LevelData.inBounds d start →
       ∃ this, RRT.prepareTree r d start start = Done this
               ∧ RRT.hasFinished this = Done true).
Proof.
  split; [exact hasFinished_value|]. split.
  { intros this Hsession. destruct (session_wellFormed this Hsession) as [d Hform].
    pose proof Hform as (Hd & _ & Hs & He & _).
    destruct (hasFinished_value this d Hd (slot_in_range this d _ Hform Hs)
                (slot_in_range this d _ Hform He)) as (b & Hb & Hiff).
    exists d, b. auto. }
  intros r d start old nold Htree Hold Hwf Hin.
  pose proof (flat_in_range d start Hwf Hin) as Hflat.
  assert (Hidx : (Z.to_nat (LevelData.flatIndex d start)
                  < Z.to_nat (LevelData.getTileCount d))%nat).
  { rewrite getTileCount_wf, flatIndex_inBounds by assumption. lia. }
  eexists. split.
  - apply (prepareTree_live r d start start old nold Htree Hold); [|exact Hidx].
    apply prepareCondition_inBounds; assumption.
  - unfold RRT.hasFinished, RRT.level, RRT.nodeAt, LevelData.getWidth. simpl.
    fold (LevelData.flatIndex d start).
    rewrite list_lookup_insert_eq by (rewrite length_replicate; exact Hidx).
    simpl. reflexivity.
Qed.

Lemma session_session5 : session session5.
Proof.
  apply (session_prepare engine (openLevel 5 5) (sf.mkVector2i 0 0)
           (sf.mkVector2i 4 4) session5 wf_openLevel5).
  - unfold LevelData.inBounds; simpl; lia.
  - unfold LevelData.inBounds; simpl; lia.
  - exact prepare_session5.
Qed.

Lemma hasFinished_iff_both_occupied_witness :
  (∃ b, RRT.hasFinished session5 = Done b ∧
     (b = true ↔
        occupied (RRT.m_nodes session5)
                 (LevelData.flatIndex (openLevel 5 5) (RRT.m_start session5))
        ∧ occupied (RRT.m_nodes session5)
                   (LevelData.flatIndex (openLevel 5 5) (RRT.m_end session5))))
  ∧ (∃ d b, RRT.m_data session5 = Some d ∧ RRT.hasFinished session5 = Done b ∧
       (b = true ↔
          occupied (RRT.m_nodes session5) (LevelData.flatIndex d (RRT.m_start session5))
          ∧ occupied (RRT.m_nodes session5) (LevelData.flatIndex d (RRT.m_end session5))))
  ∧ (∃ this, RRT.prepareTree engine (openLevel 5 5) (sf.mkVector2i 2 2)
                             (sf.mkVector2i 2 2) = Done this
             ∧ RRT.hasFinished this = Done true).
Proof.
  split; [|split].
  - apply (proj1 hasFinished_iff_both_occupied session5 (openLevel 5 5)).
    + reflexivity.
    + vm_compute. lia.
    + vm_compute. lia.
  - apply (proj1 (proj2 hasFinished_iff_both_occupied) session5). exact session_session5.
  - apply (proj2 (proj2 hasFinished_iff_both_occupied) engine (openLevel 5 5)
             (sf.mkVector2i 2 2) 0%nat (Tree.mk sf.origin None [])).
    + reflexivity.
    + reflexivity.
    + exact wf_openLevel5.
    + unfold LevelData.inBounds; simpl; lia.
Defined.

Lemma to_uint_nonneg (z : Z) : 0 <= to_uint z.
Proof. unfold to_uint. pose proof (Z.mod_pos_bound z 4294967296). lia. Qed.

(** *** No call of a session leaves defined behaviour *)

Lemma bind_defined {A B} (m : outcome A) (f : A → outcome B) :
  m ≠ Undefined → (∀ a, m = Done a → f a ≠ Undefined) → m ≫= f ≠ Undefined.
Proof. destruct m; simpl; intros Hm Hf; try discriminate; [eauto|contradiction]. Qed.

(** On a loaded level a lookup that passes the assertion of [getTile] reads
    inside the tile vector. *)
Lemma getTile_defined (d : LevelData.t) (x y : Z) :
  LevelData.wf d → 0 <= x → 0 <= y → LevelData.getTile d x y ≠ Undefined.
Proof.
  intros [Hw Hh Hcount Hfit] Hx Hy. unfold LevelData.getTile, cassert.
  destruct ((x <? LevelData.m_width d) && (y <? LevelData.m_height d)) eqn:Hc;
    [|discriminate].
  apply andb_true_iff in Hc as [Hcx Hcy]. apply Z.ltb_lt in Hcx, Hcy. simpl.
  assert (Hflat : 0 <= x + y * LevelData.m_width d
                  < LevelData.m_width d * LevelData.m_height d).
  { apply (flat_in_range d (sf.mkVector2i x y)); [split; assumption|].
    unfold LevelData.inBounds. simpl. lia. }
  unfold LevelData.tileAt. rewrite to_uint_small by lia.
  destruct (LevelData.m_tileData d !! _) eqn:Hl; [discriminate|].
  apply lookup_ge_None in Hl. lia.
Qed.

Lemma isValidTile_defined (this : RRT.t) (d : LevelData.t) (c : sf.Vector2i)
    (base : TileType) :
  RRT.m_data this = Some d → LevelData.wf d →
  RRT.isValidTile this c base ≠ Undefined.
Proof.
  intros Hd Hwf. unfold RRT.isValidTile, RRT.level. rewrite Hd. simpl.
  apply bind_defined; [|discriminate].
  apply getTile_defined; [exact Hwf| |]; apply to_uint_nonneg.
Qed.

Lemma sampleLoop_defined (this : RRT.t) (d : LevelData.t) (start end_ : sf.Vector2i)
    (base : TileType) (magnitude : spec_float) :
  RRT.m_data this = Some d → LevelData.wf d →
  ∀ (fuel : nat) (current : spec_float) (h : gmap addr (Tree.t sf.Vector2i))
    (branch : option addr),
    (∀ b, branch = Some b → is_Some (h !! b)) →
    RRT.sampleLoop fuel this start end_ base magnitude h branch current ≠ Undefined.
Proof.
  intros Hd Hwf. induction fuel as [|fuel IH]; intros current h branch Hlive;
    [discriminate|].
  simpl. destruct (RRT.sampling this magnitude current); [|discriminate].
  destruct (sf.neq _ start); [|apply IH; exact Hlive].
  apply bind_defined; [exact (isValidTile_defined this d _ base Hd Hwf)|].
  intros [|] _; [|discriminate].
  destruct branch as [b|].
  - destruct (Hlive b eq_refl) as [n Hn].
    unfold Tree.setData, Tree.deref. rewrite Hn. simpl. apply IH.
    intros b' [= <-]. rewrite lookup_insert_eq. eauto.
  - simpl. unfold Tree.setData, Tree.deref. rewrite lookup_insert_eq. simpl.
    apply IH. intros b' [= <-]. rewrite lookup_insert_eq. eauto.
Qed.

Lemma calculateBranch_defined (fuel : nat) (this : RRT.t) (d : LevelData.t)
    (start end_ : sf.Vector2i) :
  RRT.m_data this = Some d → LevelData.wf d →
  RRT.calculateBranch fuel this start end_ ≠ Undefined.
Proof.
  intros Hd Hwf. unfold RRT.calculateBranch, RRT.level. rewrite Hd. simpl.
  apply bind_defined.
  - apply getTile_defined; [exact Hwf| |]; apply to_uint_nonneg.
  - intros base _. apply (sampleLoop_defined this d _ _ _ _ Hd Hwf). discriminate.
Qed.

(** In a session no call reads or writes outside its vectors, or through a
    null or dangling pointer. *)
Lemma generateBranch_defined (fuel : nat) (this : RRT.t) (d : LevelData.t) (rx ry : Z) :
  wellFormedSession this d → RRT.generateBranch fuel this rx ry ≠ Undefined.
Proof.
  intros Hform.
  pose proof Hform as (Hd & Hwf & Hs & He & Hlen & Hreg & root & Htree & Hroot).
  destruct (hasFinished_value this d Hd (slot_in_range this d _ Hform Hs)
              (slot_in_range this d _ Hform He)) as (finished & Hfin & _).
  unfold RRT.generateBranch. rewrite Hfin. simpl.
  destruct (negb finished && sf.neq (RRT.m_start this) (RRT.m_end this));
    [|discriminate].
  unfold RRT.level, LevelData.getWidth, LevelData.getHeight. rewrite Hd. simpl.
  pose proof Hwf as [Hw Hh _ _].
  replace ((LevelData.m_width d =? 0) || (LevelData.m_height d =? 0)) with false
    by (symmetry; apply orb_false_iff; split; apply Z.eqb_neq; lia).
  simpl.
  set (random := RRT.sample (LevelData.m_width d) (LevelData.m_height d) rx ry) in *.
  pose proof (sample_inBounds d rx ry Hwf) as Hrandom. fold random in Hrandom.
  destruct (nodeAt_lt (RRT.m_nodes this) (LevelData.flatIndex d random)
              (slot_in_range this d random Hform Hrandom)) as (slot & _ & Hslot).
  unfold LevelData.flatIndex in Hslot.
  change (sf.x random) with (to_int (to_uint rx mod LevelData.m_width d)) in Hslot.
  change (sf.y random) with (to_int (to_uint ry mod LevelData.m_height d)) in Hslot.
  rewrite Hslot. simpl.
  destruct slot as [|]; [discriminate|].
  destruct (determineNearest_scan this d random Hwf Hrandom Hreg (ex_intro _ root Hroot))
    as (i & p & np & Hnearest & Hi & Hp & _).
  rewrite Hnearest. simpl.
  rewrite (getData_live _ p np Hp). simpl.
  apply bind_defined; [exact (calculateBranch_defined fuel this d _ _ Hd Hwf)|].
  intros [h1 branch] Hresult.
  destruct (calculateBranch_Done _ _ _ _ _ _ Hresult) as (r & Hr & Hvalid).
  destruct r as [c|]; simpl in Hr; injection Hr as -> ->; [|discriminate].
  rewrite (getData_live _ _ _ (lookup_insert_eq _ _ _)). simpl.
  destruct (Hvalid c eq_refl) as (d0 & base & delta & _ & -> & Hok).
  pose proof (lerp_accepted_inBounds this d _ _ delta base true Hd Hwf Hok) as Hc.
  destruct (nodeAt_lt (RRT.m_nodes this) (LevelData.flatIndex d _)
              (slot_in_range this d _ Hform Hc)) as (occupiedSlot & _ & Hocc).
  unfold LevelData.flatIndex in Hocc. rewrite Hocc. simpl.
  destruct occupiedSlot as [|]; [discriminate|]. simpl.
  assert (Hne : p ≠ fresh (dom (RRT.store this))).
  { intros ->. rewrite fresh_unused in Hp. discriminate. }
  unfold Tree.addBranch, Tree.setParent, Tree.deref.
  rewrite lookup_insert_ne by congruence. rewrite Hp. simpl.
  rewrite lookup_insert_ne by congruence. rewrite lookup_insert_eq. simpl.
  discriminate.
Qed.

(** C2: a call of [generateBranch] that returns has either grafted exactly
    one new node, registered under its coordinate in the occupancy index, or
    left the engine as it was. It returns with the engine as it was whenever
    [hasFinished] holds or the start equals the goal, and so does any run
    of calls once [hasFinished] holds. As to when a call returns: its
    sampling loop does not outlast the fuel when the cursor reaches the
    maximum branch length in fewer steps than the fuel pays for, and in a
    session such a call returns or stops on the assertion of [getTile]. *)
Theorem generateBranch_grafts_or_keeps (this : RRT.t) (fuel : nat) (rx ry : Z) :
  (∀ this', RRT.generateBranch fuel this rx ry = Done this' →
     this' = this ∨ ∃ parent b c, grafted this this' parent b c)
  ∧ (RRT.hasFinished this = Done true →
       RRT.generateBranch fuel this rx ry = Done this)
  ∧ (∀ b, RRT.m_start this = RRT.m_end this → RRT.hasFinished this = Done b →
       RRT.generateBranch fuel this rx ry = Done this)
  ∧ (RRT.hasFinished this = Done true →
       ∀ calls, RRT.generateBranches this calls = Done this)
  ∧ (∀ n, cursorReaches this n → (n < fuel)%nat →
       RRT.generateBranch fuel this rx ry ≠ OutOfFuel)
  ∧ (∀ d n, wellFormedSession this d → cursorReaches this n → (n < fuel)%nat →
       (∃ this', RRT.generateBranch fuel this rx ry = Done this')
       ∨ RRT.generateBranch fuel this rx ry = AssertFail).
Proof.
  split; [intros this'; apply generateBranch_Done|].
  split; [apply generateBranch_finished|].
  split; [intros b; apply generateBranch_same_ends|].
  split; [intros H calls; exact (generateBranches_finished this calls H)|].
  split; [intros n; apply generateBranch_fuelled|].
  intros d n Hform Hreach Hfuel.
  pose proof (generateBranch_defined fuel this d rx ry Hform) as Hdefined.
  pose proof (generateBranch_fuelled this n fuel rx ry Hreach Hfuel) as Hfuelled.
  destruct (RRT.generateBranch fuel this rx ry) as [this'| | |];
    [left; eauto|right; reflexivity|contradiction|contradiction].
Qed.

Lemma wellFormed_session5 : wellFormedSession session5 (openLevel 5 5).
Proof.
  apply (prepareTree_wellFormed engine (openLevel 5 5) (sf.mkVector2i 0 0)
           (sf.mkVector2i 4 4) session5 wf_openLevel5).
  - unfold LevelData.inBounds; simpl; lia.
  - unfold LevelData.inBounds; simpl; lia.
  - exact prepare_session5.
Qed.

Lemma candidatesInGrid_session5 : candidatesInGrid session5 (openLevel 5 5) 61 4 4.
Proof.
  unfold candidatesInGrid. intros nearest nearData Hnearest HnearData.
  vm_compute in Hnearest. injection Hnearest as <-.
  vm_compute in HnearData. injection HnearData as <-.
  refine (bool_decide_unpack _ _). vm_compute. exact I.
Qed.

Lemma generateBranch_grafts_or_keeps_witness :
  (∀ this', RRT.generateBranch 61 session5 4 4 = Done this' →
     this' = session5 ∨ ∃ parent b c, grafted session5 this' parent b c)
  ∧ ((∃ this', RRT.generateBranch 61 session5 4 4 = Done this')
     ∨ RRT.generateBranch 61 session5 4 4 = AssertFail).
Proof.
  destruct (generateBranch_grafts_or_keeps session5 61 4 4)
    as (Hdone & _ & _ & _ & _ & Hreturns).
  split; [exact Hdone|].
  apply (Hreturns (openLevel 5 5) 60%nat wellFormed_session5); [vm_compute; reflexivity|lia].
Defined.

(** The two outcomes on concrete calls: a graft, then calls that change
    nothing because the goal is in the tree. *)
Example growth_then_rest :
  wellFormedSession session5 (openLevel 5 5)
  ∧ candidatesInGrid session5 (openLevel 5 5) 61 4 4
  ∧ RRT.generateBranch 61 session5 4 4 = Done grown5
  ∧ grafted session5 grown5 1%nat 2%nat (sf.mkVector2i 4 4)
  ∧ RRT.hasFinished grown5 = Done true
  ∧ RRT.generateBranches grown5 [(61%nat, 2, 3); (0%nat, 1, 1); (61%nat, 7, 9)]
    = Done grown5.
Proof.
  split; [exact wellFormed_session5|].
  split; [exact candidatesInGrid_session5|].
  split; [vm_compute; reflexivity|].
  split.
  - exists (openLevel 5 5), (Tree.mk (sf.mkVector2i 0 0) None []).
    split; [reflexivity|]. split; [left; reflexivity|].
    repeat (split; [vm_compute; reflexivity|]). vm_compute. reflexivity.
  - split; vm_compute; reflexivity.
Qed.

(** ** Where branch construction departs from its description *)

(** C6: a grafted node can lie farther from its parent than the maximum
    branch length. On an open 21 by 21 level with the default parameters
    (branch length 15), the root at (20,20) and the sample (0,0), the call
    grafts (9,9): the squared distance to the parent is 242, above 225. The
    cursor is clamped to 15, but the interpolated point (9.39, 9.39) is
    truncated toward zero, away from the parent. *)
Theorem branch_exceeds_branchDistance :
  RRT.construct quarter fifteen = Done engine
  ∧ RRT.prepareTree engine (openLevel 21 21) (sf.mkVector2i 20 20) (sf.mkVector2i 0 0)
    = Done session21
  ∧ RRT.generateBranch 61 session21 0 0 = Done grown21
  ∧ grafted session21 grown21 1%nat 2%nat (sf.mkVector2i 9 9)
  ∧ Tree.m_data <$> RRT.store session21 !! 1%nat = Some (sf.mkVector2i 20 20)
  ∧ RRT.m_branchDistance session21 = F32.of_int 15
  ∧ 15 * 15 < euclid2 (sf.mkVector2i 9 9) (sf.mkVector2i 20 20).
Proof.
  split; [vm_compute; reflexivity|].
  split; [vm_compute; reflexivity|].
  split; [vm_compute; reflexivity|].
  split.
  - exists (openLevel 21 21), (Tree.mk (sf.mkVector2i 20 20) None []).
    split; [reflexivity|]. split; [left; reflexivity|].
    repeat (split; [vm_compute; reflexivity|]). vm_compute. reflexivity.
  - repeat (split; [vm_compute; reflexivity|]). vm_compute. reflexivity.
Qed.

Lemma getTile_outside (d : LevelData.t) (x y : Z) :
  LevelData.m_width d <= x → LevelData.getTile d x y = AssertFail.
Proof.
  intros Hx. unfold LevelData.getTile.
  replace (x <? LevelData.m_width d) with false by (symmetry; apply Z.ltb_ge; lia).
  reflexivity.
Qed.

Lemma calculateBranch_first_candidate (this : RRT.t) (d : LevelData.t)
    (start end_ inc : sf.Vector2i) (base : TileType) (fuel : nat) :
  RRT.m_data this = Some d →
  LevelData.getTile d (to_uint (sf.x start)) (to_uint (sf.y start)) = Done base →
  RRT.sampling this (RRT.magnitudeOf start end_) F32.zero = true →
  RRT.lerp start end_
    (F32.div (RRT.advance this (RRT.magnitudeOf start end_) F32.zero)
             (RRT.magnitudeOf start end_)) = inc →
  sf.neq inc start = true →
  LevelData.m_width d <= to_uint (sf.x inc) →
  RRT.calculateBranch (S fuel) this start end_ = AssertFail.
Proof.
  intros Hd Hbase Hguard Hinc Hmove Hout.
  unfold RRT.calculateBranch, RRT.level. rewrite Hd. simpl. rewrite Hbase. simpl.
  rewrite Hguard, Hinc, Hmove. unfold RRT.isValidTile, RRT.level. rewrite Hd. simpl.
  rewrite (getTile_outside d _ _ Hout). reflexivity.
Qed.

Lemma wf_wideLevel : LevelData.wf wideLevel.
Proof.
  split; unfold wideLevel, INT_MAX;
    cbn [LevelData.m_width LevelData.m_height LevelData.m_tileData]; try lia.
  rewrite length_replicate. lia.
Qed.

Lemma getTile_uniform (d : LevelData.t) (ty : TileType) (p : sf.Vector2i) :
  LevelData.wf d → LevelData.inBounds d p →
  Forall (λ t, t = ty) (LevelData.m_tileData d) →
  LevelData.getTile d (to_uint (sf.x p)) (to_uint (sf.y p)) = Done ty.
Proof.
  intros Hwf Hin Hall.
  destruct (getTile_inBounds d p Hwf Hin) as (type & Hty & Hget).
  unfold terrainAt in Hty. rewrite Forall_lookup in Hall.
  rewrite (Hall _ _ Hty) in Hget. exact Hget.
Qed.

Lemma wideLevel_start_tile :
  LevelData.getTile wideLevel (to_uint 16777219) (to_uint 0) = Done Terrain.
Proof.
  apply (getTile_uniform wideLevel Terrain (sf.mkVector2i 16777219 0) wf_wideLevel).
  - unfold LevelData.inBounds, wideLevel.
    cbn [LevelData.m_width LevelData.m_height sf.x sf.y]. lia.
  - unfold wideLevel. cbn [LevelData.m_tileData].
    apply Forall_replicate. reflexivity.
Qed.

Lemma nearestLoop_empty_slots (h : gmap addr (Tree.t sf.Vector2i))
    (position : sf.Vector2i) (k : nat) (rest : list (option addr))
    (closest : option addr) (nd : Z) :
  RRT.nearestLoop h position (replicate k None ++ rest) closest nd
  = RRT.nearestLoop h position rest closest nd.
Proof. induction k as [|k IH]; [reflexivity|]. simpl. exact IH. Qed.

(** The scan of an index whose only occupied slot holds [r]. *)
Lemma nearestLoop_single_slot (h : gmap addr (Tree.t sf.Vector2i))
    (position : sf.Vector2i) (n i : nat) (r : addr) (node : Tree.t sf.Vector2i)
    (closest : option addr) (nd : Z) :
  (i < n)%nat → h !! r = Some node →
  (let difference := sf.sub (Tree.m_data node) position in
   to_int (abs_int (sf.x difference) + abs_int (sf.y difference)) <? nd) = true →
  RRT.nearestLoop h position (<[i := Some r]> (replicate n None)) closest nd
  = Done (Some r).
Proof.
  intros Hi Hnode Hnear.
  rewrite insert_take_drop by (rewrite length_replicate; exact Hi).
  rewrite take_replicate, drop_replicate, nearestLoop_empty_slots.
  simpl. unfold Tree.getData, Tree.deref. rewrite Hnode. simpl.
  simpl in Hnear. rewrite Hnear.
  rewrite <- (app_nil_r (replicate _ None)), nearestLoop_empty_slots. reflexivity.
Qed.

Lemma nodeAt_single_slot (n i : nat) (r : addr) (z : Z) :
  (i < n)%nat → (Z.to_nat z < n)%nat →
  RRT.nodeAt (<[i := Some r]> (replicate n None)) z
  = Done (if decide (i = Z.to_nat z) then Some r else None).
Proof.
  intros Hi Hz. unfold RRT.nodeAt. destruct (decide (i = Z.to_nat z)) as [<-|Hne].
  - rewrite list_lookup_insert_eq by (rewrite length_replicate; exact Hi). reflexivity.
  - rewrite list_lookup_insert_ne by exact Hne.
    rewrite lookup_replicate_2 by exact Hz. reflexivity.
Qed.

(** A call that reaches branch construction fails when the construction
    fails its assertion. *)
Lemma generateBranch_AssertFail (fuel : nat) (this : RRT.t) (d : LevelData.t)
    (rx ry : Z) (random nearData : sf.Vector2i) (nearest : option addr) :
  RRT.hasFinished this = Done false →
  sf.neq (RRT.m_start this) (RRT.m_end this) = true →
  RRT.m_data this = Some d →
  (LevelData.m_width d =? 0) || (LevelData.m_height d =? 0) = false →
  RRT.sample (LevelData.m_width d) (LevelData.m_height d) rx ry = random →
  RRT.nodeAt (RRT.m_nodes this)
             (to_uint (sf.x random + sf.y random * LevelData.m_width d)) = Done None →
  RRT.determineNearest this random = Done nearest →
  Tree.getData (RRT.store this) nearest = Done nearData →
  RRT.calculateBranch fuel this nearData random = AssertFail →
  RRT.generateBranch fuel this rx ry = AssertFail.
Proof.
  intros Hfin Hends Hd Hdims Hrandom Hslot Hnearest HnearData Hbranch.
  unfold RRT.generateBranch, RRT.level, LevelData.getWidth, LevelData.getHeight.
  subst random. simpl in Hslot.
  rewrite Hfin. simpl. rewrite Hends, Hd. simpl. rewrite Hdims. simpl.
  rewrite Hslot. simpl. rewrite Hnearest. simpl. rewrite HnearData. simpl.
  rewrite Hbranch. reflexivity.
Qed.

Lemma wide_slots : (Z.to_nat 16777219 < Z.to_nat 16777220)%nat.
Proof. lia. Qed.

(** [hasFinished] on an index whose only occupied slot is that of the
    start. *)
Lemma hasFinished_single_slot (this : RRT.t) (d : LevelData.t) (n i : nat) (r : addr) :
  RRT.m_data this = Some d →
  RRT.m_nodes this = <[i := Some r]> (replicate n None) →
  (i < n)%nat →
  Z.to_nat (LevelData.flatIndex d (RRT.m_start this)) = i →
  (Z.to_nat (LevelData.flatIndex d (RRT.m_end this)) < n)%nat →
  Z.to_nat (LevelData.flatIndex d (RRT.m_end this)) ≠ i →
  RRT.hasFinished this = Done false.
Proof.
  intros Hd Hnodes Hi Hstart Hend Hne.
  unfold RRT.hasFinished, RRT.level, LevelData.getWidth. rewrite Hd, Hnodes. simpl.
  unfold LevelData.flatIndex in Hstart, Hend, Hne.
  rewrite !nodeAt_single_slot by lia.
  repeat case_decide; try congruence; reflexivity.
Qed.

Lemma wide_tileCount : LevelData.getTileCount wideLevel = 16777220.
Proof. rewrite (getTileCount_wf wideLevel wf_wideLevel). reflexivity. Qed.

(** [sessionWide] is the session [prepareTree] opens on [wideLevel]. *)
Lemma prepare_sessionWide :
  RRT.prepareTree fineEngine wideLevel (sf.mkVector2i 16777219 0) (sf.mkVector2i 0 0)
  = Done sessionWide.
Proof.
  assert (Hflat : LevelData.flatIndex wideLevel (sf.mkVector2i 16777219 0) = 16777219).
  { change (LevelData.flatIndex wideLevel (sf.mkVector2i 16777219 0))
      with (to_uint (16777219 + 0 * 16777220)).
    vm_compute. reflexivity. }
  rewrite (prepareTree_live fineEngine wideLevel (sf.mkVector2i 16777219 0)
             (sf.mkVector2i 0 0) 0%nat (Tree.mk sf.origin None [])).
  - rewrite Hflat, wide_tileCount. unfold sessionWide. f_equal.
  - reflexivity.
  - reflexivity.
  - unfold RRT.prepareCondition.
    change (LevelData.getWidth wideLevel) with 16777220.
    change (LevelData.getHeight wideLevel) with 1.
    vm_compute. reflexivity.
  - rewrite Hflat, wide_tileCount. exact wide_slots.
Qed.

Lemma wide_hasFinished : RRT.hasFinished sessionWide = Done false.
Proof.
  apply (hasFinished_single_slot sessionWide wideLevel (Z.to_nat 16777220)
           (Z.to_nat 16777219) 1%nat).
  - reflexivity.
  - reflexivity.
  - exact wide_slots.
  - change (LevelData.flatIndex wideLevel (RRT.m_start sessionWide))
      with (to_uint (16777219 + 0 * 16777220)).
    replace (to_uint (16777219 + 0 * 16777220)) with 16777219
      by (vm_compute; reflexivity).
    reflexivity.
  - change (LevelData.flatIndex wideLevel (RRT.m_end sessionWide))
      with (to_uint (0 + 0 * 16777220)).
    replace (to_uint (0 + 0 * 16777220)) with 0 by (vm_compute; reflexivity).
    lia.
  - change (LevelData.flatIndex wideLevel (RRT.m_end sessionWide))
      with (to_uint (0 + 0 * 16777220)).
    replace (to_uint (0 + 0 * 16777220)) with 0 by (vm_compute; reflexivity).
    lia.
Qed.

Lemma wide_sample_slot :
  RRT.nodeAt (RRT.m_nodes sessionWide)
    (to_uint (sf.x (sf.mkVector2i 0 0)
              + sf.y (sf.mkVector2i 0 0) * LevelData.m_width wideLevel))
  = Done None.
Proof.
  change (RRT.m_nodes sessionWide)
    with (<[Z.to_nat 16777219 := Some 1%nat]> (replicate (Z.to_nat 16777220) (@None addr))).
  change (LevelData.m_width wideLevel) with 16777220. cbn [sf.x sf.y].
  replace (to_uint (0 + 0 * 16777220)) with 0 by (vm_compute; reflexivity).
  rewrite nodeAt_single_slot by lia. case_decide; [lia|reflexivity].
Qed.

Lemma wide_nearest :
  RRT.determineNearest sessionWide (sf.mkVector2i 0 0) = Done (Some 1%nat).
Proof.
  unfold RRT.determineNearest.
  change (RRT.m_nodes sessionWide)
    with (<[Z.to_nat 16777219 := Some 1%nat]> (replicate (Z.to_nat 16777220) (@None addr))).
  change (RRT.store sessionWide)
    with ({[ 1%nat := Tree.mk (sf.mkVector2i 16777219 0) None [] ]}
          : gmap addr (Tree.t sf.Vector2i)).
  apply (nearestLoop_single_slot _ _ _ _ _
           (Tree.mk (sf.mkVector2i 16777219 0) None []) _ _ wide_slots).
  - reflexivity.
  - vm_compute. reflexivity.
Qed.

Lemma wide_first_candidate :
  RRT.sampling sessionWide
    (RRT.magnitudeOf (sf.mkVector2i 16777219 0) (sf.mkVector2i 0 0))
    F32.zero = true
  ∧ RRT.lerp (sf.mkVector2i 16777219 0) (sf.mkVector2i 0 0)
      (F32.div (RRT.advance sessionWide
                  (RRT.magnitudeOf (sf.mkVector2i 16777219 0)
                                   (sf.mkVector2i 0 0)) F32.zero)
               (RRT.magnitudeOf (sf.mkVector2i 16777219 0)
                                (sf.mkVector2i 0 0)))
    = sf.mkVector2i 16777220 0.
Proof.
  unfold RRT.sampling, RRT.advance.
  change (RRT.m_branchDistance sessionWide) with fifteen.
  change (RRT.m_sampleDistance sessionWide) with fine.
  split; vm_compute; reflexivity.
Qed.

Lemma wide_branch :
  RRT.calculateBranch 61 sessionWide (sf.mkVector2i 16777219 0)
                      (sf.mkVector2i 0 0) = AssertFail.
Proof.
  destruct wide_first_candidate as [Hguard Hinc].
  apply (calculateBranch_first_candidate sessionWide wideLevel _ _
           (sf.mkVector2i 16777220 0) Terrain).
  - reflexivity.
  - exact wideLevel_start_tile.
  - exact Hguard.
  - exact Hinc.
  - reflexivity.
  - unfold wideLevel. cbn [LevelData.m_width sf.x]. vm_compute. discriminate.
Qed.

Lemma wide_generate (ry : Z) : RRT.generateBranch 61 sessionWide 0 ry = AssertFail.
Proof.
  apply (generateBranch_AssertFail 61 sessionWide wideLevel 0 ry
           (sf.mkVector2i 0 0) (sf.mkVector2i 16777219 0) (Some 1%nat)).
  - exact wide_hasFinished.
  - reflexivity.
  - reflexivity.
  - reflexivity.
  - change (LevelData.m_width wideLevel) with 16777220.
    change (LevelData.m_height wideLevel) with 1.
    unfold RRT.sample. rewrite Z.mod_1_r. vm_compute. reflexivity.
  - exact wide_sample_slot.
  - exact wide_nearest.
  - reflexivity.
  - exact wide_branch.
Qed.

(** C10: a candidate of a branch between two cells of the grid can lie
    outside the grid. On the row of 16777220 cells, with the sample distance
    2^-11, from the start (16777219,0) toward the sample (0,0) that [rand ()]
    returning 0 for the column gives (the row is 0 whatever [rand ()] returns
    for it), the first candidate is (16777220,0): the conversion
    of 16777219 to [float] rounds up to 16777220, the square of the
    difference wraps around in [int], so the magnitude comes out near 10033
    and the first step moves the point by less than 1, which the sum rounds
    away. The lookup of that candidate fails the assertion of [getTile]. *)
Theorem candidate_leaves_grid :
  RRT.construct fine fifteen = Done fineEngine
  ∧ LevelData.wf wideLevel
  ∧ RRT.prepareTree fineEngine wideLevel (sf.mkVector2i 16777219 0) (sf.mkVector2i 0 0)
    = Done sessionWide
  ∧ (∀ ry, RRT.sample (LevelData.m_width wideLevel) (LevelData.m_height wideLevel)
                      0 ry = sf.mkVector2i 0 0)
  ∧ LevelData.inBounds wideLevel (sf.mkVector2i 16777219 0)
  ∧ LevelData.inBounds wideLevel (sf.mkVector2i 0 0)
  ∧ candidates 1 sessionWide (sf.mkVector2i 16777219 0) (sf.mkVector2i 0 0)
    = [sf.mkVector2i 16777220 0]
  ∧ ¬ LevelData.inBounds wideLevel (sf.mkVector2i 16777220 0)
  ∧ RRT.calculateBranch 61 sessionWide (sf.mkVector2i 16777219 0)
                        (sf.mkVector2i 0 0) = AssertFail
  ∧ (∀ ry, RRT.generateBranch 61 sessionWide 0 ry = AssertFail).
Proof.
  split; [vm_compute; reflexivity|].
  split; [exact wf_wideLevel|].
  split; [exact prepare_sessionWide|].
  split.
  { intros ry. change (LevelData.m_width wideLevel) with 16777220.
    change (LevelData.m_height wideLevel) with 1.
    unfold RRT.sample. rewrite Z.mod_1_r. vm_compute. reflexivity. }
  split; [unfold LevelData.inBounds, wideLevel;
          cbn [LevelData.m_width LevelData.m_height sf.x sf.y]; lia|].
  split; [unfold LevelData.inBounds, wideLevel;
          cbn [LevelData.m_width LevelData.m_height sf.x sf.y]; lia|].
  split.
  { unfold candidates.
    change (RRT.m_sampleDistance sessionWide) with fine.
    change (RRT.m_branchDistance sessionWide) with fifteen.
    vm_compute. reflexivity. }
  split; [unfold LevelData.inBounds, wideLevel;
          cbn [LevelData.m_width LevelData.m_height sf.x sf.y]; lia|].
  split; [exact wide_branch|exact wide_generate].
Qed.

(** * Properties of the tree operations, the drawing, the demo and the
    loader *)

(** ** Flat indices *)

Lemma flatIndex_cell (d : LevelData.t) (p : sf.Vector2i) :
  LevelData.wf d → LevelData.inBounds d p →
  cellOf d (LevelData.flatIndex d p) = p.
Proof.
  intros Hwf Hp. rewrite (flatIndex_inBounds d p Hwf Hp).
  destruct Hwf as [Hw _ _ _]. destruct Hp as [Hx Hy]. destruct p as [px py].
  unfold cellOf. simpl in *. f_equal.
  - rewrite Z.mod_add by lia. apply Z.mod_small. lia.
  - rewrite Z.div_add by lia. rewrite Z.div_small by lia. lia.
Qed.

Lemma flatIndex_inj (d : LevelData.t) (p q : sf.Vector2i) :
  LevelData.wf d → LevelData.inBounds d p → LevelData.inBounds d q →
  LevelData.flatIndex d p = LevelData.flatIndex d q → p = q.
Proof.
  intros Hwf Hp Hq Heq.
  rewrite <- (flatIndex_cell d p Hwf Hp), <- (flatIndex_cell d q Hwf Hq), Heq.
  reflexivity.
Qed.

Lemma cellOf_inBounds (d : LevelData.t) (i : Z) :
  LevelData.wf d → 0 <= i < LevelData.getTileCount d →
  LevelData.inBounds d (cellOf d i) ∧ LevelData.flatIndex d (cellOf d i) = i.
Proof.
  intros Hwf Hi. rewrite (getTileCount_wf d Hwf) in Hi.
  pose proof Hwf as [Hw Hh _ Hfit]. unfold INT_MAX in *.
  set (w := LevelData.m_width d) in *. set (h := LevelData.m_height d) in *.
  assert (Hin : LevelData.inBounds d (cellOf d i)).
  { unfold LevelData.inBounds, cellOf. simpl. fold w h.
    pose proof (Z.mod_pos_bound i w). split; [lia|]. split.
    - apply Z.div_pos; lia.
    - apply Z.div_lt_upper_bound; lia. }
  split; [exact Hin|].
  rewrite (flatIndex_inBounds d _ Hwf Hin). unfold cellOf. simpl. fold w.
  pose proof (Z.div_mod i w). lia.
Qed.

(** X1: the flat index [x + y * width] the engine files a cell under
    numbers the cells of a loaded level one to one: the index of a cell of
    the grid is below the tile count, the cell is recovered from it as
    (index mod width, index / width), every index below the tile count is
    the index of a cell of the grid, and two cells with the same index are
    the same cell. *)
Theorem flatIndex_numbers_cells (d : LevelData.t) :
  LevelData.wf d →
  (∀ p, LevelData.inBounds d p →
     0 <= LevelData.flatIndex d p < LevelData.getTileCount d
     ∧ cellOf d (LevelData.flatIndex d p) = p)
  ∧ (∀ i, 0 <= i < LevelData.getTileCount d →
       LevelData.inBounds d (cellOf d i) ∧ LevelData.flatIndex d (cellOf d i) = i)
  ∧ (∀ p q, LevelData.inBounds d p → LevelData.inBounds d q →
       LevelData.flatIndex d p = LevelData.flatIndex d q → p = q).
Proof.
  intros Hwf. split; [|split].
  - intros p Hp. split; [|exact (flatIndex_cell d p Hwf Hp)].
    rewrite (getTileCount_wf d Hwf), (flatIndex_inBounds d p Hwf Hp).
    exact (flat_in_range d p Hwf Hp).
  - intros i Hi. exact (cellOf_inBounds d i Hwf Hi).
  - intros p q. exact (flatIndex_inj d p q Hwf).
Qed.

Lemma flatIndex_numbers_cells_witness :
  (∀ p, LevelData.inBounds (openLevel 5 5) p →
     0 <= LevelData.flatIndex (openLevel 5 5) p < LevelData.getTileCount (openLevel 5 5)
     ∧ cellOf (openLevel 5 5) (LevelData.flatIndex (openLevel 5 5) p) = p)
  ∧ (∀ i, 0 <= i < LevelData.getTileCount (openLevel 5 5) →
       LevelData.inBounds (openLevel 5 5) (cellOf (openLevel 5 5) i)
       ∧ LevelData.flatIndex (openLevel 5 5) (cellOf (openLevel 5 5) i) = i)
  ∧ (∀ p q, LevelData.inBounds (openLevel 5 5) p → LevelData.inBounds (openLevel 5 5) q →
       LevelData.flatIndex (openLevel 5 5) p = LevelData.flatIndex (openLevel 5 5) q →
       p = q).
Proof. exact (flatIndex_numbers_cells (openLevel 5 5) wf_openLevel5). Defined.

(** ** Parent pointers *)

Lemma prepareTree_kinship (r : RRT.t) (d : LevelData.t) (start end_ : sf.Vector2i)
    (this : RRT.t) :
  RRT.prepareTree r d start end_ = Done this → kinship this.
Proof.
  intros Hrun.
  destruct (prepareTree_Done r d start end_ this Hrun) as (root & h & -> & Hroot & Hslot).
  exists root, (Tree.mk start None []). simpl.
  split; [reflexivity|]. split; [exact Hroot|]. split; [reflexivity|].
  split; [reflexivity|]. split; [|split].
  - intros p n [i Hi] Hn. simpl in Hi. apply lookup_single_slot in Hi as (-> & -> & _).
    rewrite Hroot in Hn. injection Hn as <-. simpl.
    split; [apply not_elem_of_nil|apply NoDup_nil_2].
  - intros p n q [i Hi] Hn Hq. simpl in Hi.
    apply lookup_single_slot in Hi as (-> & -> & _).
    rewrite Hroot in Hn. injection Hn as <-. simpl in Hq.
    apply elem_of_nil in Hq. contradiction.
  - intros q m [i Hi] Hm Hne. simpl in Hi.
    apply lookup_single_slot in Hi as (-> & -> & _). contradiction.
Qed.

Section graft_kin.
Variables (this this' : RRT.t) (parent b : addr) (c : sf.Vector2i).
Hypothesis Hgraft : grafted this this' parent b c.

(** A node of [this] is still there after the graft, with the same data and
    parent; only the parent of the new node has one more branch. *)
Lemma grafted_lookup_kept (p : addr) (n : Tree.t sf.Vector2i) :
  RRT.store this !! p = Some n →
  ∃ n', RRT.store this' !! p = Some n' ∧ Tree.m_data n' = Tree.m_data n
        ∧ Tree.m_parent n' = Tree.m_parent n
        ∧ (p ≠ parent → n' = n)
        ∧ (p = parent → Tree.m_branches n' = Tree.m_branches n ++ [Some b]).
Proof.
  destruct Hgraft as (d & np & Hd & Hpar & Hnp & Hb & Hempty & ->).
  intros Hn. simpl. assert (p ≠ b) by congruence.
  rewrite lookup_insert_ne by congruence.
  destruct (decide (p = parent)) as [->|Hne].
  - rewrite lookup_insert_eq. eexists. split; [reflexivity|].
    assert (n = np) as -> by congruence. simpl.
    split; [reflexivity|]. split; [reflexivity|].
    split; [intros; contradiction|reflexivity].
  - rewrite lookup_insert_ne by congruence. exists n.
    split; [exact Hn|]. split; [reflexivity|]. split; [reflexivity|].
    split; [reflexivity|intros; contradiction].
Qed.

Lemma grafted_lookup_new :
  RRT.store this' !! b = Some (Tree.mk c (Some parent) []).
Proof.
  destruct Hgraft as (d & np & Hd & Hpar & Hnp & Hb & Hempty & ->).
  simpl. apply lookup_insert_eq.
Qed.

Lemma grafted_fields :
  RRT.m_data this' = RRT.m_data this ∧ RRT.m_start this' = RRT.m_start this
  ∧ RRT.m_end this' = RRT.m_end this ∧ RRT.m_tree this' = RRT.m_tree this
  ∧ RRT.m_sampleDistance this' = RRT.m_sampleDistance this
  ∧ RRT.m_branchDistance this' = RRT.m_branchDistance this
  ∧ length (RRT.m_nodes this') = length (RRT.m_nodes this).
Proof.
  destruct Hgraft as (d & np & Hd & Hpar & Hnp & Hb & Hempty & ->).
  simpl. rewrite length_insert. repeat split; reflexivity.
Qed.

Lemma grafted_parent_registered :
  sessionInvariant this → registered this parent.
Proof.
  intros (d & root & Hd & Hroot & Hreg & _).
  destruct Hgraft as (d' & np & Hd' & Hpar & _).
  destruct Hpar as [Hp|Hp]; [|exact Hp]. congruence.
Qed.

Lemma grafted_new_registered : registered this' b.
Proof.
  destruct Hgraft as (d & np & Hd & Hpar & Hnp & Hb & Hempty & ->).
  exists (Z.to_nat (LevelData.flatIndex d c)). simpl.
  apply list_lookup_insert_eq. eapply lookup_lt_Some. exact Hempty.
Qed.

Lemma grafted_kinship : sessionInvariant this → kinship this → kinship this'.
Proof.
  intros Hinv (root & nr & Htree & Hnr & Hrootp & Hrootd & Hclean & Hdown & Hup).
  pose proof (grafted_parent_registered Hinv) as Hparent.
  pose proof grafted_new_registered as Hbreg.
  pose proof grafted_lookup_new as Hnew.
  pose proof grafted_fields as (_ & Hstart & _ & Htree' & _).
  destruct Hinv as (d & root0 & Hd & Hroot0 & Hreg & Hfile & Hkids & Hin).
  assert (root0 = root) as -> by congruence.
  assert (Hlive : ∀ p, registered this p → ∃ n, RRT.store this !! p = Some n).
  { intros p [i Hi]. destruct (Hfile i p Hi) as (n & Hn & _). eauto. }
  assert (Hfreshb : RRT.store this !! b = None)
    by (destruct Hgraft as (? & ? & _ & _ & _ & Hb & _); exact Hb).
  assert (Hold : ∀ p, registered this p → p ≠ b).
  { intros p Hp ->. destruct (Hlive b Hp) as [n Hn]. congruence. }
  destruct (grafted_lookup_kept root nr Hnr) as (nr' & Hnr' & Hd' & Hp' & _ & _).
  exists root, nr'.
  split; [congruence|]. split; [exact Hnr'|]. split; [congruence|].
  split; [congruence|]. split; [|split].
  - intros p n Hp Hn. destruct (grafted_registered_inv this this' parent b c Hgraft p Hp)
      as [->|Hp0].
    + rewrite Hnew in Hn. injection Hn as <-. simpl.
      split; [apply not_elem_of_nil|apply NoDup_nil_2].
    + destruct (Hlive p Hp0) as [n0 Hn0].
      destruct (grafted_lookup_kept p n0 Hn0) as (n' & Hn' & _ & _ & Hsame & Hext).
      assert (n' = n) as -> by congruence.
      destruct (Hclean p n0 Hp0 Hn0) as [Hnull Hdup].
      destruct (decide (p = parent)) as [->|Hne].
      * rewrite (Hext eq_refl). split.
        -- rewrite elem_of_app, list_elem_of_singleton. intros [H|H]; [auto|discriminate].
        -- apply NoDup_app. split; [exact Hdup|]. split; [|apply NoDup_singleton].
           intros x Hx Hx'. apply list_elem_of_singleton in Hx' as ->.
           destruct (Hdown parent n0 b Hp0 Hn0 Hx) as (m & Hm & _). congruence.
      * rewrite (Hsame Hne). auto.
  - intros p n q Hp Hn Hq.
    destruct (grafted_registered_inv this this' parent b c Hgraft p Hp) as [->|Hp0].
    + rewrite Hnew in Hn. injection Hn as <-. simpl in Hq.
      apply elem_of_nil in Hq. contradiction.
    + destruct (Hlive p Hp0) as [n0 Hn0].
      destruct (grafted_lookup_kept p n0 Hn0) as (n' & Hn' & _ & _ & Hsame & Hext).
      assert (n' = n) as -> by congruence.
      assert (Holdq : Some q ∈ Tree.m_branches n0 →
                      ∃ m, RRT.store this' !! q = Some m ∧ Tree.m_parent m = Some p).
      { intros Hq0. destruct (Hdown p n0 q Hp0 Hn0 Hq0) as (m & Hm & Hmp).
        destruct (grafted_lookup_kept q m Hm) as (m' & Hm' & _ & Hmp' & _).
        exists m'. split; [exact Hm'|congruence]. }
      destruct (decide (p = parent)) as [->|Hne].
      * rewrite (Hext eq_refl) in Hq. apply elem_of_app in Hq as [Hq|Hq]; [auto|].
        apply list_elem_of_singleton in Hq. injection Hq as ->.
        eexists. split; [exact Hnew|reflexivity].
      * rewrite (Hsame Hne) in Hq. auto.
  - intros q m Hq Hm Hne.
    destruct (grafted_registered_inv this this' parent b c Hgraft q Hq) as [->|Hq0].
    + rewrite Hnew in Hm. injection Hm as <-. simpl.
      destruct (Hlive parent Hparent) as [np Hnp].
      destruct (grafted_lookup_kept parent np Hnp) as (np' & Hnp' & _ & _ & _ & Hext).
      exists parent, np'. split; [reflexivity|].
      split; [exact (grafted_registered this this' parent b c Hgraft parent Hparent)|].
      split; [exact Hnp'|]. rewrite (Hext eq_refl).
      apply elem_of_app. right. apply list_elem_of_singleton. reflexivity.
    + destruct (Hlive q Hq0) as [m0 Hm0].
      destruct (grafted_lookup_kept q m0 Hm0) as (m' & Hm' & _ & Hmp & _).
      assert (m' = m) as -> by congruence.
      destruct (Hup q m0 Hq0 Hm0 Hne) as (p & n & Hpar & Hp & Hn & Hin').
      destruct (grafted_lookup_old this this' parent b c Hgraft p n Hn)
        as (n' & Hn' & _ & Hsub).
      exists p, n'. split; [congruence|].
      split; [exact (grafted_registered this this' parent b c Hgraft p Hp)|].
      split; [exact Hn'|]. exact (Hsub q Hin').
Qed.
End graft_kin.

Lemma reachable_kinship (this : RRT.t) : reachable this → kinship this.
Proof.
  induction 1 as [r d start end_ this Hprep|this fuel rx ry this' Hreach IH Hgen].
  - exact (prepareTree_kinship r d start end_ this Hprep).
  - destruct (generateBranch_Done fuel this this' rx ry Hgen)
      as [->|(parent & b & c & Hgraft)]; [exact IH|].
    exact (grafted_kinship this this' parent b c Hgraft
             (reachable_invariant this Hreach) IH).
Qed.

Lemma reachable_inTree_registered (this : RRT.t) (root p : addr) :
  reachable this → RRT.m_tree this = Some root →
  (registered this p ↔ Tree.inTree (RRT.store this) root p).
Proof.
  intros Hreach Htree.
  destruct (reachable_invariant this Hreach)
    as (d & root0 & Hd & Hroot0 & Hreg & Hfile & Hkids & Hin).
  assert (root0 = root) as -> by congruence.
  split; [apply Hin|]. exact (inTree_registered this root Hreg Hkids p).
Qed.

Lemma reachable_registered_live (this : RRT.t) (p : addr) :
  reachable this → registered this p → ∃ n, RRT.store this !! p = Some n.
Proof.
  intros Hreach [i Hi].
  destruct (reachable_invariant this Hreach) as (d & root & _ & _ & _ & Hfile & _).
  destruct (Hfile i p Hi) as (n & Hn & _). eauto.
Qed.

(** X2: in every state reached by [prepareTree] followed by calls of
    [generateBranch], the parent pointers and the branch vectors of the tree
    agree. The root has no parent and holds the start. Every node of the
    tree is allocated; its branch vector holds no null pointer and no
    pointer twice; each pointer in it leads to a node whose parent pointer
    leads back; and a node other than the root is among the branches of the
    node of the tree its parent pointer names. *)
Theorem parent_pointers_agree (this : RRT.t) :
  reachable this →
  ∃ root nr,
    RRT.m_tree this = Some root ∧ RRT.store this !! root = Some nr ∧
    Tree.m_parent nr = None ∧ Tree.m_data nr = RRT.m_start this ∧
    ∀ q, Tree.inTree (RRT.store this) root q →
      ∃ m, RRT.store this !! q = Some m ∧
        (None ∉ Tree.m_branches m) ∧ NoDup (Tree.m_branches m) ∧
        (∀ c, Some c ∈ Tree.m_branches m →
           ∃ mc, RRT.store this !! c = Some mc ∧ Tree.m_parent mc = Some q) ∧
        (q ≠ root →
           ∃ p n, Tree.m_parent m = Some p ∧ Tree.inTree (RRT.store this) root p ∧
                  RRT.store this !! p = Some n ∧ Some q ∈ Tree.m_branches n).
Proof.
  intros Hreach.
  destruct (reachable_kinship this Hreach)
    as (root & nr & Htree & Hnr & Hrootp & Hrootd & Hclean & Hdown & Hup).
  exists root, nr. repeat (split; [assumption|]).
  intros q Hq.
  apply (reachable_inTree_registered this root q Hreach Htree) in Hq.
  destruct (reachable_registered_live this q Hreach Hq) as [m Hm].
  exists m. split; [exact Hm|].
  destruct (Hclean q m Hq Hm) as [Hnull Hdup].
  split; [exact Hnull|]. split; [exact Hdup|]. split.
  - intros c Hc. exact (Hdown q m c Hq Hm Hc).
  - intros Hne. destruct (Hup q m Hq Hm Hne) as (p & n & Hpar & Hp & Hn & Hin).
    exists p, n. split; [exact Hpar|].
    split; [apply (reachable_inTree_registered this root p Hreach Htree); exact Hp|].
    auto.
Qed.

Lemma reachable_grown5 : reachable grown5.
Proof.
  exact (reachable_generate session5 61 4 4 grown5 reachable_session5 generate_grown5).
Qed.

Lemma parent_pointers_agree_witness :
  ∃ root nr,
    RRT.m_tree grown5 = Some root ∧ RRT.store grown5 !! root = Some nr ∧
    Tree.m_parent nr = None ∧ Tree.m_data nr = RRT.m_start grown5 ∧
    ∀ q, Tree.inTree (RRT.store grown5) root q →
      ∃ m, RRT.store grown5 !! q = Some m ∧
        (None ∉ Tree.m_branches m) ∧ NoDup (Tree.m_branches m) ∧
        (∀ c, Some c ∈ Tree.m_branches m →
           ∃ mc, RRT.store grown5 !! c = Some mc ∧ Tree.m_parent mc = Some q) ∧
        (q ≠ root →
           ∃ p n, Tree.m_parent m = Some p ∧ Tree.inTree (RRT.store grown5) root p ∧
                  RRT.store grown5 !! p = Some n ∧ Some q ∈ Tree.m_branches n).
Proof. exact (parent_pointers_agree grown5 reachable_grown5). Defined.

(** ** The goal and the tree *)

(** X3: in a session opened within the precondition of [prepareTree],
    [hasFinished] returns, and it returns true exactly when a node of the
    tree holds the goal coordinate: the slot of the start is always occupied
    by the root. *)
Theorem hasFinished_iff_goal_in_tree (this : RRT.t) :
  session this →
  ∃ b, RRT.hasFinished this = Done b ∧
    (b = true ↔ ∃ p, treeNode this p (RRT.m_end this)).
Proof.
  intros Hsession. pose proof (session_reachable this Hsession) as Hreach.
  destruct (session_wellFormed this Hsession) as [d Hform].
  pose proof Hform as (Hd & Hwf & Hs & He & Hlen & Hreg & root & Htree & Hroot).
  destruct (reachable_invariant this Hreach)
    as (d0 & root0 & Hd0 & Hroot0 & _ & Hfile & Hkids & Hin).
  assert (d0 = d) as -> by congruence. assert (root0 = root) as -> by congruence.
  destruct (reachable_kinship this Hreach)
    as (root1 & nr & Htree1 & Hnr & _ & Hrootd & _).
  assert (root1 = root) as -> by congruence.
  destruct (hasFinished_value this d Hd (slot_in_range this d _ Hform Hs)
              (slot_in_range this d _ Hform He)) as (b & Hb & Hiff).
  exists b. split; [exact Hb|]. rewrite Hiff. split.
  - intros [_ [p Hp]]. exists p.
    destruct (Hfile _ p Hp) as (n & Hn & Hflat).
    destruct (Hreg _ p Hp) as (n' & Hn' & Hbounds).
    assert (n' = n) as -> by congruence.
    exists root, n. split; [exact Htree|].
    split; [apply Hin; eexists; exact Hp|]. split; [exact Hn|].
    apply (flatIndex_inj d _ _ Hwf Hbounds He).
    pose proof (to_uint_nonneg (sf.x (Tree.m_data n)
                                + sf.y (Tree.m_data n) * LevelData.m_width d)).
    pose proof (to_uint_nonneg (sf.x (RRT.m_end this)
                                + sf.y (RRT.m_end this) * LevelData.m_width d)).
    unfold LevelData.flatIndex in *. lia.
  - intros (p & root' & n & Htree' & Hp & Hn & Hc).
    assert (root' = root) as -> by congruence. split.
    + exists root. destruct Hroot as [i Hi].
      destruct (Hfile i root Hi) as (n0 & Hn0 & Hflat).
      assert (n0 = nr) as -> by congruence. rewrite Hrootd in Hflat.
      rewrite Hflat. exact Hi.
    + exists p.
      apply (reachable_inTree_registered this root p Hreach Htree) in Hp.
      destruct Hp as [i Hi]. destruct (Hfile i p Hi) as (n0 & Hn0 & Hflat).
      assert (n0 = n) as -> by congruence. rewrite Hc in Hflat.
      rewrite Hflat. exact Hi.
Qed.

Lemma session_grown5 : session grown5.
Proof. exact (session_generate session5 61 4 4 grown5 session_session5 generate_grown5). Qed.

Lemma hasFinished_iff_goal_in_tree_witness :
  ∃ b, RRT.hasFinished grown5 = Done b ∧
    (b = true ↔ ∃ p, treeNode grown5 p (RRT.m_end grown5)).
Proof. exact (hasFinished_iff_goal_in_tree grown5 session_grown5). Defined.

(** ** The terrain under the tree *)

(** What the sampling loop hands back is what it was given, or a candidate
    that differs from the start and passed the validity test. *)
Lemma sampleLoop_accepts (this : RRT.t) (start end_ : sf.Vector2i) (base : TileType)
    (magnitude : spec_float) :
  ∀ (fuel : nat) (current : spec_float) (h0 : gmap addr (Tree.t sf.Vector2i))
    (r : option sf.Vector2i) out,
    RRT.sampleLoop fuel this start end_ base magnitude
                   (handBack h0 r).1 (handBack h0 r).2 current = Done out →
    ∃ r', out = handBack h0 r'
          ∧ (r' = r ∨ ∃ c, r' = Some c ∧ c ≠ start
                           ∧ RRT.isValidTile this c base = Done true).
Proof.
  induction fuel as [|fuel IH]; intros current h0 r out H; [discriminate|].
  simpl in H. destruct (RRT.sampling this magnitude current).
  2:{ exists r. split; [|left; reflexivity]. destruct r; simpl in *; congruence. }
  set (next := RRT.advance this magnitude current) in *.
  set (inc := RRT.lerp start end_ (F32.div next magnitude)) in *.
  destruct (sf.neq inc start) eqn:Hmove.
  2:{ exact (IH next h0 r out H). }
  apply neq_true_iff in Hmove.
  destruct (RRT.isValidTile this inc base) as [[|]| | |] eqn:Hvalid;
    simpl in H; try discriminate.
  - assert (Hstep : RRT.sampleLoop fuel this start end_ base magnitude
                      (handBack h0 (Some inc)).1 (handBack h0 (Some inc)).2 next
                    = Done out).
    { rewrite <- H. destruct r as [v|]; simpl;
        unfold Tree.setData, Tree.deref; rewrite lookup_insert_eq; simpl;
        rewrite insert_insert_eq; reflexivity. }
    destruct (IH next h0 (Some inc) out Hstep) as (r' & Hout & Hr').
    exists r'. split; [exact Hout|]. right.
    destruct Hr' as [->|Hlater]; [|exact Hlater]. exists inc. auto.
  - exists r. split; [|left; reflexivity]. destruct r; simpl in *; congruence.
Qed.

Lemma calculateBranch_Done_valid (fuel : nat) (this : RRT.t) (start end_ : sf.Vector2i)
    (h1 : gmap addr (Tree.t sf.Vector2i)) (b : addr) :
  RRT.calculateBranch fuel this start end_ = Done (h1, Some b) →
  ∃ d base c,
    RRT.m_data this = Some d
    ∧ LevelData.getTile d (to_uint (sf.x start)) (to_uint (sf.y start)) = Done base
    ∧ (h1, Some b) = handBack (RRT.store this) (Some c)
    ∧ c ≠ start ∧ RRT.isValidTile this c base = Done true.
Proof.
  unfold RRT.calculateBranch. intros H.
  bind_inv H as d Hd. bind_inv H as base Hbase.
  destruct (sampleLoop_accepts this start end_ base (RRT.magnitudeOf start end_)
              fuel F32.zero (RRT.store this) None (h1, Some b) H)
    as (r' & Hout & Hr').
  destruct Hr' as [->|(c & -> & Hne & Hvalid)]; [discriminate|].
  exists d, base, c. split; [|auto].
  unfold RRT.level in Hd. destruct (RRT.m_data this); congruence.
Qed.

(** A call that returns has changed nothing, or grafted a node whose
    coordinate is valid for the terrain at its parent. *)
Lemma generateBranch_Done_valid (fuel : nat) (this this' : RRT.t) (rx ry : Z) :
  RRT.generateBranch fuel this rx ry = Done this' →
  this' = this
  ∨ ∃ parent b c d np base,
      grafted this this' parent b c
      ∧ RRT.m_data this = Some d ∧ RRT.store this !! parent = Some np
      ∧ LevelData.getTile d (to_uint (sf.x (Tree.m_data np)))
                            (to_uint (sf.y (Tree.m_data np))) = Done base
      ∧ RRT.isValidTile this c base = Done true
      ∧ c ≠ Tree.m_data np.
Proof.
  unfold RRT.generateBranch. intros H. bind_inv H as finished Hfinished.
  destruct (negb finished && sf.neq (RRT.m_start this) (RRT.m_end this));
    [|left; congruence].
  bind_inv H as d Hd. bind_inv H as u Hu. bind_inv H as slot Hslot.
  destruct slot as [|]; [left; congruence|].
  bind_inv H as nearest Hnearest. bind_inv H as nearData Hnearest0.
  bind_inv H as result Hresult. destruct result as [h1 branch].
  destruct branch as [b|].
  2:{ left. destruct (calculateBranch_Done _ _ _ _ _ _ Hresult) as (r & Hr & _).
      destruct r as [c|]; simpl in Hr; [discriminate|]. injection Hr as ->.
      rewrite with_store_same in H. congruence. }
  destruct (calculateBranch_Done_valid _ _ _ _ _ _ Hresult)
    as (d' & base & c & Hd' & Hbase & Hr & Hne & Hvalid).
  simpl in Hr. injection Hr as -> ->.
  pose proof (fresh_unused (RRT.store this)) as Hfresh.
  set (b := fresh (dom (RRT.store this))) in *.
  unfold Tree.getData, Tree.deref in H. rewrite lookup_insert_eq in H. simpl in H.
  bind_inv H as occupiedSlot HoccupiedSlot. destruct occupiedSlot as [|].
  { left. rewrite delete_insert_eq, delete_id in H by exact Hfresh.
    rewrite with_store_same in H. congruence. }
  destruct nearest as [parent|]; [|discriminate]. simpl in H.
  unfold Tree.getData, Tree.deref in Hnearest0.
  destruct (RRT.store this !! parent) as [np|] eqn:Hnp; [|discriminate].
  injection Hnearest0 as <-.
  assert (Hpb : parent ≠ b) by (intros ->; congruence).
  unfold Tree.addBranch, Tree.deref in H.
  rewrite lookup_insert_ne in H by congruence. rewrite Hnp in H. simpl in H.
  unfold Tree.setParent, Tree.deref in H.
  rewrite lookup_insert_ne in H by congruence.
  rewrite lookup_insert_eq in H. simpl in H.
  assert (d = d') as <-.
  { unfold RRT.level in Hd. destruct (RRT.m_data this); congruence. }
  right. exists parent, b, c, d, np, base.
  split; [|auto].
  exists d, np. split; [exact Hd'|]. split.
  { unfold RRT.determineNearest in Hnearest.
    destruct (nearestLoop_result _ _ _ _ _ _ Hnearest) as [Hroot|(i & p & Hi & Hp)].
    - left. congruence.
    - right. exists i. congruence. }
  split; [exact Hnp|]. split; [exact Hfresh|].
  split; [exact (nodeAt_Done _ _ _ HoccupiedSlot)|].
  injection H as <-. unfold LevelData.flatIndex, LevelData.getWidth.
  f_equal. f_equal.
  rewrite (insert_insert_ne (RRT.store this) parent b) by congruence.
  rewrite insert_insert_eq. reflexivity.
Qed.

Lemma isValidTile_same_level (this this' : RRT.t) (c : sf.Vector2i) (base : TileType) :
  RRT.m_data this' = RRT.m_data this →
  RRT.isValidTile this' c base = RRT.isValidTile this c base.
Proof. intros H. unfold RRT.isValidTile, RRT.level. rewrite H. reflexivity. Qed.

Lemma prepareTree_passable (r : RRT.t) (d : LevelData.t) (start end_ : sf.Vector2i)
    (this : RRT.t) :
  RRT.prepareTree r d start end_ = Done this → passableEdges this.
Proof.
  intros Hrun.
  destruct (prepareTree_Done r d start end_ this Hrun) as (root & h & -> & Hroot & Hslot).
  exists d. split; [reflexivity|]. simpl.
  intros p n q m [i Hi] Hn Hq. simpl in Hi.
  apply lookup_single_slot in Hi as (-> & -> & _).
  rewrite Hroot in Hn. injection Hn as <-. simpl in Hq.
  apply elem_of_nil in Hq. contradiction.
Qed.

Lemma generateBranch_passable (fuel : nat) (this this' : RRT.t) (rx ry : Z) :
  reachable this → passableEdges this →
  RRT.generateBranch fuel this rx ry = Done this' → passableEdges this'.
Proof.
  intros Hreach (d & Hd & Hedges) Hgen.
  destruct (generateBranch_Done_valid fuel this this' rx ry Hgen)
    as [->|(parent & b & c & d' & np & base & Hgraft & Hd' & Hnp & Hbase & Hvalid & Hne)].
  { exists d. auto. }
  assert (d' = d) as -> by congruence.
  pose proof (grafted_fields this this' parent b c Hgraft) as (Hdata & _).
  pose proof (grafted_lookup_new this this' parent b c Hgraft) as Hnew.
  assert (Hfreshb : RRT.store this !! b = None)
    by (destruct Hgraft as (? & ? & _ & _ & _ & Hb & _); exact Hb).
  destruct (reachable_invariant this Hreach)
    as (d0 & root & _ & _ & _ & _ & Hkids & _).
  exists d. split; [congruence|].
  intros p n q m Hp Hn Hq Hm.
  assert (Hconv : ∀ c0 base0, RRT.isValidTile this c0 base0 = Done true →
                              RRT.isValidTile this' c0 base0 = Done true).
  { intros c0 base0 H0. rewrite (isValidTile_same_level this this' _ _ Hdata).
    exact H0. }
  destruct (grafted_registered_inv this this' parent b c Hgraft p Hp) as [->|Hp0].
  { rewrite Hnew in Hn. injection Hn as <-. simpl in Hq.
    apply elem_of_nil in Hq. contradiction. }
  destruct (reachable_registered_live this p Hreach Hp0) as [n0 Hn0].
  destruct (grafted_lookup_kept this this' parent b c Hgraft p n0 Hn0)
    as (n' & Hn' & Hdn & _ & Hsame & Hext).
  assert (n' = n) as -> by congruence. rewrite Hdn.
  assert (Holdq : Some q ∈ Tree.m_branches n0 →
            ∃ base0,
              LevelData.getTile d (to_uint (sf.x (Tree.m_data n0)))
                                  (to_uint (sf.y (Tree.m_data n0))) = Done base0
              ∧ RRT.isValidTile this' (Tree.m_data m) base0 = Done true
              ∧ Tree.m_data m ≠ Tree.m_data n0).
  { intros Hq0.
    destruct (reachable_registered_live this q Hreach (Hkids p n0 q Hp0 Hn0 Hq0))
      as [m0 Hm0].
    destruct (grafted_lookup_kept this this' parent b c Hgraft q m0 Hm0)
      as (m' & Hm' & Hdm & _).
    assert (m' = m) as -> by congruence. rewrite Hdm.
    destruct (Hedges p n0 q m0 Hp0 Hn0 Hq0 Hm0) as (base0 & H1 & H2 & H3).
    exists base0. auto. }
  destruct (decide (p = parent)) as [->|Hpp].
  - rewrite (Hext eq_refl) in Hq. apply elem_of_app in Hq as [Hq|Hq]; [auto|].
    apply list_elem_of_singleton in Hq. injection Hq as ->.
    rewrite Hnew in Hm. injection Hm as <-. simpl.
    assert (n0 = np) as -> by congruence. exists base. auto.
  - rewrite (Hsame Hpp) in Hq. auto.
Qed.

Lemma reachable_passable (this : RRT.t) : reachable this → passableEdges this.
Proof.
  induction 1 as [r d start end_ this Hprep|this fuel rx ry this' Hreach IH Hgen].
  - exact (prepareTree_passable r d start end_ this Hprep).
  - exact (generateBranch_passable fuel this this' rx ry Hreach IH Hgen).
Qed.

(** The category the validity test accepted, read off its result. *)
Lemma isValidTile_true (this : RRT.t) (d : LevelData.t) (c : sf.Vector2i)
    (base type : TileType) :
  RRT.m_data this = Some d →
  LevelData.getTile d (to_uint (sf.x c)) (to_uint (sf.y c)) = Done type →
  RRT.isValidTile this c base = Done true →
  type ≠ OutOfBounds ∧ type ≠ Tree
  ∧ (base = Water → type = Water) ∧ (land base → land type).
Proof.
  intros Hd Hget H. unfold RRT.isValidTile, RRT.level in H.
  rewrite Hd in H. simpl in H. rewrite Hget in H. simpl in H.
  unfold land.
  destruct base, type; simpl in H; try discriminate;
    repeat split; try discriminate; try tauto;
    intros [?|?]; discriminate.
Qed.

(** X4: in a session opened within the precondition of [prepareTree], the
    tree only grows where the terrain lets it. The root is where
    [prepareTree] was told to start, whatever the tile there. Every node
    other than the root is the child of a node of the tree, its coordinate
    differs from its parent's and passed [isValidTile] for the terrain
    category at its parent; so no node other than the root lies on an
    OutOfBounds or Tree tile. And the medium of the root is kept throughout
    the tree: rooted on Water, every node is on Water; rooted on Terrain or
    Swamp, every node is on Terrain or Swamp. *)
Theorem tree_grows_on_passable_tiles (this : RRT.t) :
  session this →
  ∃ d root nr rootType,
    RRT.m_data this = Some d ∧ RRT.m_tree this = Some root
    ∧ RRT.store this !! root = Some nr
    ∧ terrainAt d (Tree.m_data nr) = Some rootType
    ∧ (∀ q m, Tree.inTree (RRT.store this) root q → q ≠ root →
         RRT.store this !! q = Some m →
         ∃ p n base type,
           Tree.inTree (RRT.store this) root p ∧ RRT.store this !! p = Some n
           ∧ Some q ∈ Tree.m_branches n
           ∧ terrainAt d (Tree.m_data n) = Some base
           ∧ terrainAt d (Tree.m_data m) = Some type
           ∧ RRT.isValidTile this (Tree.m_data m) base = Done true
           ∧ Tree.m_data m ≠ Tree.m_data n
           ∧ type ≠ OutOfBounds ∧ type ≠ Tree)
    ∧ (∀ q m, Tree.inTree (RRT.store this) root q → RRT.store this !! q = Some m →
         ∃ type, terrainAt d (Tree.m_data m) = Some type
                 ∧ (rootType = Water → type = Water)
                 ∧ (land rootType → land type)).
Proof.
  intros Hsession. pose proof (session_reachable this Hsession) as Hreach.
  destruct (session_wellFormed this Hsession) as [d Hform].
  pose proof Hform as (Hd & Hwf & Hs & He & Hlen & Hreg & root & Htree & Hroot).
  destruct (reachable_kinship this Hreach)
    as (root1 & nr & Htree1 & Hnr & _ & Hrootd & _ & Hdown & Hup).
  assert (root1 = root) as -> by congruence.
  destruct (reachable_passable this Hreach) as (d1 & Hd1 & Hedges).
  assert (d1 = d) as -> by congruence.
  assert (Hbounds : ∀ p n, registered this p → RRT.store this !! p = Some n →
                      LevelData.inBounds d (Tree.m_data n)).
  { intros p n [i Hi] Hn. destruct (Hreg i p Hi) as (n' & Hn' & Hin). congruence. }
  assert (Htile : ∀ p n, registered this p → RRT.store this !! p = Some n →
            ∃ type, terrainAt d (Tree.m_data n) = Some type
                    ∧ LevelData.getTile d (to_uint (sf.x (Tree.m_data n)))
                                          (to_uint (sf.y (Tree.m_data n))) = Done type).
  { intros p n Hp Hn. exact (getTile_inBounds d _ Hwf (Hbounds p n Hp Hn)). }
  assert (Hedge : ∀ p n q m, registered this p → RRT.store this !! p = Some n →
            Some q ∈ Tree.m_branches n → RRT.store this !! q = Some m →
            ∃ base type,
              terrainAt d (Tree.m_data n) = Some base
              ∧ terrainAt d (Tree.m_data m) = Some type
              ∧ RRT.isValidTile this (Tree.m_data m) base = Done true
              ∧ Tree.m_data m ≠ Tree.m_data n
              ∧ type ≠ OutOfBounds ∧ type ≠ Tree
              ∧ (base = Water → type = Water) ∧ (land base → land type)).
  { intros p n q m Hp Hn Hq Hm.
    destruct (Hedges p n q m Hp Hn Hq Hm) as (base & Hbase & Hvalid & Hne).
    destruct (Htile p n Hp Hn) as (base' & Htb & Hgb).
    assert (base' = base) as -> by congruence.
    assert (Hqreg : registered this q).
    { destruct (reachable_invariant this Hreach) as (? & ? & _ & _ & _ & _ & Hkids & _).
      exact (Hkids p n q Hp Hn Hq). }
    destruct (Htile q m Hqreg Hm) as (type & Htt & Hgt).
    exists base, type.
    destruct (isValidTile_true this d _ base type Hd Hgt Hvalid) as (H1 & H2 & H3 & H4).
    repeat (split; [assumption|]). assumption. }
  destruct (Htile root nr Hroot Hnr) as (rootType & Hrt & _).
  exists d, root, nr, rootType. repeat (split; [assumption|]). split.
  - intros q m Hq Hne Hm.
    apply (reachable_inTree_registered this root q Hreach Htree) in Hq.
    destruct (Hup q m Hq Hm Hne) as (p & n & _ & Hp & Hn & Hin).
    destruct (Hedge p n q m Hp Hn Hin Hm)
      as (base & type & H1 & H2 & H3 & H4 & H5 & H6 & _).
    exists p, n, base, type.
    split; [apply (reachable_inTree_registered this root p Hreach Htree); exact Hp|].
    repeat (split; [assumption|]). assumption.
  - intros q m Hq. revert m. induction Hq as [|p n q Hp IH Hn Hq]; intros m Hm.
    + assert (m = nr) as -> by congruence. exists rootType. auto.
    + destruct (IH n Hn) as (base & Hbase & Hwater & Hland).
      apply (reachable_inTree_registered this root p Hreach Htree) in Hp.
      destruct (Hedge p n q m Hp Hn Hq Hm)
        as (base' & type & H1 & H2 & _ & _ & _ & _ & H7 & H8).
      assert (base' = base) as -> by congruence.
      exists type. split; [exact H2|]. split; auto.
Qed.

Lemma tree_grows_on_passable_tiles_witness :
  ∃ d root nr rootType,
    RRT.m_data grown5 = Some d ∧ RRT.m_tree grown5 = Some root
    ∧ RRT.store grown5 !! root = Some nr
    ∧ terrainAt d (Tree.m_data nr) = Some rootType
    ∧ (∀ q m, Tree.inTree (RRT.store grown5) root q → q ≠ root →
         RRT.store grown5 !! q = Some m →
         ∃ p n base type,
           Tree.inTree (RRT.store grown5) root p ∧ RRT.store grown5 !! p = Some n
           ∧ Some q ∈ Tree.m_branches n
           ∧ terrainAt d (Tree.m_data n) = Some base
           ∧ terrainAt d (Tree.m_data m) = Some type
           ∧ RRT.isValidTile grown5 (Tree.m_data m) base = Done true
           ∧ Tree.m_data m ≠ Tree.m_data n
           ∧ type ≠ OutOfBounds ∧ type ≠ Tree)
    ∧ (∀ q m, Tree.inTree (RRT.store grown5) root q → RRT.store grown5 !! q = Some m →
         ∃ type, terrainAt d (Tree.m_data m) = Some type
                 ∧ (rootType = Water → type = Water)
                 ∧ (land rootType → land type)).
Proof. exact (tree_grows_on_passable_tiles grown5 session_grown5). Defined.

(** [prepareTree] does not look at the terrain of the start: a session can
    be rooted on a Tree tile. *)
Example session_rooted_on_tree :
  ∃ this root nr,
    RRT.prepareTree engine corridor (sf.mkVector2i 2 0) (sf.mkVector2i 4 0) = Done this
    ∧ session this ∧ RRT.m_tree this = Some root
    ∧ RRT.store this !! root = Some nr
    ∧ terrainAt corridor (Tree.m_data nr) = Some Tree.
Proof.
  eexists. exists 1%nat. eexists.
  assert (Hwf : LevelData.wf corridor)
    by (split; vm_compute; try split; congruence).
  assert (Hrun : RRT.prepareTree engine corridor (sf.mkVector2i 2 0) (sf.mkVector2i 4 0)
                 = Done (RRT.mk (Some corridor) (sf.mkVector2i 2 0) (sf.mkVector2i 4 0)
                           quarter fifteen
                           (<[2%nat := Some 1%nat]> (replicate 5 None)) (Some 1%nat)
                           {[ 1%nat := Tree.mk (sf.mkVector2i 2 0) None [] ]}))
    by (vm_compute; reflexivity).
  split; [exact Hrun|]. split.
  - apply (session_prepare engine corridor (sf.mkVector2i 2 0) (sf.mkVector2i 4 0) _ Hwf);
      [unfold LevelData.inBounds; simpl; lia|unfold LevelData.inBounds; simpl; lia|].
    exact Hrun.
  - split; [reflexivity|]. split; reflexivity.
Qed.

(** ** Growth only adds *)

Lemma grafted_treeNode (this this' : RRT.t) (parent b : addr) (c : sf.Vector2i)
    (p : addr) (cp : sf.Vector2i) :
  grafted this this' parent b c → treeNode this p cp → treeNode this' p cp.
Proof.
  intros Hgraft (root & n & Htree & Hin & Hn & Hc).
  pose proof (grafted_fields this this' parent b c Hgraft) as (_ & _ & _ & Htree' & _).
  destruct (grafted_lookup_old this this' parent b c Hgraft p n Hn)
    as (n' & Hn' & Hdata & _).
  exists root, n'. split; [congruence|].
  split; [exact (grafted_inTree this this' parent b c Hgraft root p Hin)|].
  split; [exact Hn'|congruence].
Qed.

Lemma grafted_occupied (this this' : RRT.t) (parent b : addr) (c : sf.Vector2i) (i : Z) :
  grafted this this' parent b c →
  occupied (RRT.m_nodes this) i → occupied (RRT.m_nodes this') i.
Proof.
  intros Hgraft [p Hp].
  destruct (grafted_registered this this' parent b c Hgraft p (ex_intro _ _ Hp))
    as [j Hj].
  destruct Hgraft as (d & np & Hd & Hpar & Hnp & Hb & Hempty & ->).
  exists p. simpl. rewrite list_lookup_insert_ne; [exact Hp|].
  intros Heq. rewrite Heq in Hempty. congruence.
Qed.

(** X5: a run of [generateBranch] calls only ever adds to the tree. A node
    of the tree stays a node of the tree with the coordinate it had; an
    occupied slot stays occupied; the level, the start, the goal, the root,
    the two distances and the size of the occupancy index do not change. *)
Theorem growth_only_adds (this this' : RRT.t) (calls : list (nat * Z * Z)) :
  RRT.generateBranches this calls = Done this' →
  (∀ p c, treeNode this p c → treeNode this' p c)
  ∧ (∀ i, occupied (RRT.m_nodes this) i → occupied (RRT.m_nodes this') i)
  ∧ RRT.m_data this' = RRT.m_data this ∧ RRT.m_start this' = RRT.m_start this
  ∧ RRT.m_end this' = RRT.m_end this ∧ RRT.m_tree this' = RRT.m_tree this
  ∧ RRT.m_sampleDistance this' = RRT.m_sampleDistance this
  ∧ RRT.m_branchDistance this' = RRT.m_branchDistance this
  ∧ length (RRT.m_nodes this') = length (RRT.m_nodes this).
Proof.
  revert this. induction calls as [|[[fuel rx] ry] calls IH]; intros this H.
  - injection H as <-. repeat split; auto.
  - simpl in H. bind_inv H as mid Hmid.
    destruct (IH mid H) as (Hnode & Hocc & Hrest).
    destruct (generateBranch_Done fuel this mid rx ry Hmid)
      as [->|(parent & b & c & Hgraft)]; [auto|].
    pose proof (grafted_fields this mid parent b c Hgraft)
      as (H1 & H2 & H3 & H4 & H5 & H6 & H7).
    destruct Hrest as (G1 & G2 & G3 & G4 & G5 & G6 & G7).
    split; [intros p cp Hp; apply Hnode;
            exact (grafted_treeNode this mid parent b c p cp Hgraft Hp)|].
    split; [intros i Hi; apply Hocc;
            exact (grafted_occupied this mid parent b c i Hgraft Hi)|].
    repeat split; congruence.
Qed.

Lemma growth_only_adds_witness :
  (∀ p c, treeNode session5 p c → treeNode grown5 p c)
  ∧ (∀ i, occupied (RRT.m_nodes session5) i → occupied (RRT.m_nodes grown5) i)
  ∧ RRT.m_data grown5 = RRT.m_data session5 ∧ RRT.m_start grown5 = RRT.m_start session5
  ∧ RRT.m_end grown5 = RRT.m_end session5 ∧ RRT.m_tree grown5 = RRT.m_tree session5
  ∧ RRT.m_sampleDistance grown5 = RRT.m_sampleDistance session5
  ∧ RRT.m_branchDistance grown5 = RRT.m_branchDistance session5
  ∧ length (RRT.m_nodes grown5) = length (RRT.m_nodes session5).
Proof.
  apply (growth_only_adds session5 grown5 [(61%nat, 4, 4); (61%nat, 1, 2)]).
  vm_compute. reflexivity.
Defined.

(** ** What [prepareTree] releases *)

Lemma inTree_childless (h : gmap addr (Tree.t sf.Vector2i)) (root p : addr)
    (n : Tree.t sf.Vector2i) :
  h !! root = Some n → Tree.m_branches n = [] → Tree.inTree h root p → p = root.
Proof.
  intros Hn Hnil Hp. induction Hp as [|p m q _ IH Hm Hq]; [reflexivity|].
  subst p. assert (m = n) as -> by congruence. rewrite Hnil in Hq.
  apply elem_of_nil in Hq. contradiction.
Qed.

(** X6: opening a session releases one node only, the root of the engine's
    previous tree. [prepareTree] empties the branch vector of that root
    before the root is destroyed, so no other node is deleted: every other
    node that was allocated is still allocated and unchanged, although the
    new tree and the new occupancy index consist of the new root alone. *)
Theorem prepareTree_releases_only_old_root (r : RRT.t) (d : LevelData.t)
    (start end_ : sf.Vector2i) (this : RRT.t) (old : addr) :
  RRT.prepareTree r d start end_ = Done this → RRT.m_tree r = Some old →
  ∃ root,
    RRT.m_tree this = Some root ∧ root ≠ old ∧ RRT.store r !! root = None
    ∧ RRT.store this !! root = Some (Tree.mk start None [])
    ∧ RRT.store this !! old = None
    ∧ (∀ p, p ≠ old → p ≠ root → RRT.store this !! p = RRT.store r !! p)
    ∧ (∀ p, Tree.inTree (RRT.store this) root p → p = root)
    ∧ (∀ p, registered this p → p = root).
Proof.
  intros Hrun Htree. pose proof Hrun as H. unfold RRT.prepareTree in H.
  bind_inv H as u Hcond.
  destruct (RRT.prepareCondition d start end_) eqn:Hc; [|discriminate].
  rewrite Htree in H. simpl in H.
  bind_inv H as h1 Hclear. unfold Tree.clear, Tree.deref in Hclear.
  destruct (RRT.store r !! old) as [nold|] eqn:Hnold; [|discriminate].
  simpl in H. bind_inv H as h4 Hset. bind_inv H as slot Hslot.
  apply nodeAt_Done, lookup_lt_Some in Hslot. rewrite length_replicate in Hslot.
  rewrite (prepareTree_live r d start end_ old nold Htree Hnold Hc Hslot) in Hrun.
  injection Hrun as <-. simpl.
  set (hc := <[old := Tree.mk (Tree.m_data nold) (Tree.m_parent nold) []]> (RRT.store r)).
  set (root := fresh (dom hc)).
  assert (Hfresh : hc !! root = None) by apply fresh_unused.
  assert (Hne : root ≠ old).
  { intros Heq. rewrite Heq in Hfresh. unfold hc in Hfresh.
    rewrite lookup_insert_eq in Hfresh. discriminate. }
  assert (Hnew : RRT.store r !! root = None).
  { unfold hc in Hfresh. rewrite lookup_insert_ne in Hfresh by congruence.
    exact Hfresh. }
  exists root. split; [reflexivity|]. split; [exact Hne|]. split; [exact Hnew|].
  split; [apply lookup_insert_eq|].
  split; [rewrite lookup_insert_ne by congruence; apply lookup_delete_eq|].
  split; [|split].
  - intros p Hp Hp'. rewrite lookup_insert_ne by congruence.
    rewrite lookup_delete_ne by congruence. rewrite lookup_insert_ne by congruence.
    unfold hc. rewrite lookup_insert_ne by congruence. reflexivity.
  - intros p Hp.
    exact (inTree_childless _ root p (Tree.mk start None [])
             (lookup_insert_eq _ _ _) eq_refl Hp).
  - intros p [i Hi]. apply lookup_single_slot in Hi as (_ & -> & _). reflexivity.
Qed.

Example prepare_reopened5 :
  RRT.prepareTree grown5 (openLevel 5 5) (sf.mkVector2i 1 1) (sf.mkVector2i 3 3)
  = Done reopened5.
Proof. vm_compute. reflexivity. Qed.

Lemma prepareTree_releases_only_old_root_witness :
  ∃ root,
    RRT.m_tree reopened5 = Some root ∧ root ≠ 1%nat ∧ RRT.store grown5 !! root = None
    ∧ RRT.store reopened5 !! root = Some (Tree.mk (sf.mkVector2i 1 1) None [])
    ∧ RRT.store reopened5 !! 1%nat = None
    ∧ (∀ p, p ≠ 1%nat → p ≠ root → RRT.store reopened5 !! p = RRT.store grown5 !! p)
    ∧ (∀ p, Tree.inTree (RRT.store reopened5) root p → p = root)
    ∧ (∀ p, registered reopened5 p → p = root).
Proof.
  exact (prepareTree_releases_only_old_root grown5 (openLevel 5 5)
           (sf.mkVector2i 1 1) (sf.mkVector2i 3 3) reopened5 1%nat
           prepare_reopened5 eq_refl).
Defined.

(** The node (4,4) of the old tree has leaked: it is allocated, and neither
    registered nor in the new tree. *)
Example old_nodes_leak :
  RRT.store reopened5 !! 2%nat = Some (Tree.mk (sf.mkVector2i 4 4) (Some 1%nat) [])
  ∧ RRT.m_nodes reopened5 = <[6%nat := Some 3%nat]> (replicate 25 None)
  ∧ RRT.m_tree reopened5 = Some 3%nat.
Proof. repeat split. Qed.

(** ** Memory safety of a growth step *)

(** X7: memory safety of a growth step. In a session opened within the
    precondition of [prepareTree], a call of [generateBranch] whose sampling
    cursor halts either returns, and what it returns is a session state
    again, or stops on the assertion of [getTile]; it never indexes a vector
    out of range and never follows a null or dangling pointer. *)
Theorem generateBranch_memory_safe (this : RRT.t) (n fuel : nat) (rx ry : Z) :
  session this → cursorReaches this n → (n < fuel)%nat →
  (∃ this', RRT.generateBranch fuel this rx ry = Done this' ∧ session this')
  ∨ RRT.generateBranch fuel this rx ry = AssertFail.
Proof.
  intros Hsession Hreach Hfuel.
  destruct (session_wellFormed this Hsession) as [d Hform].
  pose proof (generateBranch_defined fuel this d rx ry Hform) as Hdefined.
  pose proof (generateBranch_fuelled this n fuel rx ry Hreach Hfuel) as Hfuelled.
  destruct (RRT.generateBranch fuel this rx ry) as [this'| | |] eqn:Hgen;
    [left|right; reflexivity|contradiction|contradiction].
  exists this'. split; [reflexivity|].
  exact (session_generate this fuel rx ry this' Hsession Hgen).
Qed.

Lemma generateBranch_memory_safe_witness :
  (∃ this', RRT.generateBranch 61 session5 4 4 = Done this' ∧ session this')
  ∨ RRT.generateBranch 61 session5 4 4 = AssertFail.
Proof.
  apply (generateBranch_memory_safe session5 60 61 4 4).
  - exact session_session5.
  - vm_compute. reflexivity.
  - lia.
Defined.

(** ** The branch vector of a node (Tree.hpp) *)

Section branches.
Context {T : Type}.
Implicit Types (h : gmap addr (Tree.t T)) (n : Tree.t T).

Lemma getBranchCount_live h (this : addr) n :
  h !! this = Some n → Z.of_nat (length (Tree.m_branches n)) < 4294967296 →
  Tree.getBranchCount h (Some this) = Done (Z.of_nat (length (Tree.m_branches n))).
Proof.
  intros Hn Hlen. unfold Tree.getBranchCount, Tree.deref. rewrite Hn. simpl.
  rewrite to_uint_small by lia. reflexivity.
Qed.

Lemma getBranch_live h (this : addr) n (i : nat) :
  h !! this = Some n → Z.of_nat (length (Tree.m_branches n)) < 4294967296 →
  Tree.getBranch h (Some this) (Z.of_nat i)
  = match Tree.m_branches n !! i with
    | Some b => Done b
    | None => AssertFail
    end.
Proof.
  intros Hn Hlen. unfold Tree.getBranch.
  rewrite (getBranchCount_live h this n Hn Hlen). simpl.
  destruct (Tree.m_branches n !! i) as [b|] eqn:Hb.
  - pose proof (lookup_lt_Some _ _ _ Hb).
    replace (Z.of_nat i <? Z.of_nat (length (Tree.m_branches n))) with true
      by (symmetry; apply Z.ltb_lt; lia).
    simpl. unfold Tree.deref. rewrite Hn. simpl. rewrite Nat2Z.id, Hb. reflexivity.
  - apply lookup_ge_None in Hb.
    replace (Z.of_nat i <? Z.of_nat (length (Tree.m_branches n))) with false
      by (symmetry; apply Z.ltb_ge; lia).
    reflexivity.
Qed.

(** The scan from position [k], no earlier slot holding the pointer, ends
    at the first slot that holds it, or at the size of the vector. *)
Lemma findIndexLoop_first (branches : list (option addr)) (branch : option addr) :
  Z.of_nat (length branches) < 4294967296 →
  ∀ (fuel k : nat),
    (k <= length branches)%nat → (length branches - k < fuel)%nat →
    (∀ j, (j < k)%nat → branches !! j ≠ Some branch) →
    ∃ r : nat,
      Tree.findIndexLoop fuel branches branch (Z.of_nat k) = Done (Z.of_nat r)
      ∧ (r <= length branches)%nat
      ∧ (∀ j, (j < r)%nat → branches !! j ≠ Some branch)
      ∧ ((r < length branches)%nat → branches !! r = Some branch).
Proof.
  intros Hlen. induction fuel as [|fuel IH]; intros k Hk Hfuel Hbefore; [lia|].
  simpl. destruct (Z.ltb_spec (Z.of_nat k) (Z.of_nat (length branches))) as [Hlt|Hge].
  - rewrite Nat2Z.id.
    destruct (branches !! k) as [b|] eqn:Hb;
      [|apply lookup_ge_None in Hb; lia].
    destruct (decide (b = branch)) as [->|Hne].
    + exists k. split; [reflexivity|]. split; [lia|]. split; [exact Hbefore|].
      intros _. exact Hb.
    + rewrite to_uint_small by lia.
      replace (Z.of_nat k + 1) with (Z.of_nat (S k)) by lia.
      apply IH; [lia|lia|]. intros j Hj.
      destruct (decide (j = k)) as [->|]; [congruence|]. apply Hbefore. lia.
  - exists k. split; [reflexivity|]. split; [lia|]. split; [exact Hbefore|]. lia.
Qed.

Lemma findIndex_live h (this : addr) n (branch : option addr) :
  h !! this = Some n → Z.of_nat (length (Tree.m_branches n)) < 4294967296 →
  ∃ r : nat,
    Tree.findIndex h (Some this) branch = Done (Z.of_nat r)
    ∧ (r <= length (Tree.m_branches n))%nat
    ∧ (∀ j, (j < r)%nat → Tree.m_branches n !! j ≠ Some branch)
    ∧ ((r < length (Tree.m_branches n))%nat → Tree.m_branches n !! r = Some branch).
Proof.
  intros Hn Hlen. unfold Tree.findIndex, Tree.deref. rewrite Hn. cbn [mbind outcome_bind].
  apply (findIndexLoop_first (Tree.m_branches n) branch Hlen
           (S (length (Tree.m_branches n))) 0%nat); [lia|lia|].
  intros j Hj. lia.
Qed.

Lemma findIndex_absent h (this : addr) n (branch : option addr) :
  h !! this = Some n → Z.of_nat (length (Tree.m_branches n)) < 4294967296 →
  branch ∉ Tree.m_branches n →
  Tree.findIndex h (Some this) branch = Done (Z.of_nat (length (Tree.m_branches n))).
Proof.
  intros Hn Hlen Habsent.
  destruct (findIndex_live h this n branch Hn Hlen) as (r & Hr & Hle & _ & Hfound).
  destruct (decide (r < length (Tree.m_branches n))%nat) as [Hlt|Hge].
  - exfalso. apply Habsent. eapply list_elem_of_lookup_2. exact (Hfound Hlt).
  - replace (length (Tree.m_branches n)) with r by lia. exact Hr.
Qed.

(** X8: [findIndex (branch)] returns the position of the first slot of the
    branch vector that holds the pointer, and the size of the vector,
    [getBranchCount ()], when no slot holds it. *)
Theorem findIndex_first_or_count h (this : addr) n (branch : option addr) :
  h !! this = Some n → Z.of_nat (length (Tree.m_branches n)) < 4294967296 →
  ∃ r : nat,
    Tree.findIndex h (Some this) branch = Done (Z.of_nat r)
    ∧ Tree.getBranchCount h (Some this) = Done (Z.of_nat (length (Tree.m_branches n)))
    ∧ (r <= length (Tree.m_branches n))%nat
    ∧ (∀ j, (j < r)%nat → Tree.m_branches n !! j ≠ Some branch)
    ∧ ((r < length (Tree.m_branches n))%nat →
         Tree.m_branches n !! r = Some branch
         ∧ Tree.getBranch h (Some this) (Z.of_nat r) = Done branch)
    ∧ (r = length (Tree.m_branches n) ↔ branch ∉ Tree.m_branches n).
Proof.
  intros Hn Hlen.
  destruct (findIndex_live h this n branch Hn Hlen) as (r & Hr & Hle & Hbefore & Hfound).
  exists r. split; [exact Hr|].
  split; [exact (getBranchCount_live h this n Hn Hlen)|].
  split; [exact Hle|]. split; [exact Hbefore|]. split.
  - intros Hlt. split; [exact (Hfound Hlt)|].
    rewrite (getBranch_live h this n r Hn Hlen), (Hfound Hlt). reflexivity.
  - split.
    + intros -> Hin. apply list_elem_of_lookup in Hin as [j Hj].
      exact (Hbefore j (lookup_lt_Some _ _ _ Hj) Hj).
    + intros Habsent. destruct (decide (r < length (Tree.m_branches n))%nat) as [Hlt|];
        [|lia].
      exfalso. apply Habsent. eapply list_elem_of_lookup_2. exact (Hfound Hlt).
Qed.

(** *** Adding a branch *)

Lemma addBranch_live h (this b : addr) n m :
  h !! this = Some n → h !! b = Some m → b ≠ this →
  Tree.addBranch h this (Some b)
  = Done (<[b := Tree.mk (Tree.m_data m) (Some this) (Tree.m_branches m)]>
            (<[this := Tree.mk (Tree.m_data n) (Tree.m_parent n)
                               (Tree.m_branches n ++ [Some b])]> h)).
Proof.
  intros Hn Hm Hne. unfold Tree.addBranch, Tree.setParent, Tree.deref.
  rewrite Hn. simpl. rewrite lookup_insert_ne by congruence. rewrite Hm. reflexivity.
Qed.

Lemma addBranchAt_live h (this b : addr) n m (k : nat) :
  h !! this = Some n → h !! b = Some m → b ≠ this →
  Z.of_nat (length (Tree.m_branches n)) < 4294967296 →
  (k <= length (Tree.m_branches n))%nat →
  Tree.addBranchAt h this (Z.of_nat k) (Some b)
  = Done (<[b := Tree.mk (Tree.m_data m) (Some this) (Tree.m_branches m)]>
            (<[this := Tree.mk (Tree.m_data n) (Tree.m_parent n)
                               (take k (Tree.m_branches n)
                                ++ Some b :: drop k (Tree.m_branches n))]> h)).
Proof.
  intros Hn Hm Hne Hlen Hk. unfold Tree.addBranchAt.
  rewrite (getBranchCount_live h this n Hn Hlen). simpl.
  replace (Z.of_nat k <=? Z.of_nat (length (Tree.m_branches n))) with true
    by (symmetry; apply Z.leb_le; lia).
  simpl. unfold Tree.deref. rewrite Hn. simpl. rewrite Nat2Z.id.
  rewrite lookup_insert_eq. simpl.
  rewrite lookup_app_r by (rewrite length_take; lia).
  rewrite length_take. replace (k - k `min` length (Tree.m_branches n))%nat with 0%nat by lia.
  simpl. unfold Tree.setParent, Tree.deref.
  rewrite lookup_insert_ne by congruence. rewrite Hm. reflexivity.
Qed.

(** X9: [addBranch (branch)] appends: afterwards the count is one more, the
    new last slot holds the pointer, the earlier slots are as before, the
    parent of the added node is this node, and the data of both nodes is
    untouched; no other node changes, not even a node that listed the added
    one as its child before. When the pointer was no child yet,
    [findIndex] finds it at the old count. The overload with an index, given
    the old count, does the same. Adding a null pointer is undefined
    behaviour: the parent is written through the pointer just pushed. *)
Theorem addBranch_appends h (this b : addr) n m :
  h !! this = Some n → h !! b = Some m → b ≠ this →
  Z.of_nat (length (Tree.m_branches n)) + 1 < 4294967296 →
  let count := Z.of_nat (length (Tree.m_branches n)) in
  ∃ h',
    Tree.addBranch h this (Some b) = Done h'
    ∧ h' !! this = Some (Tree.mk (Tree.m_data n) (Tree.m_parent n)
                                 (Tree.m_branches n ++ [Some b]))
    ∧ h' !! b = Some (Tree.mk (Tree.m_data m) (Some this) (Tree.m_branches m))
    ∧ (∀ p, p ≠ this → p ≠ b → h' !! p = h !! p)
    ∧ Tree.getBranchCount h' (Some this) = Done (count + 1)
    ∧ Tree.getBranch h' (Some this) count = Done (Some b)
    ∧ (∀ i : nat, (i < length (Tree.m_branches n))%nat →
         Tree.getBranch h' (Some this) (Z.of_nat i)
         = Tree.getBranch h (Some this) (Z.of_nat i))
    ∧ Tree.getParent h' (Some b) = Done (Some this)
    ∧ (Some b ∉ Tree.m_branches n →
         Tree.findIndex h' (Some this) (Some b) = Done count)
    ∧ Tree.addBranchAt h this count (Some b) = Done h'
    ∧ Tree.addBranch h this None = Undefined.
Proof.
  intros Hn Hm Hne Hlen count.
  set (n' := Tree.mk (Tree.m_data n) (Tree.m_parent n) (Tree.m_branches n ++ [Some b])).
  set (m' := Tree.mk (Tree.m_data m) (Some this) (Tree.m_branches m)).
  set (h' := <[b := m']> (<[this := n']> h)).
  assert (Hn' : h' !! this = Some n').
  { unfold h'. rewrite lookup_insert_ne by congruence. apply lookup_insert_eq. }
  assert (Hlen' : Z.of_nat (length (Tree.m_branches n')) < 4294967296).
  { unfold n'. simpl. rewrite length_app. simpl. lia. }
  exists h'. split; [exact (addBranch_live h this b n m Hn Hm Hne)|].
  split; [exact Hn'|]. split; [apply lookup_insert_eq|]. split.
  { intros p Hp Hp'. unfold h'. rewrite !lookup_insert_ne by congruence. reflexivity. }
  split.
  { rewrite (getBranchCount_live h' this n' Hn' Hlen'). unfold n', count. simpl.
    rewrite length_app. simpl. f_equal. lia. }
  split.
  { unfold count. rewrite (getBranch_live h' this n' _ Hn' Hlen'). unfold n'. simpl.
    rewrite lookup_app_r by lia. rewrite Nat.sub_diag. reflexivity. }
  split.
  { intros i Hi. rewrite (getBranch_live h' this n' i Hn' Hlen').
    rewrite (getBranch_live h this n i Hn) by lia. unfold n'. simpl.
    rewrite lookup_app_l by lia. reflexivity. }
  split.
  { unfold Tree.getParent, Tree.deref, h'. rewrite lookup_insert_eq. reflexivity. }
  split.
  { intros Habsent.
    destruct (findIndex_live h' this n' (Some b) Hn' Hlen')
      as (r & Hr & Hle & Hbefore & Hfound).
    unfold n' in *. simpl in *. rewrite length_app in *. simpl in *.
    assert (r = length (Tree.m_branches n)) as ->; [|exact Hr].
    destruct (decide (r < length (Tree.m_branches n))%nat) as [Hlt|Hge].
    - exfalso. apply Habsent. assert (Hlt' : (r < length (Tree.m_branches n) + 1)%nat) by lia.
      specialize (Hfound Hlt'). rewrite lookup_app_l in Hfound by lia.
      eapply list_elem_of_lookup_2. exact Hfound.
    - destruct (decide (r = length (Tree.m_branches n))) as [|Hne']; [assumption|].
      exfalso. apply (Hbefore (length (Tree.m_branches n))); [lia|].
      rewrite lookup_app_r by lia. rewrite Nat.sub_diag. reflexivity. }
  split.
  { unfold count. rewrite (addBranchAt_live h this b n m _ Hn Hm Hne) by lia.
    rewrite firstn_all, drop_all. reflexivity. }
  unfold Tree.addBranch, Tree.setParent, Tree.deref. rewrite Hn. reflexivity.
Qed.

(** X10: [addBranch (index, branch)] inserts before position [index] when
    the index is at most the count: the slot at the index then holds the
    pointer, the slots before it are as before, the slots from it on have
    moved up by one, and the parent of the added node is this node. With an
    index above the count the assertion fails. *)
Theorem addBranchAt_inserts h (this b : addr) n m :
  h !! this = Some n → h !! b = Some m → b ≠ this →
  Z.of_nat (length (Tree.m_branches n)) + 1 < 4294967296 →
  (∀ k : nat, (k <= length (Tree.m_branches n))%nat →
     ∃ h',
       Tree.addBranchAt h this (Z.of_nat k) (Some b) = Done h'
       ∧ h' !! b = Some (Tree.mk (Tree.m_data m) (Some this) (Tree.m_branches m))
       ∧ (∀ p, p ≠ this → p ≠ b → h' !! p = h !! p)
       ∧ Tree.getData h' (Some this) = Done (Tree.m_data n)
       ∧ Tree.getBranchCount h' (Some this)
         = Done (Z.of_nat (length (Tree.m_branches n)) + 1)
       ∧ Tree.getBranch h' (Some this) (Z.of_nat k) = Done (Some b)
       ∧ (∀ j : nat, (j < k)%nat →
            Tree.getBranch h' (Some this) (Z.of_nat j)
            = Tree.getBranch h (Some this) (Z.of_nat j))
       ∧ (∀ j : nat, (k <= j < length (Tree.m_branches n))%nat →
            Tree.getBranch h' (Some this) (Z.of_nat j + 1)
            = Tree.getBranch h (Some this) (Z.of_nat j)))
  ∧ (∀ index, Z.of_nat (length (Tree.m_branches n)) < index →
       Tree.addBranchAt h this index (Some b) = AssertFail).
Proof.
  intros Hn Hm Hne Hlen. split.
  - intros k Hk.
    set (n' := Tree.mk (Tree.m_data n) (Tree.m_parent n)
                 (take k (Tree.m_branches n) ++ Some b :: drop k (Tree.m_branches n))).
    set (m' := Tree.mk (Tree.m_data m) (Some this) (Tree.m_branches m)).
    set (h' := <[b := m']> (<[this := n']> h)).
    assert (Hn' : h' !! this = Some n').
    { unfold h'. rewrite lookup_insert_ne by congruence. apply lookup_insert_eq. }
    assert (Hsize : length (Tree.m_branches n') = S (length (Tree.m_branches n))).
    { unfold n'. simpl. rewrite length_app, length_take. simpl. rewrite length_drop. lia. }
    assert (Hlen' : Z.of_nat (length (Tree.m_branches n')) < 4294967296) by lia.
    exists h'. split; [apply (addBranchAt_live h this b n m k Hn Hm Hne); lia|].
    split; [apply lookup_insert_eq|]. split.
    { intros p Hp Hp'. unfold h'. rewrite !lookup_insert_ne by congruence. reflexivity. }
    split; [unfold Tree.getData, Tree.deref; rewrite Hn'; reflexivity|].
    split; [rewrite (getBranchCount_live h' this n' Hn' Hlen'), Hsize; f_equal; lia|].
    split.
    { rewrite (getBranch_live h' this n' k Hn' Hlen'). unfold n'. simpl.
      rewrite lookup_app_r by (rewrite length_take; lia).
      rewrite length_take. replace (k - k `min` length (Tree.m_branches n))%nat with 0%nat by lia.
      reflexivity. }
    split.
    { intros j Hj. rewrite (getBranch_live h' this n' j Hn' Hlen').
      rewrite (getBranch_live h this n j Hn) by lia. unfold n'. simpl.
      rewrite lookup_app_l by (rewrite length_take; lia).
      rewrite lookup_take_lt by lia. reflexivity. }
    intros j Hj. replace (Z.of_nat j + 1) with (Z.of_nat (S j)) by lia.
    rewrite (getBranch_live h' this n' (S j) Hn' Hlen').
    rewrite (getBranch_live h this n j Hn) by lia. unfold n'. simpl.
    rewrite lookup_app_r by (rewrite length_take; lia).
    rewrite length_take. replace (S j - k `min` length (Tree.m_branches n))%nat
      with (S (j - k)) by lia.
    simpl. rewrite lookup_drop. replace (k + (j - k))%nat with j by lia. reflexivity.
  - intros index Hindex. unfold Tree.addBranchAt.
    rewrite (getBranchCount_live h this n Hn) by lia. simpl.
    replace (index <=? Z.of_nat (length (Tree.m_branches n))) with false
      by (symmetry; apply Z.leb_gt; lia).
    reflexivity.
Qed.

(** *** Deleting a node *)

Lemma destroySlot_failed (rec : gmap addr (Tree.t T) → addr → outcome (gmap addr (Tree.t T)))
    (p : addr) (l : list nat) (acc : outcome (gmap addr (Tree.t T))) :
  (∀ a, acc ≠ Done a) → foldl (Tree.destroySlot rec p) acc l = acc.
Proof.
  revert acc. induction l as [|i l IH]; intros acc Hacc; [reflexivity|].
  simpl. rewrite IH; destruct acc; try reflexivity; try discriminate;
    exfalso; eapply Hacc; reflexivity.
Qed.

Lemma destroySlot_Done (rec : gmap addr (Tree.t T) → addr → outcome (gmap addr (Tree.t T)))
    (p : addr) (l : list nat) (acc : outcome (gmap addr (Tree.t T))) out :
  foldl (Tree.destroySlot rec p) acc l = Done out → ∃ a, acc = Done a.
Proof.
  intros H. destruct acc as [a| | |]; [eauto| | |];
    rewrite destroySlot_failed in H by discriminate; discriminate.
Qed.

(** The state of the destructor of [p] after the first [k] slots: the node
    is still there, its slots from [k] on are as they were, no other node
    has changed, and the children in the first [k] slots are released. *)
Lemma destroy_loop (rec : gmap addr (Tree.t T) → addr → outcome (gmap addr (Tree.t T)))
    h (p : addr) n :
  (∀ h0 q h1, rec h0 q = Done h1 → h1 ⊆ h0 ∧ h1 !! q = None) →
  h !! p = Some n →
  ∀ (k : nat) hc,
    (k <= length (Tree.m_branches n))%nat →
    foldl (Tree.destroySlot rec p) (Done h) (seq 0 k) = Done hc →
    (∃ nc, hc !! p = Some nc
           ∧ ∀ j, (k <= j)%nat → Tree.m_branches nc !! j = Tree.m_branches n !! j)
    ∧ delete p hc ⊆ delete p h
    ∧ ∀ j q, (j < k)%nat → Tree.m_branches n !! j = Some (Some q) →
        hc !! q = None ∧ q ≠ p.
Proof.
  intros Hrec Hn. induction k as [|k IH]; intros hc Hk H.
  - simpl in H. injection H as <-. split; [eauto|]. split; [reflexivity|]. lia.
  - rewrite seq_S, foldl_app in H. simpl in H.
    destruct (destroySlot_Done rec p [k] _ hc H) as [hk Hhk].
    rewrite Hhk in H. simpl in H.
    destruct (IH hk ltac:(lia) Hhk) as ((nk & Hnk & Hslots) & Hsub & Hfreed).
    unfold Tree.destroySlot in H. simpl in H.
    rewrite Hnk in H. simpl in H. rewrite (Hslots k) in H by lia.
    destruct (Tree.m_branches n !! k) as [branch|] eqn:Hbranch;
      [|apply lookup_ge_None in Hbranch; lia].
    bind_inv H as h1 Hh1. bind_inv H as n1 Hn1. injection H as <-.
    destruct (h1 !! p) as [n1'|] eqn:Hp1; [|discriminate]. injection Hn1 as ->.
    assert (Hstep : h1 ⊆ hk ∧ ∀ q, branch = Some q → h1 !! q = None).
    { destruct branch as [q|].
      - destruct (Hrec hk q h1 Hh1) as [Hs Hq]. split; [exact Hs|].
        intros q' [= <-]. exact Hq.
      - injection Hh1 as <-. split; [reflexivity|discriminate]. }
    destruct Hstep as [Hsub1 Hq1].
    assert (n1 = nk) as ->.
    { pose proof (lookup_weaken _ _ _ _ Hp1 Hsub1). congruence. }
    split; [|split].
    + eexists. split; [apply lookup_insert_eq|]. simpl. intros j Hj.
      rewrite list_lookup_insert_ne by lia. apply Hslots. lia.
    + rewrite delete_insert_eq. etrans; [|exact Hsub]. apply delete_mono. exact Hsub1.
    + intros j q Hj Hjq. destruct (decide (j = k)) as [->|Hne].
      * assert (branch = Some q) as -> by congruence.
        pose proof (Hq1 q eq_refl) as Hq.
        assert (q ≠ p) by congruence.
        split; [rewrite lookup_insert_ne by congruence; exact Hq|assumption].
      * destruct (Hfreed j q ltac:(lia) Hjq) as [Hq Hqp].
        split; [|exact Hqp]. rewrite lookup_insert_ne by congruence.
        exact (lookup_weaken_None _ _ _ Hq Hsub1).
Qed.

Lemma destroy_Done (fuel : nat) :
  ∀ h (p : addr) h',
    Tree.destroy fuel h p = Done h' →
    h' ⊆ h ∧ h' !! p = None
    ∧ ∃ n, h !! p = Some n ∧ ∀ q, Some q ∈ Tree.m_branches n → h' !! q = None.
Proof.
  induction fuel as [|fuel IH]; intros h p h' H; [discriminate|].
  simpl in H. bind_inv H as n Hn. unfold Tree.deref in Hn.
  destruct (h !! p) as [n'|] eqn:Hp; [|discriminate]. injection Hn as ->.
  bind_inv H as hc Hc. injection H as <-.
  destruct (destroy_loop (Tree.destroy fuel) h p n) with (k := length (Tree.m_branches n))
                                                       (hc := hc)
    as (_ & Hsub & Hfreed); [|exact Hp|lia|exact Hc|].
  { intros h0 q h1 H01. destruct (IH h0 q h1 H01) as (Hs & Hq & _). auto. }
  split; [etrans; [exact Hsub|apply delete_subseteq]|].
  split; [apply lookup_delete_eq|].
  exists n. split; [reflexivity|]. intros q Hq.
  apply list_elem_of_lookup in Hq as [j Hj].
  destruct (Hfreed j q (lookup_lt_Some _ _ _ Hj) Hj) as [Hfree Hne].
  rewrite lookup_delete_ne by congruence. exact Hfree.
Qed.

Lemma destroy_tip (fuel : nat) h (q : addr) m :
  h !! q = Some m → Tree.m_branches m = [] →
  Tree.destroy (S fuel) h q = Done (delete q h).
Proof.
  intros Hq Hnil. simpl. unfold Tree.deref. rewrite Hq. simpl. rewrite Hnil.
  reflexivity.
Qed.

Lemma delete_ptr_Done (fuel : nat) h (b : option addr) h1 :
  Tree.delete_ptr fuel h b = Done h1 →
  h1 ⊆ h ∧ ∀ q, b = Some q → h1 !! q = None.
Proof.
  destruct b as [q|]; simpl; intros H.
  - destruct (destroy_Done fuel h q h1 H) as (Hs & Hq & _). split; [exact Hs|].
    intros q' [= <-]. exact Hq.
  - injection H as <-. split; [reflexivity|discriminate].
Qed.

Lemma released_lookup (nodes : gset addr) h (q : addr) :
  released nodes h !! q = if decide (q ∈ nodes) then None else h !! q.
Proof.
  unfold released. destruct (decide (q ∈ nodes)) as [Hin|Hout].
  - apply map_lookup_filter_None. right. intros v _ Hv. exact (Hv Hin).
  - destruct (h !! q) as [v|] eqn:Hq.
    + apply map_lookup_filter_Some. split; [exact Hq|exact Hout].
    + apply map_lookup_filter_None. left. exact Hq.
Qed.

Lemma owns_root (d : nat) h (p : addr) (nodes : gset addr) :
  owns d h p nodes → p ∈ nodes.
Proof.
  destruct d as [|d]; [contradiction|].
  intros (n & parts & _ & _ & _ & _ & _ & ->). set_solver.
Qed.

Lemma part_subseteq (parts : list (gset addr)) (i : nat) (part : gset addr) :
  parts !! i = Some part → part ⊆ ⋃ parts.
Proof.
  intros Hi q Hq. apply elem_of_union_list. exists part.
  split; [exact (list_elem_of_lookup_2 _ _ _ Hi)|exact Hq].
Qed.

(** Ownership looks at the owned nodes only. *)
Lemma owns_frame (d : nat) :
  ∀ h1 h2 (p : addr) nodes,
    (∀ q, q ∈ nodes → h2 !! q = h1 !! q) → owns d h1 p nodes → owns d h2 p nodes.
Proof.
  induction d as [|d IH]; intros h1 h2 p nodes Hsame Hown; [contradiction|].
  destruct Hown as (n & parts & Hn & Hlen & Hkids & Hapart & Hp & ->).
  exists n, parts. split; [rewrite Hsame by set_solver; exact Hn|].
  split; [exact Hlen|]. split; [|auto].
  intros i branch part Hbranch Hpart.
  pose proof (Hkids i branch part Hbranch Hpart) as Hkid.
  destruct branch as [c|]; [|exact Hkid].
  apply (IH h1 h2 c part); [|exact Hkid].
  intros q Hq. apply Hsame. pose proof (part_subseteq parts i part Hpart). set_solver.
Qed.

Lemma inTree_trans h (p c q : addr) :
  Tree.inTree h p c → Tree.inTree h c q → Tree.inTree h p q.
Proof.
  intros Hc Hq. induction Hq as [|x n y Hx IH Hn Hy]; [exact Hc|].
  exact (Tree.inTree_branch h p x n y IH Hn Hy).
Qed.

Lemma owns_closed (d : nat) :
  ∀ h (p : addr) nodes (x y : addr) n,
    owns d h p nodes → x ∈ nodes → h !! x = Some n → Some y ∈ Tree.m_branches n →
    y ∈ nodes.
Proof.
  induction d as [|d IH]; intros h p nodes x y n Hown Hx Hn Hy; [contradiction|].
  destruct Hown as (np & parts & Hnp & Hlen & Hkids & Hapart & Hp & ->).
  apply elem_of_union in Hx as [Hx|Hx].
  - apply elem_of_singleton in Hx as ->. assert (np = n) as -> by congruence.
    apply list_elem_of_lookup in Hy as [i Hi].
    destruct (lookup_lt_is_Some_2 parts i) as [part Hpart];
      [rewrite Hlen; exact (lookup_lt_Some _ _ _ Hi)|].
    pose proof (owns_root d h y part (Hkids i (Some y) part Hi Hpart)).
    pose proof (part_subseteq parts i part Hpart). set_solver.
  - apply elem_of_union_list in Hx as (part & Hpart & Hx).
    apply list_elem_of_lookup in Hpart as [i Hpart].
    destruct (lookup_lt_is_Some_2 (Tree.m_branches np) i) as [branch Hbranch];
      [rewrite <- Hlen; exact (lookup_lt_Some _ _ _ Hpart)|].
    pose proof (Hkids i branch part Hbranch Hpart) as Hkid.
    destruct branch as [c|]; [|subst part; set_solver].
    pose proof (IH h c part x y n Hkid Hx Hn Hy).
    pose proof (part_subseteq parts i part Hpart). set_solver.
Qed.

(** The owned nodes are the nodes of the tree. *)
Lemma owns_inTree (d : nat) :
  ∀ h (p : addr) nodes, owns d h p nodes → ∀ q, q ∈ nodes ↔ Tree.inTree h p q.
Proof.
  induction d as [|d IH]; intros h p nodes Hown q; [contradiction|]. split.
  - destruct Hown as (n & parts & Hn & Hlen & Hkids & Hapart & Hp & ->).
    intros Hq. apply elem_of_union in Hq as [Hq|Hq].
    + apply elem_of_singleton in Hq as ->. constructor.
    + apply elem_of_union_list in Hq as (part & Hpart & Hq).
      apply list_elem_of_lookup in Hpart as [i Hpart].
      destruct (lookup_lt_is_Some_2 (Tree.m_branches n) i) as [branch Hbranch];
        [rewrite <- Hlen; exact (lookup_lt_Some _ _ _ Hpart)|].
      pose proof (Hkids i branch part Hbranch Hpart) as Hkid.
      destruct branch as [c|]; [|subst part; set_solver].
      apply (inTree_trans h p c q).
      * exact (Tree.inTree_branch h p p n c (Tree.inTree_root h p) Hn
                 (list_elem_of_lookup_2 _ _ _ Hbranch)).
      * apply (IH h c part Hkid). exact Hq.
  - intros Hq. induction Hq as [|x n y Hx IHx Hn Hy].
    + exact (owns_root (S d) h p nodes Hown).
    + exact (owns_closed (S d) h p nodes x y n Hown IHx Hn Hy).
Qed.

Lemma union_list_take_S (parts : list (gset addr)) (k : nat) (part : gset addr) :
  parts !! k = Some part → ⋃ take (S k) parts = ⋃ take k parts ∪ part.
Proof.
  intros Hk. rewrite (take_S_r parts k part Hk), union_list_app_L. simpl.
  rewrite union_empty_r_L. reflexivity.
Qed.

Lemma deref_live h (p : addr) n : h !! p = Some n → Tree.deref h (Some p) = Done n.
Proof. intros Hn. unfold Tree.deref. rewrite Hn. reflexivity. Qed.

Lemma destroySlot_step (rec : gmap addr (Tree.t T) → addr → outcome (gmap addr (Tree.t T)))
    (p : addr) h n (k : nat) (branch : option addr) :
  h !! p = Some n → Tree.m_branches n !! k = Some branch →
  Tree.destroySlot rec p (Done h) k
  = (h1 ← match branch with Some q => rec h q | None => Done h end;
     n1 ← Tree.deref h1 (Some p);
     Done (<[p := Tree.mk (Tree.m_data n1) (Tree.m_parent n1)
                          (<[k := None]> (Tree.m_branches n1))]> h1)).
Proof.
  intros Hn Hk. unfold Tree.destroySlot. cbn [mbind outcome_bind].
  rewrite (deref_live h p n Hn). cbn [mbind outcome_bind]. rewrite Hk.
  reflexivity.
Qed.

(** The destructor on a proper tree: with fuel for its levels it returns,
    and it has released the nodes of the tree and nothing else. *)
Lemma destroy_owned (d : nat) :
  ∀ h (p : addr) nodes, owns d h p nodes →
    ∀ fuel, (d <= fuel)%nat → Tree.destroy fuel h p = Done (released nodes h).
Proof.
  induction d as [|d IH]; intros h p nodes Hown fuel Hfuel; [contradiction|].
  destruct fuel as [|fuel]; [lia|].
  destruct Hown as (n & parts & Hn & Hlen & Hkids & Hapart & Hp & ->).
  assert (Hloop : ∀ k, (k <= length (Tree.m_branches n))%nat →
            foldl (Tree.destroySlot (Tree.destroy fuel) p) (Done h) (seq 0 k)
            = Done (<[p := Tree.mk (Tree.m_data n) (Tree.m_parent n)
                             (replicate k None ++ drop k (Tree.m_branches n))]>
                      (released (⋃ take k parts) h))).
  { induction k as [|k IHk]; intros Hk.
    - simpl. rewrite drop_0. f_equal. apply map_eq. intros q.
      destruct (decide (q = p)) as [->|Hq].
      + rewrite lookup_insert_eq, Hn. destruct n; reflexivity.
      + rewrite lookup_insert_ne by congruence. rewrite released_lookup.
        destruct (decide (q ∈ ∅)) as [Hin|_]; [set_solver|reflexivity].
    - rewrite seq_S, foldl_app, IHk by lia. cbn [foldl]. rewrite Nat.add_0_l.
      destruct (lookup_lt_is_Some_2 (Tree.m_branches n) k ltac:(lia)) as [branch Hbranch].
      destruct (lookup_lt_is_Some_2 parts k ltac:(lia)) as [part Hpart].
      pose proof (Hkids k branch part Hbranch Hpart) as Hkid.
      set (nk := Tree.mk (Tree.m_data n) (Tree.m_parent n)
                   (replicate k None ++ drop k (Tree.m_branches n))).
      set (hk := <[p := nk]> (released (⋃ take k parts) h)).
      assert (Hnk : hk !! p = Some nk) by apply lookup_insert_eq.
      assert (Hslot : Tree.m_branches nk !! k = Some branch).
      { unfold nk. cbn [Tree.m_branches].
        rewrite lookup_app_r by (rewrite length_replicate; lia).
        rewrite length_replicate, Nat.sub_diag, lookup_drop, Nat.add_0_r.
        exact Hbranch. }
      rewrite (destroySlot_step _ p hk nk k branch Hnk Hslot).
      assert (Hslots : <[k := None]> (replicate k None ++ drop k (Tree.m_branches n))
                       = replicate (S k) None ++ drop (S k) (Tree.m_branches n)).
      { rewrite insert_app_r_alt by (rewrite length_replicate; lia).
        rewrite length_replicate, Nat.sub_diag.
        rewrite (drop_S _ _ _ Hbranch). cbn [insert list_insert].
        rewrite replicate_S_end, <- app_assoc. reflexivity. }
      assert (Hpk : p ∉ part).
      { intros Hin. apply Hp. exact (part_subseteq parts k part Hpart p Hin). }
      assert (Hfresh : ∀ q, q ∈ part → q ∉ ⋃ take k parts).
      { intros q Hq Hq'. apply elem_of_union_list in Hq' as (other & Hother & Hq').
        apply list_elem_of_lookup in Hother as [j Hj].
        apply lookup_take_Some in Hj as [Hj Hjk].
        exact (Hapart k j part other ltac:(lia) Hpart Hj q Hq Hq'). }
      assert (Hnext : <[p := Tree.mk (Tree.m_data nk) (Tree.m_parent nk)
                               (<[k := None]> (Tree.m_branches nk))]>
                        (released part hk)
                      = <[p := Tree.mk (Tree.m_data n) (Tree.m_parent n)
                                 (replicate (S k) None
                                    ++ drop (S k) (Tree.m_branches n))]>
                          (released (⋃ take (S k) parts) h)).
      { unfold nk at 1 2 3. cbn [Tree.m_data Tree.m_parent Tree.m_branches].
        rewrite Hslots. apply map_eq. intros q.
        destruct (decide (q = p)) as [->|Hq]; [rewrite !lookup_insert_eq; reflexivity|].
        rewrite !lookup_insert_ne by congruence. rewrite !released_lookup.
        unfold hk. rewrite lookup_insert_ne by congruence. rewrite released_lookup.
        rewrite (union_list_take_S parts k part Hpart).
        destruct (decide (q ∈ part)) as [Hq1|Hq1];
          destruct (decide (q ∈ ⋃ take k parts)) as [Hq2|Hq2];
          destruct (decide (q ∈ ⋃ take k parts ∪ part)) as [Hq3|Hq3];
          try reflexivity; exfalso; rewrite elem_of_union in Hq3; tauto. }
      destruct branch as [c|].
      + assert (Hown : owns d hk c part).
        { apply (owns_frame d h hk c part); [|exact Hkid].
          intros q Hq. unfold hk.
          rewrite lookup_insert_ne by (intros ->; exact (Hpk Hq)).
          rewrite released_lookup.
          destruct (decide (q ∈ ⋃ take k parts)) as [Hq'|_]; [|reflexivity].
          exfalso. exact (Hfresh q Hq Hq'). }
        rewrite (IH hk c part Hown fuel ltac:(lia)). cbn [mbind outcome_bind].
        unfold Tree.deref. rewrite released_lookup.
        destruct (decide (p ∈ part)) as [Hin|_]; [contradiction|].
        rewrite Hnk. cbn [mbind outcome_bind]. rewrite Hnext. reflexivity.
      + subst part. cbn [mbind outcome_bind].
        unfold Tree.deref. rewrite Hnk. cbn [mbind outcome_bind].
        rewrite <- Hnext. f_equal. f_equal. apply map_eq. intros q.
        rewrite released_lookup.
        destruct (decide (q ∈ ∅)) as [Hq|_]; [|reflexivity].
        exfalso. exact (not_elem_of_empty q Hq). }
  cbn [Tree.destroy]. unfold Tree.deref. rewrite Hn. cbn [mbind outcome_bind].
  rewrite (Hloop (length (Tree.m_branches n)) ltac:(lia)). cbn [mbind outcome_bind].
  f_equal. apply map_eq. intros q. rewrite released_lookup.
  rewrite firstn_all2 by lia.
  destruct (decide (q = p)) as [->|Hq].
  - rewrite lookup_delete_eq.
    destruct (decide (p ∈ {[p]} ∪ ⋃ parts)) as [_|Hout]; [reflexivity|].
    exfalso. apply Hout. apply elem_of_union. left. apply elem_of_singleton. reflexivity.
  - rewrite lookup_delete_ne, lookup_insert_ne by congruence.
    rewrite released_lookup.
    destruct (decide (q ∈ ⋃ parts)) as [Hq1|Hq1];
      destruct (decide (q ∈ {[p]} ∪ ⋃ parts)) as [Hq2|Hq2]; try reflexivity.
    + exfalso. apply Hq2. apply elem_of_union. right. exact Hq1.
    + exfalso. apply elem_of_union in Hq2 as [Hq2|Hq2]; [|contradiction].
      apply elem_of_singleton in Hq2. contradiction.
Qed.
(** X11: [delete] of a node. A call that returns has released the node
    and every child its branch vector points to, and has touched no node it
    does not release: a node that is allocated afterwards was allocated
    before, with the same contents; a node without children is released
    alone; deleting the node a second time is undefined behaviour. On a
    proper tree (every node allocated, no node under two slots) the call
    returns once its fuel pays for the levels of the tree, and it has then
    released exactly the nodes of the tree: every other node is as it
    was. *)
Theorem destroy_releases h (p : addr) :
  (∀ (fuel : nat) h', Tree.destroy fuel h p = Done h' →
     (∃ n, h !! p = Some n ∧ ∀ q, Some q ∈ Tree.m_branches n → h' !! q = None)
     ∧ h' !! p = None
     ∧ (∀ k v, h' !! k = Some v → h !! k = Some v)
     ∧ (∀ n, h !! p = Some n → Tree.m_branches n = [] → h' = delete p h)
     ∧ (∀ fuel', Tree.destroy (S fuel') h' p = Undefined))
  ∧ (∀ (d : nat) (nodes : gset addr), owns d h p nodes →
       (∀ q, q ∈ nodes ↔ Tree.inTree h p q)
       ∧ ∀ fuel : nat, (d <= fuel)%nat →
           ∃ h', Tree.destroy fuel h p = Done h'
                 ∧ (∀ q, Tree.inTree h p q → h' !! q = None)
                 ∧ (∀ q, ¬ Tree.inTree h p q → h' !! q = h !! q)).
Proof.
  split.
  - intros fuel h' H.
    destruct (destroy_Done fuel h p h' H) as (Hsub & Hp & n & Hn & Hkids).
    split; [eauto|]. split; [exact Hp|].
    split; [intros k v Hk; exact (lookup_weaken _ _ _ _ Hk Hsub)|]. split.
    + intros n' Hn' Hnil. destruct fuel as [|fuel]; [discriminate|].
      rewrite (destroy_tip fuel h p n' Hn' Hnil) in H. congruence.
    + intros fuel'. simpl. unfold Tree.deref. rewrite Hp. reflexivity.
  - intros d nodes Hown.
    pose proof (owns_inTree d h p nodes Hown) as Hnodes.
    split; [exact Hnodes|]. intros fuel Hfuel.
    exists (released nodes h).
    split; [exact (destroy_owned d h p nodes Hown fuel Hfuel)|]. split.
    + intros q Hq. rewrite released_lookup.
      destruct (decide (q ∈ nodes)) as [_|Hout]; [reflexivity|].
      exfalso. apply Hout, Hnodes. exact Hq.
    + intros q Hq. rewrite released_lookup.
      destruct (decide (q ∈ nodes)) as [Hin|_]; [|reflexivity].
      exfalso. apply Hq, Hnodes. exact Hin.
Qed.

(** *** Removing a branch *)

Lemma getBranchCount_Done h (this : addr) (count : Z) :
  Tree.getBranchCount h (Some this) = Done count →
  ∃ n, h !! this = Some n ∧ count = to_uint (Z.of_nat (length (Tree.m_branches n))).
Proof.
  unfold Tree.getBranchCount, Tree.deref. destruct (h !! this) as [n|]; [|discriminate].
  simpl. intros [= <-]. eauto.
Qed.

Lemma removeBranchOrdered_Done (fuel : nat) h (this : addr) (i : nat) h' :
  Tree.removeBranchOrdered fuel h this (Z.of_nat i) = Done h' →
  ∃ n b h1,
    h !! this = Some n ∧ Tree.m_branches n !! i = Some b
    ∧ Tree.delete_ptr fuel h b = Done h1 ∧ h1 !! this = Some n
    ∧ h' = <[this := Tree.mk (Tree.m_data n) (Tree.m_parent n)
                             (delete i (Tree.m_branches n))]> h1.
Proof.
  unfold Tree.removeBranchOrdered. intros H. rewrite Nat2Z.id in H.
  bind_inv H as count Hcount. bind_inv H as u Hu. bind_inv H as n Hn.
  unfold Tree.deref in Hn. destruct (h !! this) as [n'|] eqn:Hthis; [|discriminate].
  injection Hn as ->.
  bind_inv H as b Hb. destruct (Tree.m_branches n !! i) as [b'|] eqn:Hi; [|discriminate].
  injection Hb as ->.
  bind_inv H as h1 Hh1. bind_inv H as n1 Hn1.
  unfold Tree.deref in Hn1. destruct (h1 !! this) as [n1'|] eqn:Hthis1; [|discriminate].
  injection Hn1 as ->.
  destruct (delete_ptr_Done fuel h b h1 Hh1) as [Hsub _].
  assert (n1 = n) as ->.
  { pose proof (lookup_weaken _ _ _ _ Hthis1 Hsub). congruence. }
  destruct (decide (i < length (Tree.m_branches n))%nat); [|discriminate].
  injection H as <-. exists n, b, h1. auto.
Qed.

Lemma removeBranchOrdered_live (fuel : nat) h (this : addr) n (i : nat) b h1 :
  h !! this = Some n → Z.of_nat (length (Tree.m_branches n)) < 4294967296 →
  Tree.m_branches n !! i = Some b →
  Tree.delete_ptr fuel h b = Done h1 → h1 !! this = Some n →
  Tree.removeBranchOrdered fuel h this (Z.of_nat i)
  = Done (<[this := Tree.mk (Tree.m_data n) (Tree.m_parent n)
                            (delete i (Tree.m_branches n))]> h1).
Proof.
  intros Hn Hlen Hi Hh1 Hthis1. pose proof (lookup_lt_Some _ _ _ Hi) as Hlt.
  unfold Tree.removeBranchOrdered.
  rewrite (getBranchCount_live h this n Hn Hlen). simpl.
  replace (Z.of_nat i <? Z.of_nat (length (Tree.m_branches n))) with true
    by (symmetry; apply Z.ltb_lt; lia).
  simpl. unfold Tree.deref. rewrite Hn. simpl. rewrite Nat2Z.id, Hi. simpl.
  rewrite Hh1. simpl. rewrite Hthis1. simpl.
  destruct (decide (i < length (Tree.m_branches n))%nat); [reflexivity|lia].
Qed.

(** X12: [removeBranchOrdered (index)] erases one slot and keeps the order
    of the others. When it returns, the branch vector is the old one without
    the slot at the index, the node the slot pointed to is released, and
    every other node is as it was or released with it. It returns whenever
    the slot holds a null pointer, or points to a node without children. At
    an index that is not below the count its assertion fails. *)
Theorem removeBranchOrdered_keeps_order (fuel : nat) h (this : addr) n :
  h !! this = Some n → Z.of_nat (length (Tree.m_branches n)) < 4294967296 →
  (∀ (i : nat) h',
     Tree.removeBranchOrdered fuel h this (Z.of_nat i) = Done h' →
     ∃ b, Tree.m_branches n !! i = Some b
          ∧ h' !! this = Some (Tree.mk (Tree.m_data n) (Tree.m_parent n)
                                       (delete i (Tree.m_branches n)))
          ∧ (∀ q, b = Some q → h' !! q = None)
          ∧ (∀ p v, p ≠ this → h' !! p = Some v → h !! p = Some v))
  ∧ (∀ i : nat, Tree.m_branches n !! i = Some None →
       Tree.removeBranchOrdered fuel h this (Z.of_nat i)
       = Done (<[this := Tree.mk (Tree.m_data n) (Tree.m_parent n)
                                 (delete i (Tree.m_branches n))]> h))
  ∧ (∀ (i : nat) q m, Tree.m_branches n !! i = Some (Some q) → q ≠ this →
       h !! q = Some m → Tree.m_branches m = [] →
       Tree.removeBranchOrdered (S fuel) h this (Z.of_nat i)
       = Done (<[this := Tree.mk (Tree.m_data n) (Tree.m_parent n)
                                 (delete i (Tree.m_branches n))]> (delete q h)))
  ∧ (∀ index, Z.of_nat (length (Tree.m_branches n)) <= index →
       Tree.removeBranchOrdered fuel h this index = AssertFail).
Proof.
  intros Hn Hlen. split; [|split; [|split]].
  - intros i h' H.
    destruct (removeBranchOrdered_Done fuel h this i h' H)
      as (n' & b & h1 & Hn' & Hi & Hh1 & Hthis1 & ->).
    assert (n' = n) as -> by congruence.
    destruct (delete_ptr_Done fuel h b h1 Hh1) as [Hsub Hfreed].
    exists b. split; [exact Hi|]. split; [apply lookup_insert_eq|]. split.
    + intros q ->. assert (q ≠ this) by (intros ->; rewrite (Hfreed this eq_refl) in Hthis1;
                                          discriminate).
      rewrite lookup_insert_ne by congruence. exact (Hfreed q eq_refl).
    + intros p v Hp Hv. rewrite lookup_insert_ne in Hv by congruence.
      exact (lookup_weaken _ _ _ _ Hv Hsub).
  - intros i Hi. apply (removeBranchOrdered_live fuel h this n i None h Hn Hlen Hi);
      [reflexivity|exact Hn].
  - intros i q m Hi Hq Hm Hnil.
    apply (removeBranchOrdered_live (S fuel) h this n i (Some q) _ Hn Hlen Hi).
    + exact (destroy_tip fuel h q m Hm Hnil).
    + rewrite lookup_delete_ne by congruence. exact Hn.
  - intros index Hindex. unfold Tree.removeBranchOrdered.
    rewrite (getBranchCount_live h this n Hn Hlen). simpl.
    replace (index <? Z.of_nat (length (Tree.m_branches n))) with false
      by (symmetry; apply Z.ltb_ge; lia).
    reflexivity.
Qed.

(** The branch vector [removeBranch] leaves: the last pointer has taken the
    place of the one at [i], and the last slot is gone. *)
Lemma swap_pop (branches : list (option addr)) (i : nat) (a z : option addr) :
  branches !! i = Some a → last branches = Some z →
  let back := (length branches - 1)%nat in
  let swapped := <[back := a]> (<[i := z]> branches) in
  last swapped = Some a
  ∧ take (length swapped - 1) swapped = take back (<[i := z]> branches)
  ∧ take back (<[i := z]> branches) ≡ₚ delete i branches.
Proof.
  intros Hi Hz back swapped. pose proof (lookup_lt_Some _ _ _ Hi) as Hlt.
  assert (Hsize : length swapped = length branches)
    by (unfold swapped; rewrite !length_insert; reflexivity).
  split; [|split].
  - rewrite last_lookup, Hsize. unfold swapped.
    replace (Init.Nat.pred (length branches)) with back by (unfold back; lia).
    apply list_lookup_insert_eq. rewrite length_insert. unfold back. lia.
  - rewrite Hsize. fold back. unfold swapped.
    apply take_insert_ge. lia.
  - clear Hsize. subst swapped back.
    apply list_elem_of_split_length in Hi as (l1 & l2 & -> & ->).
    rewrite delete_middle, insert_app_r_alt, Nat.sub_diag by lia. simpl.
    rewrite length_app. simpl.
    replace (length l1 + S (length l2) - 1)%nat with (length l1 + length l2)%nat by lia.
    destruct l2 as [|x rest _] using rev_ind.
    + simpl. rewrite Nat.add_0_r, app_nil_r.
      rewrite take_app_length. reflexivity.
    + assert (x = z) as ->.
      { rewrite app_comm_cons, app_assoc, last_snoc in Hz. congruence. }
      rewrite length_app. simpl.
      replace (l1 ++ z :: rest ++ [z]) with ((l1 ++ z :: rest) ++ [z])
        by (rewrite <- app_assoc; reflexivity).
      rewrite take_app_length' by (rewrite length_app; simpl; lia).
      apply Permutation_app_head. apply Permutation_cons_append.
Qed.

Lemma removeBranch_Done (fuel : nat) h (this : addr) (i : nat) h' :
  Tree.removeBranch fuel h this (Z.of_nat i) = Done h' →
  ∃ n a z h1,
    h !! this = Some n ∧ Tree.m_branches n !! i = Some a
    ∧ last (Tree.m_branches n) = Some z
    ∧ Tree.delete_ptr fuel
        (<[this := Tree.mk (Tree.m_data n) (Tree.m_parent n)
                           (<[(length (Tree.m_branches n) - 1)%nat := a]>
                              (<[i := z]> (Tree.m_branches n)))]> h) a = Done h1
    ∧ is_Some (h1 !! this)
    ∧ h' = <[this := Tree.mk (Tree.m_data n) (Tree.m_parent n)
                             (take (length (Tree.m_branches n) - 1)
                                   (<[i := z]> (Tree.m_branches n)))]> h1.
Proof.
  unfold Tree.removeBranch. intros H. rewrite Nat2Z.id in H.
  bind_inv H as count Hcount. bind_inv H as u Hu. bind_inv H as n Hn.
  unfold Tree.deref in Hn. destruct (h !! this) as [n'|] eqn:Hthis; [|discriminate].
  injection Hn as ->.
  bind_inv H as a Ha. destruct (Tree.m_branches n !! i) as [a'|] eqn:Hi; [|discriminate].
  injection Ha as ->.
  bind_inv H as z Hz.
  destruct (Tree.m_branches n !! (length (Tree.m_branches n) - 1)%nat) as [z'|] eqn:Hback;
    [|discriminate].
  injection Hz as ->.
  assert (Hlast : last (Tree.m_branches n) = Some z).
  { rewrite last_lookup. rewrite <- Hback. f_equal. lia. }
  destruct (swap_pop (Tree.m_branches n) i a z Hi Hlast) as (Hlast' & Htake & _).
  bind_inv H as n1 Hn1. unfold Tree.deref in Hn1. rewrite lookup_insert_eq in Hn1.
  injection Hn1 as <-. simpl in H. rewrite Hlast' in H. simpl in H.
  bind_inv H as h2 Hh2. bind_inv H as n2 Hn2.
  unfold Tree.deref in Hn2. destruct (h2 !! this) as [n2'|] eqn:Hthis2; [|discriminate].
  injection Hn2 as ->.
  destruct (delete_ptr_Done fuel _ a h2 Hh2) as [Hsub _].
  pose proof (lookup_weaken _ _ _ _ Hthis2 Hsub) as Hsame.
  rewrite lookup_insert_eq in Hsame. injection Hsame as <-. simpl in H.
  destruct (<[(length (Tree.m_branches n) - 1)%nat := a]> (<[i := z]> (Tree.m_branches n)))
    as [|x rest] eqn:Hswapped.
  { apply (f_equal length) in Hswapped. rewrite !length_insert in Hswapped.
    pose proof (lookup_lt_Some _ _ _ Hi). simpl in Hswapped. lia. }
  rewrite Htake in H. injection H as <-. rewrite <- Hswapped in Hh2.
  exists n, a, z, h2. eauto 10.
Qed.

Lemma removeBranch_live (fuel : nat) h (this : addr) n (i : nat) a z h1 :
  h !! this = Some n → Z.of_nat (length (Tree.m_branches n)) < 4294967296 →
  Tree.m_branches n !! i = Some a → last (Tree.m_branches n) = Some z →
  Tree.delete_ptr fuel
    (<[this := Tree.mk (Tree.m_data n) (Tree.m_parent n)
                       (<[(length (Tree.m_branches n) - 1)%nat := a]>
                          (<[i := z]> (Tree.m_branches n)))]> h) a = Done h1 →
  is_Some (h1 !! this) →
  Tree.removeBranch fuel h this (Z.of_nat i)
  = Done (<[this := Tree.mk (Tree.m_data n) (Tree.m_parent n)
                            (take (length (Tree.m_branches n) - 1)
                                  (<[i := z]> (Tree.m_branches n)))]> h1).
Proof.
  intros Hn Hlen Hi Hlast Hh1 [n1 Hthis1]. pose proof (lookup_lt_Some _ _ _ Hi) as Hlt.
  destruct (swap_pop (Tree.m_branches n) i a z Hi Hlast) as (Hlast' & Htake & _).
  destruct (delete_ptr_Done fuel _ a h1 Hh1) as [Hsub _].
  pose proof (lookup_weaken _ _ _ _ Hthis1 Hsub) as Hsame.
  rewrite lookup_insert_eq in Hsame. injection Hsame as <-.
  unfold Tree.removeBranch.
  rewrite (getBranchCount_live h this n Hn Hlen). simpl.
  replace (Z.of_nat i <? Z.of_nat (length (Tree.m_branches n))) with true
    by (symmetry; apply Z.ltb_lt; lia).
  simpl. unfold Tree.deref. rewrite Hn. simpl. rewrite Nat2Z.id, Hi. simpl.
  rewrite last_lookup in Hlast.
  replace (length (Tree.m_branches n) - 1)%nat with (Init.Nat.pred (length (Tree.m_branches n)))
    by lia.
  rewrite Hlast. simpl. rewrite lookup_insert_eq. simpl.
  replace (Init.Nat.pred (length (Tree.m_branches n))) with (length (Tree.m_branches n) - 1)%nat
    by lia.
  rewrite Hlast'. simpl. rewrite Hh1. simpl. rewrite Hthis1. simpl.
  destruct (<[(length (Tree.m_branches n) - 1)%nat := a]> (<[i := z]> (Tree.m_branches n)))
    as [|x rest] eqn:Hswapped.
  { apply (f_equal length) in Hswapped. rewrite !length_insert in Hswapped.
    simpl in Hswapped. lia. }
  rewrite Htake. reflexivity.
Qed.

(** X13: [removeBranch (index)] removes one slot by moving the last pointer
    into its place. When it returns, the branch vector is one shorter: the
    slot at the index holds what the last slot held, the other remaining
    slots are as before, so the pointers left are those of
    [removeBranchOrdered], in another order; the node the slot pointed to is
    released, and every other node is as it was or released with it. It
    returns whenever the slot holds a null pointer, or points to a node
    without children. At an index that is not below the count (so on an
    empty vector) its assertion fails. *)
Theorem removeBranch_swaps_last_in (fuel : nat) h (this : addr) n :
  h !! this = Some n → Z.of_nat (length (Tree.m_branches n)) < 4294967296 →
  let back := (length (Tree.m_branches n) - 1)%nat in
  (∀ (i : nat) h',
     Tree.removeBranch fuel h this (Z.of_nat i) = Done h' →
     ∃ a z n',
       Tree.m_branches n !! i = Some a ∧ Tree.m_branches n !! back = Some z
       ∧ h' !! this = Some n'
       ∧ Tree.m_data n' = Tree.m_data n ∧ Tree.m_parent n' = Tree.m_parent n
       ∧ Tree.m_branches n' = take back (<[i := z]> (Tree.m_branches n))
       ∧ Tree.m_branches n' ≡ₚ delete i (Tree.m_branches n)
       ∧ (∀ q, a = Some q → h' !! q = None)
       ∧ (∀ p v, p ≠ this → h' !! p = Some v → h !! p = Some v))
  ∧ (∀ (i : nat) z, Tree.m_branches n !! i = Some None →
       Tree.m_branches n !! back = Some z →
       Tree.removeBranch fuel h this (Z.of_nat i)
       = Done (<[this := Tree.mk (Tree.m_data n) (Tree.m_parent n)
                                 (take back (<[i := z]> (Tree.m_branches n)))]> h))
  ∧ (∀ (i : nat) z q m, Tree.m_branches n !! i = Some (Some q) →
       Tree.m_branches n !! back = Some z → q ≠ this →
       h !! q = Some m → Tree.m_branches m = [] →
       Tree.removeBranch (S fuel) h this (Z.of_nat i)
       = Done (<[this := Tree.mk (Tree.m_data n) (Tree.m_parent n)
                                 (take back (<[i := z]> (Tree.m_branches n)))]>
                 (delete q h)))
  ∧ (∀ index, Z.of_nat (length (Tree.m_branches n)) <= index →
       Tree.removeBranch fuel h this index = AssertFail).
Proof.
  intros Hn Hlen back.
  assert (Hlast : ∀ z, Tree.m_branches n !! back = Some z → last (Tree.m_branches n) = Some z).
  { intros z Hz. rewrite last_lookup, <- Hz. f_equal. unfold back. lia. }
  split; [|split; [|split]].
  - intros i h' H.
    destruct (removeBranch_Done fuel h this i h' H)
      as (n' & a & z & h1 & Hn' & Hi & Hz & Hh1 & Hthis1 & ->).
    assert (n' = n) as -> by congruence.
    destruct (delete_ptr_Done fuel _ a h1 Hh1) as [Hsub Hfreed].
    destruct (swap_pop (Tree.m_branches n) i a z Hi Hz) as (_ & _ & Hperm).
    exists a, z. eexists.
    split; [exact Hi|].
    split; [rewrite last_lookup in Hz; rewrite <- Hz; f_equal; unfold back; lia|].
    split; [apply lookup_insert_eq|]. simpl.
    split; [reflexivity|]. split; [reflexivity|]. split; [reflexivity|].
    split; [exact Hperm|]. split.
    + intros q ->. assert (q ≠ this).
      { intros ->. destruct Hthis1 as [v Hv]. rewrite (Hfreed this eq_refl) in Hv.
        discriminate. }
      rewrite lookup_insert_ne by congruence. exact (Hfreed q eq_refl).
    + intros p v Hp Hv. rewrite lookup_insert_ne in Hv by congruence.
      pose proof (lookup_weaken _ _ _ _ Hv Hsub) as Hv'.
      rewrite lookup_insert_ne in Hv' by congruence. exact Hv'.
  - intros i z Hi Hz.
    rewrite (removeBranch_live fuel h this n i None z _ Hn Hlen Hi (Hlast z Hz) eq_refl)
      by (rewrite lookup_insert_eq; eauto).
    rewrite insert_insert_eq. reflexivity.
  - intros i z q m Hi Hz Hq Hm Hnil.
    rewrite (removeBranch_live (S fuel) h this n i (Some q) z
               (delete q (<[this := Tree.mk (Tree.m_data n) (Tree.m_parent n)
                                      (<[back := Some q]> (<[i := z]> (Tree.m_branches n)))]> h))
               Hn Hlen Hi (Hlast z Hz)).
    + rewrite <- delete_insert_ne by congruence. rewrite insert_insert_eq.
      rewrite delete_insert_ne by congruence. reflexivity.
    + apply (destroy_tip fuel _ q m); [|exact Hnil].
      rewrite lookup_insert_ne by congruence. exact Hm.
    + rewrite lookup_delete_ne by congruence. rewrite lookup_insert_eq. eauto.
  - intros index Hindex. unfold Tree.removeBranch.
    rewrite (getBranchCount_live h this n Hn Hlen). simpl.
    replace (index <? Z.of_nat (length (Tree.m_branches n))) with false
      by (symmetry; apply Z.ltb_ge; lia).
    reflexivity.
Qed.

(** X14: removing a pointer that is not among the branches fails an
    assertion: [findIndex] answers with the count, which the index overload
    rejects. This holds for both [removeBranch (branch)] and
    [removeBranchOrdered (branch)], and the same assertion guards
    [getBranch] at the count. *)
Theorem remove_absent_branch_asserts (fuel : nat) h (this : addr) n
    (branch : option addr) :
  h !! this = Some n → Z.of_nat (length (Tree.m_branches n)) < 4294967296 →
  branch ∉ Tree.m_branches n →
  Tree.removeBranchPtr fuel h this branch = AssertFail
  ∧ Tree.removeBranchOrderedPtr fuel h this branch = AssertFail
  ∧ (i ← Tree.findIndex h (Some this) branch; Tree.getBranch h (Some this) i)
    = AssertFail.
Proof.
  intros Hn Hlen Habsent.
  pose proof (findIndex_absent h this n branch Hn Hlen Habsent) as Hfind.
  unfold Tree.removeBranchPtr, Tree.removeBranchOrderedPtr. rewrite Hfind. simpl.
  split; [|split].
  - unfold Tree.removeBranch. rewrite (getBranchCount_live h this n Hn Hlen). simpl.
    rewrite Z.ltb_irrefl. reflexivity.
  - unfold Tree.removeBranchOrdered. rewrite (getBranchCount_live h this n Hn Hlen).
    simpl. rewrite Z.ltb_irrefl. reflexivity.
  - rewrite (getBranch_live h this n _ Hn Hlen).
    rewrite lookup_ge_None_2 by lia. reflexivity.
Qed.

(** X15: adding a node without children and removing it again gives the
    tree back. From a node [this] that does not list [b] yet,
    [addBranch (b)] followed by [removeBranch (b)], or by
    [removeBranchOrdered (b)], returns the store as it was before, except
    that [b] is released. *)
Theorem addBranch_then_remove h (this b : addr) n m (fuel : nat) :
  h !! this = Some n → h !! b = Some m → b ≠ this →
  Tree.m_branches m = [] → Some b ∉ Tree.m_branches n →
  Z.of_nat (length (Tree.m_branches n)) + 1 < 4294967296 →
  (h1 ← Tree.addBranch h this (Some b); Tree.removeBranchPtr (S fuel) h1 this (Some b))
  = Done (delete b h)
  ∧ (h1 ← Tree.addBranch h this (Some b);
     Tree.removeBranchOrderedPtr (S fuel) h1 this (Some b))
    = Done (delete b h).
Proof.
  intros Hn Hm Hne Hnil Habsent Hlen.
  rewrite (addBranch_live h this b n m Hn Hm Hne). simpl.
  set (n' := Tree.mk (Tree.m_data n) (Tree.m_parent n) (Tree.m_branches n ++ [Some b])).
  set (m' := Tree.mk (Tree.m_data m) (Some this) (Tree.m_branches m)).
  set (h1 := <[b := m']> (<[this := n']> h)).
  assert (Hn' : h1 !! this = Some n').
  { unfold h1. rewrite lookup_insert_ne by congruence. apply lookup_insert_eq. }
  assert (Hm' : h1 !! b = Some m') by apply lookup_insert_eq.
  assert (Hsize : length (Tree.m_branches n') = S (length (Tree.m_branches n))).
  { unfold n'. simpl. rewrite length_app. simpl. lia. }
  assert (Hlen' : Z.of_nat (length (Tree.m_branches n')) < 4294967296) by lia.
  assert (Hslot : Tree.m_branches n' !! length (Tree.m_branches n) = Some (Some b)).
  { unfold n'. simpl. rewrite lookup_app_r by lia. rewrite Nat.sub_diag. reflexivity. }
  assert (Hfind : Tree.findIndex h1 (Some this) (Some b)
                  = Done (Z.of_nat (length (Tree.m_branches n)))).
  { destruct (findIndex_live h1 this n' (Some b) Hn' Hlen')
      as (r & Hr & Hle & Hbefore & Hfound).
    assert (r = length (Tree.m_branches n)) as ->; [|exact Hr].
    destruct (decide (r < length (Tree.m_branches n))%nat) as [Hlt|Hge].
    - exfalso. apply Habsent. specialize (Hfound ltac:(lia)).
      unfold n' in Hfound. simpl in Hfound. rewrite lookup_app_l in Hfound by lia.
      eapply list_elem_of_lookup_2. exact Hfound.
    - destruct (decide (r = length (Tree.m_branches n))) as [|Hne']; [assumption|].
      exfalso. apply (Hbefore (length (Tree.m_branches n))); [lia|exact Hslot]. }
  assert (Hlast : last (Tree.m_branches n') = Some (Some b)).
  { unfold n'. simpl. apply last_snoc. }
  assert (Hsame : <[length (Tree.m_branches n) := Some b]> (Tree.m_branches n')
                  = Tree.m_branches n').
  { apply list_insert_id. exact Hslot. }
  assert (Hpop : take (length (Tree.m_branches n)) (Tree.m_branches n')
                 = Tree.m_branches n).
  { unfold n'. simpl. apply take_app_length. }
  assert (Hrestore : ∀ node hx,
            node = n → (∀ k, k ≠ this → k ≠ b → hx !! k = h !! k) → hx !! b = None →
            <[this := node]> hx = delete b h).
  { intros node hx -> Hframe Hb. apply map_eq. intros k.
    destruct (decide (k = this)) as [->|Hk].
    - rewrite lookup_insert_eq, lookup_delete_ne by congruence. congruence.
    - rewrite lookup_insert_ne by congruence.
      destruct (decide (k = b)) as [->|Hk'].
      + rewrite lookup_delete_eq. exact Hb.
      + rewrite lookup_delete_ne by congruence. apply Hframe; assumption. }
  assert (Hframe1 : ∀ k, k ≠ this → k ≠ b → h1 !! k = h !! k).
  { intros k Hk Hk'. unfold h1. rewrite !lookup_insert_ne by congruence. reflexivity. }
  unfold Tree.removeBranchPtr, Tree.removeBranchOrderedPtr. rewrite Hfind. simpl.
  split.
  - rewrite (removeBranch_live (S fuel) h1 this n' (length (Tree.m_branches n))
               (Some b) (Some b)
               (delete b (<[this := Tree.mk (Tree.m_data n') (Tree.m_parent n')
                                      (<[(length (Tree.m_branches n') - 1)%nat := Some b]>
                                         (<[length (Tree.m_branches n) := Some b]>
                                            (Tree.m_branches n')))]> h1))
               Hn' Hlen' Hslot Hlast).
    + f_equal. rewrite Hsize. replace (S (length (Tree.m_branches n)) - 1)%nat
        with (length (Tree.m_branches n)) by lia.
      rewrite Hsame, Hpop. apply Hrestore.
      * destruct n; reflexivity.
      * intros k Hk Hk'. rewrite lookup_delete_ne, lookup_insert_ne by congruence.
        apply Hframe1; assumption.
      * apply lookup_delete_eq.
    + apply (destroy_tip fuel _ b m'); [|exact Hnil].
      rewrite lookup_insert_ne by congruence. exact Hm'.
    + rewrite lookup_delete_ne by congruence. rewrite lookup_insert_eq. eauto.
  - rewrite (removeBranchOrdered_live (S fuel) h1 this n' (length (Tree.m_branches n))
               (Some b) (delete b h1) Hn' Hlen' Hslot).
    + f_equal. replace (delete (length (Tree.m_branches n)) (Tree.m_branches n'))
        with (Tree.m_branches n).
      2:{ unfold n'. simpl. rewrite delete_middle, app_nil_r. reflexivity. }
      apply Hrestore.
      * destruct n; reflexivity.
      * intros k Hk Hk'. rewrite lookup_delete_ne by congruence.
        apply Hframe1; assumption.
      * apply lookup_delete_eq.
    + exact (destroy_tip fuel _ b m' Hm' Hnil).
    + rewrite lookup_delete_ne by congruence. exact Hn'.
Qed.
End branches.

Lemma findIndex_first_or_count_witness :
  ∃ r : nat,
    Tree.findIndex family (Some 0%nat) (Some 1%nat) = Done (Z.of_nat r)
    ∧ Tree.getBranchCount family (Some 0%nat) = Done (Z.of_nat (length [Some 1%nat]))
    ∧ (r <= length [Some 1%nat])%nat
    ∧ (∀ j, (j < r)%nat → [Some 1%nat] !! j ≠ Some (Some 1%nat))
    ∧ ((r < length [Some 1%nat])%nat →
         [Some 1%nat] !! r = Some (Some 1%nat)
         ∧ Tree.getBranch family (Some 0%nat) (Z.of_nat r) = Done (Some 1%nat))
    ∧ (r = length [Some 1%nat] ↔ Some 1%nat ∉ [Some 1%nat]).
Proof.
  apply (findIndex_first_or_count family 0%nat
           (Tree.mk (sf.mkVector2i 3 4) None [Some 1%nat]) (Some 1%nat)).
  - reflexivity.
  - simpl. lia.
Defined.

Lemma addBranch_appends_witness :
  ∃ h',
    Tree.addBranch household 0%nat (Some 2%nat) = Done h'
    ∧ h' !! 0%nat = Some (Tree.mk (sf.mkVector2i 3 4) None [Some 1%nat; Some 2%nat])
    ∧ h' !! 2%nat = Some (Tree.mk (sf.mkVector2i 7 8) (Some 0%nat) []).
Proof.
  destruct (addBranch_appends household 0%nat 2%nat
              (Tree.mk (sf.mkVector2i 3 4) None [Some 1%nat])
              (Tree.mk (sf.mkVector2i 7 8) None [])
              eq_refl eq_refl ltac:(discriminate) ltac:(simpl; lia))
    as (h' & Hadd & Hthis & Hb & _).
  exists h'. split; [exact Hadd|]. split; [exact Hthis|exact Hb].
Defined.

Lemma addBranchAt_inserts_witness :
  ∃ h',
    Tree.addBranchAt household 0%nat 0 (Some 2%nat) = Done h'
    ∧ Tree.getBranch h' (Some 0%nat) 0 = Done (Some 2%nat)
    ∧ Tree.getBranch h' (Some 0%nat) 1 = Done (Some 1%nat).
Proof.
  destruct (addBranchAt_inserts household 0%nat 2%nat
              (Tree.mk (sf.mkVector2i 3 4) None [Some 1%nat])
              (Tree.mk (sf.mkVector2i 7 8) None [])
              eq_refl eq_refl ltac:(discriminate) ltac:(simpl; lia))
    as [Hinsert _].
  destruct (Hinsert 0%nat ltac:(simpl; lia))
    as (h' & Hadd & _ & _ & _ & _ & Hat & _ & Hup).
  exists h'. split; [exact Hadd|]. split; [exact Hat|].
  exact (Hup 0%nat ltac:(simpl; lia)).
Defined.

Lemma owns_chain5 :
  owns 3 (RRT.store chain5) 1%nat {[1%nat; 2%nat; 3%nat]}.
Proof.
  exists (Tree.mk (sf.mkVector2i 0 0) None [Some 2%nat]), [{[2%nat; 3%nat]}].
  split; [reflexivity|]. split; [reflexivity|]. split; [|split; [|split]].
  - intros [|i] branch part Hbranch Hpart; [|discriminate].
    injection Hbranch as <-. injection Hpart as <-.
    exists (Tree.mk (sf.mkVector2i 2 2) (Some 1%nat) [Some 3%nat]), [{[3%nat]}].
    split; [reflexivity|]. split; [reflexivity|]. split; [|split; [|split]].
    + intros [|i] branch part Hbranch Hpart; [|discriminate].
      injection Hbranch as <-. injection Hpart as <-.
      exists (Tree.mk (sf.mkVector2i 2 4) (Some 2%nat) []), [].
      split; [reflexivity|]. split; [reflexivity|]. split; [|split; [|split]].
      * intros i branch part Hbranch. discriminate.
      * intros i j Si Sj _ Hi. discriminate.
      * refine (bool_decide_unpack _ _); vm_compute; exact I.
      * refine (bool_decide_unpack _ _); vm_compute; exact I.
    + intros [|i] [|j] Si Sj Hne Hi Hj; try discriminate. contradiction.
    + refine (bool_decide_unpack _ _); vm_compute; exact I.
    + refine (bool_decide_unpack _ _); vm_compute; exact I.
  - intros [|i] [|j] Si Sj Hne Hi Hj; try discriminate. contradiction.
  - refine (bool_decide_unpack _ _); vm_compute; exact I.
  - refine (bool_decide_unpack _ _); vm_compute; exact I.
Qed.

Lemma destroy_releases_witness :
  ∃ h', Tree.destroy 3 (RRT.store chain5) 1%nat = Done h'
        ∧ (∀ q, Tree.inTree (RRT.store chain5) 1%nat q → h' !! q = None)
        ∧ (∀ q, ¬ Tree.inTree (RRT.store chain5) 1%nat q
                → h' !! q = RRT.store chain5 !! q).
Proof.
  destruct (destroy_releases (RRT.store chain5) 1%nat) as [_ Htotal].
  destruct (Htotal 3%nat {[1%nat; 2%nat; 3%nat]} owns_chain5) as [_ Hreturns].
  exact (Hreturns 3%nat ltac:(lia)).
Defined.

(** On the chain of three nodes the destructor of the root empties the
    store, and with fuel for two levels only it is still running. *)
Example destroy_chain5 :
  Tree.destroy 3 (RRT.store chain5) 1%nat = Done ∅
  ∧ Tree.destroy 2 (RRT.store chain5) 1%nat = OutOfFuel.
Proof. split; vm_compute; reflexivity. Qed.

Lemma removeBranchOrdered_keeps_order_witness :
  Tree.removeBranchOrdered 1 clan 0%nat 0
  = Done (<[0%nat := Tree.mk (sf.mkVector2i 0 0) None [Some 2%nat; Some 3%nat]]>
            (delete 1%nat clan)).
Proof.
  destruct (removeBranchOrdered_keeps_order 0 clan 0%nat
              (Tree.mk (sf.mkVector2i 0 0) None [Some 1%nat; Some 2%nat; Some 3%nat])
              eq_refl ltac:(simpl; lia))
    as (_ & _ & Hleaf & _).
  exact (Hleaf 0%nat 1%nat (Tree.mk (sf.mkVector2i 1 1) (Some 0%nat) [])
           eq_refl ltac:(discriminate) eq_refl eq_refl).
Defined.

Lemma removeBranch_swaps_last_in_witness :
  Tree.removeBranch 1 clan 0%nat 0
  = Done (<[0%nat := Tree.mk (sf.mkVector2i 0 0) None [Some 3%nat; Some 2%nat]]>
            (delete 1%nat clan)).
Proof.
  destruct (removeBranch_swaps_last_in 0 clan 0%nat
              (Tree.mk (sf.mkVector2i 0 0) None [Some 1%nat; Some 2%nat; Some 3%nat])
              eq_refl ltac:(simpl; lia))
    as (_ & _ & Hleaf & _).
  exact (Hleaf 0%nat (Some 3%nat) 1%nat (Tree.mk (sf.mkVector2i 1 1) (Some 0%nat) [])
           eq_refl eq_refl ltac:(discriminate) eq_refl eq_refl).
Defined.

Lemma remove_absent_branch_asserts_witness :
  Tree.removeBranchPtr 1 household 0%nat (Some 2%nat) = AssertFail
  ∧ Tree.removeBranchOrderedPtr 1 household 0%nat (Some 2%nat) = AssertFail
  ∧ (i ← Tree.findIndex household (Some 0%nat) (Some 2%nat);
     Tree.getBranch household (Some 0%nat) i) = AssertFail.
Proof.
  apply (remove_absent_branch_asserts 1 household 0%nat
           (Tree.mk (sf.mkVector2i 3 4) None [Some 1%nat]) (Some 2%nat)).
  - reflexivity.
  - simpl. lia.
  - intros Hin. apply list_elem_of_singleton in Hin. discriminate.
Defined.

Lemma addBranch_then_remove_witness :
  (h1 ← Tree.addBranch household 0%nat (Some 2%nat);
   Tree.removeBranchPtr 1 h1 0%nat (Some 2%nat))
  = Done (delete 2%nat household)
  ∧ (h1 ← Tree.addBranch household 0%nat (Some 2%nat);
     Tree.removeBranchOrderedPtr 1 h1 0%nat (Some 2%nat))
    = Done (delete 2%nat household).
Proof.
  apply (addBranch_then_remove household 0%nat 2%nat
           (Tree.mk (sf.mkVector2i 3 4) None [Some 1%nat])
           (Tree.mk (sf.mkVector2i 7 8) None []) 0).
  - reflexivity.
  - reflexivity.
  - discriminate.
  - reflexivity.
  - intros Hin. apply list_elem_of_singleton in Hin. discriminate.
  - simpl. lia.
Defined.

(** ** Drawing the tree *)

Lemma drawChild_failed rec (h : gmap addr (Tree.t sf.Vector2i)) (scale : sf.Vector2f)
    (branch : option addr) (l : list Z) (acc : outcome (list RRT.line)) :
  (∀ a, acc ≠ Done a) → foldl (RRT.drawChild rec h scale branch) acc l = acc.
Proof.
  revert acc. induction l as [|i l IH]; intros acc Hacc; [reflexivity|].
  simpl. rewrite IH; destruct acc; try reflexivity; try discriminate;
    exfalso; eapply Hacc; reflexivity.
Qed.

Lemma drawChild_Done rec (h : gmap addr (Tree.t sf.Vector2i)) (scale : sf.Vector2f)
    (branch : option addr) (l : list Z) (acc : outcome (list RRT.line)) out :
  foldl (RRT.drawChild rec h scale branch) acc l = Done out → ∃ a, acc = Done a.
Proof.
  intros H. destruct acc as [a| | |]; [eauto| | |];
    rewrite drawChild_failed in H by discriminate; discriminate.
Qed.

(** What one turn of the loop adds to the segments drawn. *)
Lemma drawChild_step rec (h : gmap addr (Tree.t sf.Vector2i)) (scale : sf.Vector2f)
    (branch : option addr) (i : Z) (acc out : list RRT.line) :
  RRT.drawChild rec h scale branch (Done acc) i = Done out →
  ∃ child mid n,
    Tree.getBranch h branch i = Done child
    ∧ match child with Some _ => rec child acc | None => Done acc end = Done mid
    ∧ Tree.deref h branch = Done n
    ∧ ((Tree.m_parent n = None ∧ out = mid)
       ∨ ∃ up parent, Tree.m_parent n = Some up ∧ h !! up = Some parent
                      ∧ out = mid ++ [segment scale n parent]).
Proof.
  unfold RRT.drawChild. simpl. intros H.
  bind_inv H as child Hchild. bind_inv H as mid Hmid. bind_inv H as n Hn.
  exists child, mid, n. repeat (split; [assumption|]).
  unfold Tree.isRoot in H. destruct (Tree.m_parent n) as [up|] eqn:Hup.
  - right. rewrite bool_decide_eq_false_2 in H by discriminate. simpl in H.
    bind_inv H as position Hposition. bind_inv H as up' Hup'. bind_inv H as parent Hparent.
    unfold Tree.getData in Hposition. rewrite Hn in Hposition. injection Hposition as <-.
    unfold Tree.getParent in Hup'. rewrite Hn in Hup'. simpl in Hup'. rewrite Hup in Hup'.
    injection Hup' as <-.
    unfold Tree.getData, Tree.deref in Hparent.
    destruct (h !! up) as [np|] eqn:Hnp; [|discriminate]. injection Hparent as <-.
    exists up, np. split; [reflexivity|]. split; [exact Hnp|].
    injection H as <-. reflexivity.
  - left. rewrite bool_decide_eq_true_2 in H by reflexivity. simpl in H.
    split; [reflexivity|congruence].
Qed.

Lemma getBranch_Done (h : gmap addr (Tree.t sf.Vector2i)) (branch : option addr)
    (i : Z) (child : option addr) :
  Tree.getBranch h branch i = Done child →
  ∃ p n, branch = Some p ∧ h !! p = Some n
         ∧ Tree.m_branches n !! Z.to_nat i = Some child.
Proof.
  unfold Tree.getBranch, Tree.getBranchCount, Tree.deref. intros H.
  destruct branch as [p|]; [|discriminate].
  destruct (h !! p) as [n|] eqn:Hn; [|discriminate]. simpl in H.
  bind_inv H as u Hu.
  destruct (Tree.m_branches n !! Z.to_nat i) as [b|] eqn:Hb; [|discriminate].
  injection H as <-. exists p, n. auto.
Qed.

Section drawing.
Variables (h : gmap addr (Tree.t sf.Vector2i)) (root : addr) (scale : sf.Vector2f).

(** What a turn of the loop at a node of the tree draws, given that what
    the recursive call draws for a node of the tree are inner segments. *)
Lemma drawLoop_sound rec (p : addr) :
  Tree.inTree h root p →
  (∀ q acc out, Tree.inTree h root q → rec (Some q) acc = Done out →
     ∃ extra, out = acc ++ extra ∧ Forall (innerSegment h root scale) extra) →
  ∀ (l : list Z) (acc out : list RRT.line),
    foldl (RRT.drawChild rec h scale (Some p)) (Done acc) l = Done out →
    ∃ extra, out = acc ++ extra ∧ Forall (innerSegment h root scale) extra.
Proof.
  intros Hp Hrec. induction l as [|i l IH]; intros acc out H.
  - injection H as <-. exists []. rewrite app_nil_r. auto.
  - simpl in H. destruct (drawChild_Done _ _ _ _ _ _ _ H) as [a1 Ha1].
    rewrite Ha1 in H. destruct (IH a1 out H) as (e2 & -> & He2).
    destruct (drawChild_step _ _ _ _ _ _ _ Ha1) as (child & mid & n & Hchild & Hmid & Hn & Hown).
    destruct (getBranch_Done h _ _ _ Hchild) as (p' & n' & [= <-] & Hn' & Hslot).
    assert (n' = n) as ->.
    { unfold Tree.deref in Hn. rewrite Hn' in Hn. congruence. }
    assert (Hmid' : ∃ e1, mid = acc ++ e1 ∧ Forall (innerSegment h root scale) e1).
    { destruct child as [q|].
      - apply (Hrec q acc mid); [|exact Hmid].
        apply (Tree.inTree_branch h root p n q Hp Hn').
        eapply list_elem_of_lookup_2. exact Hslot.
      - injection Hmid as <-. exists []. rewrite app_nil_r. auto. }
    destruct Hmid' as (e1 & -> & He1).
    destruct Hown as [[_ ->]|(up & parent & Hup & Hparent & ->)].
    + exists (e1 ++ e2). rewrite app_assoc. split; [reflexivity|].
      apply Forall_app. auto.
    + exists (e1 ++ [segment scale n parent] ++ e2).
      split; [rewrite <- !app_assoc; reflexivity|].
      apply Forall_app. split; [exact He1|]. apply Forall_app. split; [|exact He2].
      apply Forall_singleton. exists p, n, up, parent.
      repeat (split; [assumption|]). split; [|auto].
      intros Hnil. rewrite Hnil in Hslot. discriminate.
Qed.

Lemma drawBranch_sound (fuel : nat) :
  ∀ (p : addr) (acc out : list RRT.line),
    Tree.inTree h root p →
    RRT.drawBranch fuel h scale (Some p) acc = Done out →
    ∃ extra, out = acc ++ extra ∧ Forall (innerSegment h root scale) extra.
Proof.
  induction fuel as [|fuel IH]; intros p acc out Hp H; [discriminate|].
  simpl in H. bind_inv H as count Hcount.
  apply (drawLoop_sound (RRT.drawBranch fuel h scale) p Hp) with (l := seqZ 0 count);
    [|exact H].
  intros q acc' out' Hq Hrun. exact (IH q acc' out' Hq Hrun).
Qed.

(** A turn of the loop that is taken has its effect in what is drawn in the
    end. *)
Lemma drawLoop_turn rec (branch : option addr) (i : Z) :
  ∀ (l : list Z) (acc out : list RRT.line),
    i ∈ l →
    (∀ child acc out, rec child acc = Done out → ∃ extra, out = acc ++ extra) →
    foldl (RRT.drawChild rec h scale branch) (Done acc) l = Done out →
    ∃ a1 out1, RRT.drawChild rec h scale branch (Done a1) i = Done out1
               ∧ ∀ s, s ∈ out1 → s ∈ out.
Proof.
  intros l acc out Hi Hrec. revert acc. induction l as [|j l IH]; intros acc H.
  - apply elem_of_nil in Hi. contradiction.
  - simpl in H. destruct (drawChild_Done _ _ _ _ _ _ _ H) as [a1 Ha1].
    rewrite Ha1 in H. apply elem_of_cons in Hi as [->|Hi].
    + exists acc, a1. split; [exact Ha1|].
      clear IH Ha1. revert a1 H. induction l as [|k l IHl]; intros a1 H s Hs.
      * injection H as <-. exact Hs.
      * simpl in H. destruct (drawChild_Done _ _ _ _ _ _ _ H) as [a2 Ha2].
        rewrite Ha2 in H. apply (IHl a2 H).
        destruct (drawChild_step _ _ _ _ _ _ _ Ha2)
          as (child & mid & n & _ & Hmid & _ & Hown).
        assert (Hin : s ∈ mid).
        { destruct child as [c|].
          - destruct (Hrec _ _ _ Hmid) as [extra ->]. apply elem_of_app. auto.
          - injection Hmid as <-. exact Hs. }
        destruct Hown as [[_ ->]|(up & parent & _ & _ & ->)]; [exact Hin|].
        apply elem_of_app. auto.
    + exact (IH Hi a1 H).
Qed.

Lemma drawBranch_extends (fuel : nat) (branch : option addr) (acc out : list RRT.line) :
  RRT.drawBranch fuel h scale branch acc = Done out → ∃ extra, out = acc ++ extra.
Proof.
  revert branch acc out. induction fuel as [|fuel IH]; intros branch acc out H;
    [discriminate|].
  simpl in H. bind_inv H as count Hcount. clear Hcount.
  revert acc H. induction (seqZ 0 count) as [|i l IHl]; intros acc H.
  - injection H as <-. exists []. rewrite app_nil_r. reflexivity.
  - simpl in H. destruct (drawChild_Done _ _ _ _ _ _ _ H) as [a1 Ha1].
    rewrite Ha1 in H. destruct (IHl a1 H) as [e2 ->].
    destruct (drawChild_step _ _ _ _ _ _ _ Ha1) as (child & mid & n & _ & Hmid & _ & Hown).
    assert (Hmid' : ∃ e1, mid = acc ++ e1).
    { destruct child as [c|]; [exact (IH _ _ _ Hmid)|].
      injection Hmid as <-. exists []. rewrite app_nil_r. reflexivity. }
    destruct Hmid' as [e1 ->].
    destruct Hown as [[_ ->]|(up & parent & _ & _ & ->)].
    + exists (e1 ++ e2). rewrite app_assoc. reflexivity.
    + exists (e1 ++ [segment scale n parent] ++ e2). rewrite <- !app_assoc. reflexivity.
Qed.

(** A call on a node that returns has called itself on each child, and what
    that call drew is part of what is drawn. *)
Lemma drawBranch_visits_child (fuel : nat) (p q : addr) n (i : nat)
    (acc out : list RRT.line) :
  RRT.drawBranch fuel h scale (Some p) acc = Done out →
  h !! p = Some n → Z.of_nat (length (Tree.m_branches n)) < 4294967296 →
  Tree.m_branches n !! i = Some (Some q) →
  ∃ fuel' acc' out',
    RRT.drawBranch fuel' h scale (Some q) acc' = Done out'
    ∧ ∀ s, s ∈ out' → s ∈ out.
Proof.
  intros H Hn Hlen Hi. destruct fuel as [|fuel]; [discriminate|].
  simpl in H. unfold Tree.getBranchCount, Tree.deref in H. rewrite Hn in H.
  simpl in H. rewrite to_uint_small in H by lia.
  pose proof (lookup_lt_Some _ _ _ Hi) as Hlt.
  destruct (drawLoop_turn (RRT.drawBranch fuel h scale) (Some p) (Z.of_nat i)
              (seqZ 0 (Z.of_nat (length (Tree.m_branches n)))) acc out)
    as (a1 & out1 & Hturn & Hsub); [|exact (drawBranch_extends fuel)|exact H|].
  { apply elem_of_seqZ. lia. }
  destruct (drawChild_step _ _ _ _ _ _ _ Hturn) as (child & mid & n' & Hchild & Hmid & _ & Hown).
  destruct (getBranch_Done h _ _ _ Hchild) as (p' & n'' & [= <-] & Hn'' & Hslot).
  rewrite Nat2Z.id in Hslot. assert (n'' = n) as -> by congruence.
  assert (child = Some q) as -> by congruence.
  exists fuel, a1, mid. split; [exact Hmid|]. intros s Hs. apply Hsub.
  destruct Hown as [[_ ->]|(up & parent & _ & _ & ->)]; [exact Hs|].
  apply elem_of_app. auto.
Qed.

(** A call on a node with a parent and a branch draws the segment of the
    node. *)
Lemma drawBranch_own_segment (fuel : nat) (p up : addr) n parent
    (acc out : list RRT.line) :
  RRT.drawBranch fuel h scale (Some p) acc = Done out →
  h !! p = Some n → Z.of_nat (length (Tree.m_branches n)) < 4294967296 →
  Tree.m_branches n ≠ [] → Tree.m_parent n = Some up → h !! up = Some parent →
  segment scale n parent ∈ out.
Proof.
  intros H Hn Hlen Hinner Hup Hparent. destruct fuel as [|fuel]; [discriminate|].
  simpl in H. unfold Tree.getBranchCount, Tree.deref in H. rewrite Hn in H.
  simpl in H. rewrite to_uint_small in H by lia.
  destruct (drawLoop_turn (RRT.drawBranch fuel h scale) (Some p) 0
              (seqZ 0 (Z.of_nat (length (Tree.m_branches n)))) acc out)
    as (a1 & out1 & Hturn & Hsub); [|exact (drawBranch_extends fuel)|exact H|].
  { apply elem_of_seqZ. destruct (Tree.m_branches n); [contradiction|]. simpl. lia. }
  apply Hsub.
  destruct (drawChild_step _ _ _ _ _ _ _ Hturn) as (child & mid & n' & _ & _ & Hn' & Hown).
  unfold Tree.deref in Hn'. rewrite Hn in Hn'. injection Hn' as <-.
  destruct Hown as [[Hnone _]|(up' & parent' & Hup' & Hparent' & ->)]; [congruence|].
  assert (up' = up) as -> by congruence. assert (parent' = parent) as -> by congruence.
  apply elem_of_app. right. apply list_elem_of_singleton. reflexivity.
Qed.
End drawing.

Lemma prepareTree_levelled (r : RRT.t) (d : LevelData.t) (start end_ : sf.Vector2i)
    (this : RRT.t) :
  RRT.prepareTree r d start end_ = Done this → levelled this 0.
Proof.
  intros Hrun.
  destruct (prepareTree_Done r d start end_ this Hrun) as (root & h & -> & Hroot & Hslot).
  exists (λ _, 0%nat). split; [intros; lia|]. simpl.
  intros p n q [i Hi] Hn Hq. simpl in Hi.
  apply lookup_single_slot in Hi as (-> & -> & _).
  rewrite Hroot in Hn. injection Hn as <-. simpl in Hq.
  apply elem_of_nil in Hq. contradiction.
Qed.

Lemma grafted_levelled (this this' : RRT.t) (parent b : addr) (c : sf.Vector2i)
    (bound : nat) :
  grafted this this' parent b c → reachable this →
  levelled this bound → levelled this' (S bound).
Proof.
  intros Hgraft Hreach (depth & Hbound & Hdepth).
  pose proof (reachable_invariant this Hreach) as Hinv.
  pose proof (grafted_parent_registered this this' parent b c Hgraft Hinv) as Hparent.
  pose proof (grafted_lookup_new this this' parent b c Hgraft) as Hnew.
  assert (Hfreshb : RRT.store this !! b = None)
    by (destruct Hgraft as (? & ? & _ & _ & _ & Hb & _); exact Hb).
  assert (Hold : ∀ p, registered this p → p ≠ b).
  { intros p Hp ->. destruct (reachable_registered_live this b Hreach Hp) as [n Hn].
    congruence. }
  destruct Hinv as (d & root & _ & _ & _ & _ & Hkids & _).
  exists (λ x, if decide (x = b) then S (depth parent) else depth x). split.
  - intros p Hp. destruct (decide (p = b)) as [->|Hne].
    + specialize (Hbound parent Hparent). lia.
    + destruct (grafted_registered_inv this this' parent b c Hgraft p Hp) as [->|Hp0];
        [contradiction|].
      specialize (Hbound p Hp0). lia.
  - intros p n q Hp Hn Hq.
    destruct (grafted_registered_inv this this' parent b c Hgraft p Hp) as [->|Hp0].
    { rewrite Hnew in Hn. injection Hn as <-. simpl in Hq.
      apply elem_of_nil in Hq. contradiction. }
    pose proof (Hold p Hp0) as Hpb.
    destruct (reachable_registered_live this p Hreach Hp0) as [n0 Hn0].
    destruct (grafted_lookup_kept this this' parent b c Hgraft p n0 Hn0)
      as (n' & Hn' & _ & _ & Hsame & Hext).
    assert (n' = n) as -> by congruence.
    rewrite (decide_False (P := p = b)) by exact Hpb.
    destruct (decide (p = parent)) as [->|Hpp].
    + rewrite (Hext eq_refl) in Hq. apply elem_of_app in Hq as [Hq|Hq].
      * rewrite (decide_False (P := q = b))
          by (apply Hold; exact (Hkids parent n0 q Hp0 Hn0 Hq)).
        exact (Hdepth parent n0 q Hp0 Hn0 Hq).
      * apply list_elem_of_singleton in Hq. injection Hq as ->.
        rewrite (decide_True (P := b = b)) by reflexivity. reflexivity.
    + rewrite (Hsame Hpp) in Hq.
      rewrite (decide_False (P := q = b))
        by (apply Hold; exact (Hkids p n0 q Hp0 Hn0 Hq)).
      exact (Hdepth p n0 q Hp0 Hn0 Hq).
Qed.

Lemma levelled_mono (this : RRT.t) (bound bound' : nat) :
  (bound <= bound')%nat → levelled this bound → levelled this bound'.
Proof.
  intros Hle (depth & Hbound & Hdepth). exists depth. split; [|exact Hdepth].
  intros p Hp. specialize (Hbound p Hp). lia.
Qed.

Lemma reachable_levelled (this : RRT.t) : reachable this → ∃ bound, levelled this bound.
Proof.
  induction 1 as [r d start end_ this Hprep|this fuel rx ry this' Hreach IH Hgen].
  - exists 0%nat. exact (prepareTree_levelled r d start end_ this Hprep).
  - destruct IH as [bound IH].
    destruct (generateBranch_Done fuel this this' rx ry Hgen)
      as [->|(parent & b & c & Hgraft)]; [eauto|].
    exists (S bound). exact (grafted_levelled this this' parent b c bound Hgraft Hreach IH).
Qed.

(** In a session a branch vector holds fewer pointers than the level has
    cells: its pointers are registered, each once. *)
Lemma session_branches_short (this : RRT.t) (p : addr) (n : Tree.t sf.Vector2i) :
  session this → registered this p → RRT.store this !! p = Some n →
  Z.of_nat (length (Tree.m_branches n)) < 4294967296.
Proof.
  intros Hsession Hp Hn. pose proof (session_reachable this Hsession) as Hreach.
  destruct (session_wellFormed this Hsession) as [d Hform].
  pose proof Hform as (_ & Hwf & _ & _ & Hlen & _).
  destruct (reachable_kinship this Hreach) as (root & nr & _ & _ & _ & _ & Hclean & _).
  destruct (reachable_invariant this Hreach) as (d0 & root0 & _ & _ & _ & _ & Hkids & _).
  destruct (Hclean p n Hp Hn) as [Hnull Hdup].
  assert (Hsub : Tree.m_branches n ⊆+ RRT.m_nodes this).
  { apply NoDup_submseteq; [exact Hdup|]. intros [q|] Hq; [|contradiction].
    destruct (Hkids p n q Hp Hn Hq) as [i Hi].
    eapply list_elem_of_lookup_2. exact Hi. }
  apply submseteq_length in Hsub. destruct Hwf as [Hw Hh _ Hfit].
  rewrite Hlen in Hsub. lia.
Qed.

Section drawing_total.
Variables (this : RRT.t) (scale : sf.Vector2f) (bound : nat).
Hypothesis Hsession : session this.
Hypothesis Hlevelled : levelled this bound.

Lemma drawLoop_total rec (p : addr) n :
  registered this p → RRT.store this !! p = Some n →
  (∀ q acc, Some q ∈ Tree.m_branches n → ∃ out, rec (Some q) acc = Done out) →
  ∀ (l : list Z) (acc : list RRT.line),
    Forall (λ i, 0 <= i < Z.of_nat (length (Tree.m_branches n))) l →
    ∃ out, foldl (RRT.drawChild rec (RRT.store this) scale (Some p)) (Done acc) l
           = Done out.
Proof.
  intros Hp Hn Hrec. pose proof (session_reachable this Hsession) as Hreach.
  pose proof (session_branches_short this p n Hsession Hp Hn) as Hshort.
  destruct (reachable_kinship this Hreach)
    as (root & nr & Htree & Hnr & Hrootp & _ & Hclean & _ & Hup).
  destruct (Hclean p n Hp Hn) as [Hnull _].
  induction l as [|i l IH]; intros acc Hl; [eexists; reflexivity|].
  apply Forall_cons in Hl as [Hi Hl]. cbn [foldl].
  assert (Hturn : ∃ a1, RRT.drawChild rec (RRT.store this) scale (Some p) (Done acc) i
                        = Done a1).
  { unfold RRT.drawChild. simpl.
    replace i with (Z.of_nat (Z.to_nat i)) by lia.
    unfold Tree.getBranch. unfold Tree.getBranchCount, Tree.deref. rewrite Hn. simpl.
    rewrite to_uint_small by lia.
    replace (Z.of_nat (Z.to_nat i) <? Z.of_nat (length (Tree.m_branches n))) with true
      by (symmetry; apply Z.ltb_lt; lia).
    simpl. rewrite Nat2Z.id.
    destruct (Tree.m_branches n !! Z.to_nat i) as [child|] eqn:Hchild;
      [|apply lookup_ge_None in Hchild; lia].
    simpl. destruct child as [q|].
    2:{ exfalso. apply Hnull. eapply list_elem_of_lookup_2. exact Hchild. }
    destruct (Hrec q acc (list_elem_of_lookup_2 _ _ _ Hchild)) as [mid ->]. simpl.
    unfold Tree.isRoot. destruct (Tree.m_parent n) as [up|] eqn:Hparent.
    - rewrite bool_decide_eq_false_2 by discriminate. simpl.
      unfold Tree.getData, Tree.getParent, Tree.deref. rewrite Hn. simpl. rewrite Hparent.
      assert (Hne : p ≠ root) by (intros ->; congruence).
      destruct (Hup p n Hp Hn Hne) as (up' & np & Hup' & _ & Hnp & _).
      assert (up' = up) as -> by congruence. rewrite Hnp. simpl. eauto.
    - rewrite bool_decide_eq_true_2 by reflexivity. simpl. eauto. }
  destruct Hturn as [a1 ->]. exact (IH a1 Hl).
Qed.

Lemma drawBranch_total :
  ∀ (fuel : nat) (p : addr) (acc : list RRT.line) (depth : addr → nat),
    (∀ p, registered this p → (depth p <= bound)%nat) →
    (∀ p n q, registered this p → RRT.store this !! p = Some n →
       Some q ∈ Tree.m_branches n → depth q = S (depth p)) →
    registered this p → (bound - depth p < fuel)%nat →
    ∃ out, RRT.drawBranch fuel (RRT.store this) scale (Some p) acc = Done out.
Proof.
  pose proof (session_reachable this Hsession) as Hreach.
  destruct (reachable_invariant this Hreach) as (d0 & root0 & _ & _ & _ & _ & Hkids & _).
  induction fuel as [|fuel IH]; intros p acc depth Hbound Hdepth Hp Hfuel; [lia|].
  destruct (reachable_registered_live this p Hreach Hp) as [n Hn].
  pose proof (session_branches_short this p n Hsession Hp Hn) as Hshort.
  simpl. unfold Tree.getBranchCount, Tree.deref. rewrite Hn. simpl.
  rewrite to_uint_small by lia.
  apply (drawLoop_total (RRT.drawBranch fuel (RRT.store this) scale) p n Hp Hn).
  - intros q acc' Hq. apply (IH q acc' depth Hbound Hdepth (Hkids p n q Hp Hn Hq)).
    pose proof (Hdepth p n q Hp Hn Hq). pose proof (Hbound q (Hkids p n q Hp Hn Hq)). lia.
  - apply Forall_forall. intros i Hi. apply elem_of_seqZ in Hi. lia.
Qed.
End drawing_total.

(** X16: what [draw] draws. In a session opened within the precondition of
    [prepareTree], [draw] returns once its fuel pays for the depth of the
    tree, and the segments it has then drawn are those of the nodes of the
    tree that have a parent and at least one branch, each joined to its
    parent. The segment is drawn inside the loop over the branches of the
    node, so the edge into a node without branches is not drawn. *)
Theorem draw_draws_inner_edges (this : RRT.t) (scale : sf.Vector2f) :
  session this →
  ∃ (bound : nat) (root : addr),
    RRT.m_tree this = Some root
    ∧ ∀ fuel, (bound < fuel)%nat →
        ∃ lines, RRT.draw fuel this scale = Done lines
                 ∧ ∀ l, l ∈ lines ↔ innerSegment (RRT.store this) root scale l.
Proof.
  intros Hsession. pose proof (session_reachable this Hsession) as Hreach.
  destruct (reachable_levelled this Hreach) as (bound & depth & Hbound & Hdepth).
  destruct (reachable_invariant this Hreach)
    as (d & root & _ & Htree & Hroot & _ & Hkids & _).
  exists bound, root. split; [exact Htree|]. intros fuel Hfuel.
  destruct (drawBranch_total this scale bound Hsession fuel root [] depth Hbound Hdepth
              Hroot ltac:(lia)) as [lines Hlines].
  exists lines. unfold RRT.draw. rewrite Htree. split; [exact Hlines|].
  intros l. split.
  - intros Hl.
    destruct (drawBranch_sound (RRT.store this) root scale fuel root [] lines
                (Tree.inTree_root _ _) Hlines) as (extra & -> & Hall).
    rewrite Forall_forall in Hall. exact (Hall l Hl).
  - intros (p & n & up & parent & Hp & Hn & Hinner & Hup & Hparent & ->).
    assert (Hvisit : ∃ fuel' acc' out',
              RRT.drawBranch fuel' (RRT.store this) scale (Some p) acc' = Done out'
              ∧ ∀ s, s ∈ out' → s ∈ lines).
    { clear n Hn Hinner Hup Hparent.
      induction Hp as [|p n q Hp IH Hn Hq]; [exists fuel, [], lines; auto|].
      destruct IH as (fuel' & acc' & out' & Hrun & Hsub).
      apply (reachable_inTree_registered this root p Hreach Htree) in Hp.
      apply list_elem_of_lookup in Hq as [i Hi].
      destruct (drawBranch_visits_child (RRT.store this) scale fuel' p q n i acc' out'
                  Hrun Hn (session_branches_short this p n Hsession Hp Hn) Hi)
        as (fuel'' & acc'' & out'' & Hrun' & Hsub').
      exists fuel'', acc'', out''. split; [exact Hrun'|]. auto. }
    destruct Hvisit as (fuel' & acc' & out' & Hrun & Hsub). apply Hsub.
    apply (reachable_inTree_registered this root p Hreach Htree) in Hp.
    exact (drawBranch_own_segment (RRT.store this) scale fuel' p up n parent acc' out'
             Hrun Hn (session_branches_short this p n Hsession Hp Hn) Hinner Hup Hparent).
Qed.

Lemma session_generateBranches (this this' : RRT.t) (calls : list (nat * Z * Z)) :
  session this → RRT.generateBranches this calls = Done this' → session this'.
Proof.
  revert this. induction calls as [|[[fuel rx] ry] calls IH]; intros this Hs H.
  - injection H as <-. exact Hs.
  - simpl in H. bind_inv H as mid Hmid.
    exact (IH mid (session_generate this fuel rx ry mid Hs Hmid) H).
Qed.

Example generate_chain5 :
  RRT.generateBranches session5 [(61%nat, 2, 2); (61%nat, 2, 4)] = Done chain5.
Proof. vm_compute. reflexivity. Qed.

Lemma session_chain5 : session chain5.
Proof. exact (session_generateBranches _ _ _ session_session5 generate_chain5). Qed.

(** On the chain, [draw] draws the edge from (2,2) to the root and not the
    edge from (2,4) to (2,2); on [grown5], whose only edge leads into a node
    without branches, it draws nothing. *)
Example draw_chain5 :
  RRT.draw 3 chain5 unitScale
  = Done [(RRT.vertex (sf.mkVector2i 2 2) unitScale,
           RRT.vertex (sf.mkVector2i 0 0) unitScale)]
  ∧ RRT.draw 3 grown5 unitScale = Done []
  ∧ RRT.draw 2 chain5 unitScale = OutOfFuel.
Proof. vm_compute. repeat split. Qed.

Lemma draw_draws_inner_edges_witness :
  ∃ (bound : nat) (root : addr),
    RRT.m_tree chain5 = Some root
    ∧ ∀ fuel, (bound < fuel)%nat →
        ∃ lines, RRT.draw fuel chain5 unitScale = Done lines
                 ∧ ∀ l, l ∈ lines ↔ innerSegment (RRT.store chain5) root unitScale l.
Proof. exact (draw_draws_inner_edges chain5 unitScale session_chain5). Defined.

(** ** The view of a level *)

Lemma getTile_cell (d : LevelData.t) (x y : Z) :
  LevelData.wf d → 0 <= x < LevelData.m_width d → 0 <= y < LevelData.m_height d →
  ∃ type, LevelData.m_tileData d !! Z.to_nat (x + y * LevelData.m_width d) = Some type
          ∧ LevelData.getTile d x y = Done type.
Proof.
  intros Hwf Hx Hy.
  destruct (getTile_inBounds d (sf.mkVector2i x y) Hwf) as (type & Hty & Hget);
    [split; assumption|].
  exists type. split; [exact Hty|]. simpl in Hget.
  destruct Hwf as [Hw Hh _ _]. unfold INT_MAX in *.
  rewrite !to_uint_small in Hget by lia. exact Hget.
Qed.

Section view.
Variable d : LevelData.t.
Hypothesis Hwf : LevelData.wf d.

Lemma createView_row (y : Z) (acc : list (Z * Z * LevelViewer.Color)) :
  0 <= y < LevelData.m_height d →
  ∀ k : nat, Z.of_nat k <= LevelData.m_width d →
    foldl (LevelViewer.paint d y) (Done acc) (seqZ 0 (Z.of_nat k))
    = Done (acc ++ (pixelOf d <$> seqZ (y * LevelData.m_width d) (Z.of_nat k))).
Proof.
  intros Hy. induction k as [|k IH]; intros Hk.
  - simpl. rewrite app_nil_r. reflexivity.
  - rewrite !seqZ_S, foldl_app, IH by lia. simpl. unfold LevelViewer.paint.
    simpl. rewrite Z.add_0_l.
    destruct (getTile_cell d (Z.of_nat k) y Hwf ltac:(lia) Hy) as (type & Hty & ->).
    simpl. rewrite fmap_app, app_assoc. simpl. f_equal. f_equal. f_equal.
    unfold pixelOf. pose proof Hwf as [Hw _ _ _].
    replace (y * LevelData.m_width d + Z.of_nat k)
      with (Z.of_nat k + y * LevelData.m_width d) by lia.
    rewrite Hty. simpl.
    rewrite Z.mod_add, Z.div_add, Z.mod_small, Z.div_small by lia.
    reflexivity.
Qed.

Lemma createView_full_row (y : Z) (acc : list (Z * Z * LevelViewer.Color)) :
  0 <= y < LevelData.m_height d →
  foldl (LevelViewer.paint d y) (Done acc) (seqZ 0 (LevelData.m_width d))
  = Done (acc ++ (pixelOf d <$> seqZ (y * LevelData.m_width d) (LevelData.m_width d))).
Proof.
  intros Hy. pose proof Hwf as [Hw _ _ _].
  pose proof (createView_row y acc Hy (Z.to_nat (LevelData.m_width d))) as Hrow.
  rewrite Z2Nat.id in Hrow by lia. apply Hrow. lia.
Qed.

Lemma createView_rows :
  ∀ k : nat, Z.of_nat k <= LevelData.m_height d →
    foldl (λ acc y, foldl (LevelViewer.paint d y) acc (seqZ 0 (LevelData.getWidth d)))
          (Done []) (seqZ 0 (Z.of_nat k))
    = Done (pixelOf d <$> seqZ 0 (Z.of_nat k * LevelData.m_width d)).
Proof.
  pose proof Hwf as [Hw _ _ _].
  induction k as [|k IH]; intros Hk; [reflexivity|].
  rewrite seqZ_S, foldl_app, IH by lia. simpl. unfold LevelData.getWidth.
  rewrite createView_full_row by lia. rewrite <- fmap_app. f_equal. f_equal.
  replace (Z.of_nat (S k) * LevelData.m_width d)
    with (Z.of_nat k * LevelData.m_width d + LevelData.m_width d) by lia.
  rewrite seqZ_app by lia. reflexivity.
Qed.

Lemma createView_pixels :
  LevelViewer.createView d
  = Done (pixelOf d <$> seqZ 0 (LevelData.m_width d * LevelData.m_height d)).
Proof.
  pose proof Hwf as [_ Hh _ _]. unfold LevelViewer.createView, LevelData.getHeight.
  pose proof (createView_rows (Z.to_nat (LevelData.m_height d))) as Hrows.
  rewrite Z2Nat.id in Hrows by lia. rewrite Hrows by lia.
  f_equal. f_equal. f_equal. lia.
Qed.
End view.

(** X17: on a loaded level [createView] sets every pixel once, row by row,
    and no lookup fails: it makes one call of [setPixel] per cell, the call
    with number [x + y * width] is the one for the cell (x, y), and its
    colour is the colour [determineColour] gives the terrain category of
    that cell. The five categories have five different colours, so two
    cells are painted alike exactly when their categories agree. *)
Theorem createView_paints_every_cell (d : LevelData.t) :
  LevelData.wf d →
  ∃ image,
    LevelViewer.createView d = Done image
    ∧ Z.of_nat (length image) = LevelData.m_width d * LevelData.m_height d
    ∧ (∀ p type, LevelData.inBounds d p → terrainAt d p = Some type →
         image !! Z.to_nat (LevelData.flatIndex d p)
         = Some (sf.x p, sf.y p, LevelViewer.determineColour type))
    ∧ (∀ a b, LevelViewer.determineColour a = LevelViewer.determineColour b → a = b).
Proof.
  intros Hwf. eexists. split; [exact (createView_pixels d Hwf)|].
  pose proof Hwf as [Hw Hh _ Hfit].
  assert (0 <= LevelData.m_width d * LevelData.m_height d)
    by (apply Z.mul_nonneg_nonneg; lia).
  split; [rewrite length_fmap, length_seqZ; lia|]. split.
  - intros p type Hp Hty.
    pose proof (flat_in_range d p Hwf Hp) as Hrange.
    rewrite (flatIndex_inBounds d p Hwf Hp).
    rewrite list_lookup_fmap, lookup_seqZ_lt by lia. simpl.
    rewrite Z.add_0_l, Z2Nat.id by lia. unfold pixelOf. unfold terrainAt in Hty. rewrite Hty.
    simpl. destruct Hp as [Hx Hy].
    rewrite Z.mod_add, Z.div_add, Z.mod_small, Z.div_small by lia. reflexivity.
  - intros [] []; simpl; intros Heq; try reflexivity; discriminate.
Qed.

Lemma createView_paints_every_cell_witness :
  ∃ image,
    LevelViewer.createView corridor = Done image
    ∧ Z.of_nat (length image) = LevelData.m_width corridor * LevelData.m_height corridor
    ∧ (∀ p type, LevelData.inBounds corridor p → terrainAt corridor p = Some type →
         image !! Z.to_nat (LevelData.flatIndex corridor p)
         = Some (sf.x p, sf.y p, LevelViewer.determineColour type))
    ∧ (∀ a b, LevelViewer.determineColour a = LevelViewer.determineColour b → a = b).
Proof.
  apply (createView_paints_every_cell corridor).
  split; vm_compute; try split; congruence.
Defined.

Example createView_corridor :
  LevelViewer.createView corridor
  = Done [(0, 0, LevelViewer.mkColor 1 142 14); (1, 0, LevelViewer.mkColor 1 142 14);
          (2, 0, LevelViewer.mkColor 95 80 29); (3, 0, LevelViewer.mkColor 1 142 14);
          (4, 0, LevelViewer.mkColor 1 142 14)].
Proof. vm_compute. reflexivity. Qed.

(** ** The demo application *)

Lemma inSession_wellFormed (this : RRTDemo.t) :
  inSession this → wellFormedSession (RRTDemo.m_rrt this) (RRTDemo.m_data this).
Proof.
  intros (Hsession & Hdata & _).
  destruct (session_wellFormed _ Hsession) as [d Hform].
  pose proof Hform as (Hd & _). assert (d = RRTDemo.m_data this) as -> by congruence.
  exact Hform.
Qed.

(** From a session state [prepareTree] opens a session on any loaded level,
    for any start and goal inside the grid. *)
Lemma prepareTree_again (rrt : RRT.t) (d0 d : LevelData.t) (start end_ : sf.Vector2i) :
  wellFormedSession rrt d0 → LevelData.wf d →
  LevelData.inBounds d start → LevelData.inBounds d end_ →
  ∃ rrt', RRT.prepareTree rrt d start end_ = Done rrt' ∧ session rrt'
          ∧ RRT.m_data rrt' = Some d ∧ RRT.m_start rrt' = start
          ∧ RRT.m_end rrt' = end_.
Proof.
  intros (_ & _ & _ & _ & _ & Hreg & root & Htree & [i Hi]) Hwf Hs He.
  destruct (Hreg i root Hi) as (nroot & Hroot & _).
  pose proof (flat_in_range d start Hwf Hs) as Hflat.
  assert (Hidx : (Z.to_nat (LevelData.flatIndex d start)
                  < Z.to_nat (LevelData.getTileCount d))%nat).
  { rewrite getTileCount_wf, flatIndex_inBounds by assumption. lia. }
  pose proof (prepareTree_live rrt d start end_ root nroot Htree Hroot
                (prepareCondition_inBounds d start end_ Hwf Hs He) Hidx) as Hrun.
  simpl in Hrun. eexists. split; [exact Hrun|].
  split; [exact (session_prepare rrt d start end_ _ Hwf Hs He Hrun)|].
  simpl. auto.
Qed.

Lemma isValidTile_pickable (rrt : RRT.t) (d : LevelData.t) (f g : spec_float) :
  RRT.m_data rrt = Some d → LevelData.wf d →
  RRT.isValidTile rrt (sf.mkVector2i (F32.to_int f) (F32.to_int g)) OutOfBounds
  = Done true →
  pickable d (sf.mkVector2i (F32.to_int f) (F32.to_int g)).
Proof.
  intros Hd Hwf Hvalid.
  assert (Hin : LevelData.inBounds d (sf.mkVector2i (F32.to_int f) (F32.to_int g))).
  { apply (isValidTile_Done_inBounds rrt d _ OutOfBounds true Hd Hwf); [| |exact Hvalid];
      apply F32_to_int_range. }
  split; [exact Hin|].
  destruct (getTile_inBounds d _ Hwf Hin) as (type & Hty & Hget).
  exists type. split; [exact Hty|].
  destruct (isValidTile_true rrt d _ OutOfBounds type Hd Hget Hvalid) as (H1 & H2 & _).
  auto.
Qed.

Lemma isValidTile_AssertFail (rrt : RRT.t) (d : LevelData.t) (c : sf.Vector2i)
    (base : TileType) :
  RRT.m_data rrt = Some d → LevelData.wf d →
  RRT.isValidTile rrt c base = AssertFail → ¬ LevelData.inBounds d c.
Proof.
  intros Hd Hwf Hfail Hin.
  destruct (isValidTile_inBounds_Done rrt d c base Hd Hwf Hin) as [b Hb]. congruence.
Qed.

(** The cases of [handleInput] from a state the demo keeps between turns. *)
Lemma handleInput_cases (this : RRTDemo.t)
    (mousePos windowSize : sf.Vector2i) (left right : bool) :
  inSession this →
  let d := RRTDemo.m_data this in
  let tilePos := RRTDemo.tileUnder mousePos (RRTDemo.m_scale this) in
  (RRTDemo.handleInput this mousePos windowSize left right = AssertFail
   ∧ onScreen mousePos windowSize = true ∧ ¬ LevelData.inBounds d tilePos)
  ∨ ∃ this',
      RRTDemo.handleInput this mousePos windowSize left right = Done this'
      ∧ inSession this'
      ∧ RRTDemo.m_data this' = d ∧ RRTDemo.m_scale this' = RRTDemo.m_scale this
      ∧ (RRTDemo.m_start this' = RRTDemo.m_start this
         ∨ left = true ∧ RRTDemo.m_start this' = tilePos ∧ pickable d tilePos)
      ∧ (RRTDemo.m_end this' = RRTDemo.m_end this
         ∨ right = true ∧ RRTDemo.m_end this' = tilePos ∧ pickable d tilePos)
      ∧ (onScreen mousePos windowSize = false
         ∨ RRT.isValidTile (RRTDemo.m_rrt this) tilePos OutOfBounds = Done false →
         this' = this).
Proof.
  intros Hinv d tilePos. pose proof (inSession_wellFormed this Hinv) as Hform.
  pose proof Hinv as (Hsession & Hdata & Hstart & Hend).
  pose proof Hform as (_ & Hwf & Hs & He & _). fold d in Hwf, Hs, He, Hdata.
  unfold RRTDemo.handleInput. fold (onScreen mousePos windowSize). fold tilePos.
  destruct (onScreen mousePos windowSize) eqn:Hscreen.
  2:{ right. exists this. repeat (split; [auto|]). auto. }
  destruct (RRT.isValidTile (RRTDemo.m_rrt this) tilePos OutOfBounds)
    as [[|]| | |] eqn:Hvalid; simpl.
  - right.
    pose proof (isValidTile_pickable (RRTDemo.m_rrt this) d _ _ Hdata Hwf Hvalid)
      as Hpick.
    fold (RRTDemo.tileUnder mousePos (RRTDemo.m_scale this)) in Hpick. fold tilePos in Hpick.
    set (start := if left then tilePos else RRTDemo.m_start this).
    set (end_ := if right then tilePos else RRTDemo.m_end this).
    assert (Hs' : LevelData.inBounds d start).
    { unfold start. destruct left; [exact (proj1 Hpick)|]. rewrite <- Hstart. exact Hs. }
    assert (He' : LevelData.inBounds d end_).
    { unfold end_. destruct right; [exact (proj1 Hpick)|]. rewrite <- Hend. exact He. }
    assert (Hpicked_start : start = RRTDemo.m_start this
                            ∨ left = true ∧ start = tilePos ∧ pickable d tilePos).
    { unfold start. destruct left; auto. }
    assert (Hpicked_end : end_ = RRTDemo.m_end this
                          ∨ right = true ∧ end_ = tilePos ∧ pickable d tilePos).
    { unfold end_. destruct right; auto. }
    destruct (sf.neq start (RRT.getStart (RRTDemo.m_rrt this))
              || sf.neq end_ (RRT.getEnd (RRTDemo.m_rrt this))) eqn:Hmoved.
    + destruct (prepareTree_again (RRTDemo.m_rrt this) d d start end_ Hform Hwf Hs' He')
        as (rrt' & Hrun & Hsession' & Hd' & Hstart' & Hend').
      fold d. rewrite Hrun. simpl. eexists. split; [reflexivity|].
      split; [split; [exact Hsession'|]; simpl; auto|]. simpl.
      repeat (split; [auto|]). intros [?|?]; congruence.
    + apply orb_false_iff in Hmoved as [Hsame_start Hsame_end].
      apply neq_false_iff in Hsame_start, Hsame_end.
      unfold RRT.getStart in Hsame_start. unfold RRT.getEnd in Hsame_end.
      eexists. split; [reflexivity|].
      split; [split; [exact Hsession|]; simpl; auto|]. simpl.
      repeat (split; [auto|]). intros [?|?]; congruence.
  - right. exists this. repeat (split; [auto|]). auto.
  - left. split; [reflexivity|]. split; [reflexivity|].
    exact (isValidTile_AssertFail _ d tilePos OutOfBounds Hdata Hwf Hvalid).
  - exfalso. exact (isValidTile_defined _ d tilePos OutOfBounds Hdata Hwf Hvalid).
  - exfalso. exact (isValidTile_fuelled _ tilePos OutOfBounds Hvalid).
Qed.

(** X18: the input handling of the demo never opens a session outside the
    grid. Between two turns the engine is in a session on the demo's level,
    with the demo's start and goal. From such a state [handleInput] either
    stops on the assertion of [getTile], which happens only when the mouse
    is over the window and the tile under it is outside the grid, or
    returns such a state again; a start or goal it has changed is the tile
    under the mouse, inside the grid and neither OutOfBounds nor Tree; and
    with the mouse off the window, or over a tile that is not valid, it
    changes nothing. So [prepareTree] is only reached with a start and a
    goal inside the grid. *)
Theorem handleInput_stays_in_session (this : RRTDemo.t)
    (mousePos windowSize : sf.Vector2i) (left right : bool) :
  inSession this →
  let d := RRTDemo.m_data this in
  let tilePos := RRTDemo.tileUnder mousePos (RRTDemo.m_scale this) in
  (RRTDemo.handleInput this mousePos windowSize left right = AssertFail
   ∧ onScreen mousePos windowSize = true ∧ ¬ LevelData.inBounds d tilePos)
  ∨ ∃ this',
      RRTDemo.handleInput this mousePos windowSize left right = Done this'
      ∧ inSession this'
      ∧ RRTDemo.m_data this' = d ∧ RRTDemo.m_scale this' = RRTDemo.m_scale this
      ∧ (RRTDemo.m_start this' = RRTDemo.m_start this
         ∨ left = true ∧ RRTDemo.m_start this' = tilePos ∧ pickable d tilePos)
      ∧ (RRTDemo.m_end this' = RRTDemo.m_end this
         ∨ right = true ∧ RRTDemo.m_end this' = tilePos ∧ pickable d tilePos)
      ∧ (onScreen mousePos windowSize = false
         ∨ RRT.isValidTile (RRTDemo.m_rrt this) tilePos OutOfBounds = Done false →
         this' = this).
Proof.
  exact (handleInput_cases this mousePos windowSize left right).
Qed.

(** In a session [draw] follows no null or dangling pointer and fails no
    assertion: it returns or is still drawing when its fuel ends. *)
Lemma drawBranch_fine (this : RRT.t) (scale : sf.Vector2f) :
  session this →
  ∀ (fuel : nat) (p : addr) (acc : list RRT.line),
    registered this p →
    RRT.drawBranch fuel (RRT.store this) scale (Some p) acc = OutOfFuel
    ∨ ∃ out, RRT.drawBranch fuel (RRT.store this) scale (Some p) acc = Done out.
Proof.
  intros Hsession. pose proof (session_reachable this Hsession) as Hreach.
  destruct (reachable_invariant this Hreach) as (d0 & root0 & _ & _ & _ & _ & Hkids & _).
  destruct (reachable_kinship this Hreach)
    as (root & nr & Htree & Hnr & Hrootp & _ & Hclean & _ & Hup).
  induction fuel as [|fuel IH]; intros p acc Hp; [left; reflexivity|].
  destruct (reachable_registered_live this p Hreach Hp) as [n Hn].
  pose proof (session_branches_short this p n Hsession Hp Hn) as Hshort.
  destruct (Hclean p n Hp Hn) as [Hnull _].
  simpl. unfold Tree.getBranchCount, Tree.deref. rewrite Hn. simpl.
  rewrite to_uint_small by lia.
  assert (Hloop : ∀ (l : list Z) (acc : list RRT.line),
            Forall (λ i, 0 <= i < Z.of_nat (length (Tree.m_branches n))) l →
            foldl (RRT.drawChild (RRT.drawBranch fuel (RRT.store this) scale)
                     (RRT.store this) scale (Some p)) (Done acc) l = OutOfFuel
            ∨ ∃ out, foldl (RRT.drawChild (RRT.drawBranch fuel (RRT.store this) scale)
                              (RRT.store this) scale (Some p)) (Done acc) l = Done out).
  { induction l as [|i l IHl]; intros acc' Hl; [right; eexists; reflexivity|].
    apply Forall_cons in Hl as [Hi Hl]. cbn [foldl].
    assert (Hturn : RRT.drawChild (RRT.drawBranch fuel (RRT.store this) scale)
                      (RRT.store this) scale (Some p) (Done acc') i = OutOfFuel
                    ∨ ∃ a1, RRT.drawChild (RRT.drawBranch fuel (RRT.store this) scale)
                              (RRT.store this) scale (Some p) (Done acc') i = Done a1).
    { unfold RRT.drawChild. simpl.
      replace i with (Z.of_nat (Z.to_nat i)) by lia.
      unfold Tree.getBranch. unfold Tree.getBranchCount, Tree.deref. rewrite Hn. simpl.
      rewrite to_uint_small by lia.
      replace (Z.of_nat (Z.to_nat i) <? Z.of_nat (length (Tree.m_branches n))) with true
        by (symmetry; apply Z.ltb_lt; lia).
      simpl. rewrite Nat2Z.id.
      destruct (Tree.m_branches n !! Z.to_nat i) as [child|] eqn:Hchild;
        [|apply lookup_ge_None in Hchild; lia].
      simpl. destruct child as [q|].
      2:{ exfalso. apply Hnull. eapply list_elem_of_lookup_2. exact Hchild. }
      destruct (IH q acc' (Hkids p n q Hp Hn (list_elem_of_lookup_2 _ _ _ Hchild)))
        as [->|[mid ->]]; [left; reflexivity|].
      right. simpl.
      unfold Tree.isRoot. destruct (Tree.m_parent n) as [up|] eqn:Hparent.
      - rewrite bool_decide_eq_false_2 by discriminate. simpl.
        unfold Tree.getData, Tree.getParent, Tree.deref. rewrite Hn. simpl.
        rewrite Hparent.
        assert (Hne : p ≠ root) by (intros ->; congruence).
        destruct (Hup p n Hp Hn Hne) as (up' & np & Hup' & _ & Hnp & _).
        assert (up' = up) as -> by congruence. rewrite Hnp. simpl. eauto.
      - rewrite bool_decide_eq_true_2 by reflexivity. simpl. eauto. }
    destruct Hturn as [->|[a1 ->]]; [|exact (IHl a1 Hl)].
    left. apply drawChild_failed. discriminate. }
  apply Hloop. apply Forall_forall. intros i Hi. apply elem_of_seqZ in Hi. lia.
Qed.

Lemma draw_fine (this : RRT.t) (scale : sf.Vector2f) (fuel : nat) :
  session this →
  RRT.draw fuel this scale = OutOfFuel ∨ ∃ lines, RRT.draw fuel this scale = Done lines.
Proof.
  intros Hsession. pose proof (session_reachable this Hsession) as Hreach.
  destruct (reachable_invariant this Hreach) as (d & root & _ & Htree & Hroot & _).
  unfold RRT.draw. rewrite Htree.
  exact (drawBranch_fine this scale Hsession fuel root [] Hroot).
Qed.

Lemma generateBranch_form (fuel : nat) (this this' : RRT.t) (rx ry : Z) :
  RRT.generateBranch fuel this rx ry = Done this' →
  RRT.m_data this' = RRT.m_data this ∧ RRT.m_start this' = RRT.m_start this
  ∧ RRT.m_end this' = RRT.m_end this.
Proof.
  intros Hgen. destruct (generateBranch_Done fuel this this' rx ry Hgen)
    as [->|(parent & b & c & Hgraft)]; [auto|].
  destruct (grafted_fields this this' parent b c Hgraft) as (H1 & H2 & H3 & _). auto.
Qed.

Lemma turn_defined (this : RRTDemo.t) (f : RRTDemo.frame) :
  inSession this →
  (∃ this' lines, RRTDemo.turn this f = Done (this', lines) ∧ inSession this'
                  ∧ RRTDemo.m_data this' = RRTDemo.m_data this)
  ∨ RRTDemo.turn this f = AssertFail ∨ RRTDemo.turn this f = OutOfFuel.
Proof.
  intros Hinv. unfold RRTDemo.turn.
  destruct (handleInput_cases this (RRTDemo.mousePos f) (RRTDemo.windowSize f)
              (RRTDemo.left f) (RRTDemo.right f) Hinv)
    as [[-> _]|(this1 & -> & Hinv1 & Hd1 & _)]; [right; left; reflexivity|].
  simpl. pose proof (inSession_wellFormed this1 Hinv1) as Hform1.
  pose proof Hinv1 as (Hsession1 & Hdata1 & Hstart1 & Hend1).
  pose proof (generateBranch_defined (RRTDemo.growFuel f) (RRTDemo.m_rrt this1) _
                (RRTDemo.rx f) (RRTDemo.ry f) Hform1) as Hdefined.
  destruct (RRT.generateBranch (RRTDemo.growFuel f) (RRTDemo.m_rrt this1)
              (RRTDemo.rx f) (RRTDemo.ry f)) as [rrt| | |] eqn:Hgen; simpl;
    [|right; left; reflexivity|contradiction|right; right; reflexivity].
  pose proof (session_generate _ _ _ _ rrt Hsession1 Hgen) as Hsession2.
  destruct (generateBranch_form _ _ _ _ _ Hgen) as (G1 & G2 & G3).
  destruct (draw_fine rrt (RRTDemo.m_scale this1) (RRTDemo.drawFuel f) Hsession2)
    as [->|[lines ->]]; [right; right; reflexivity|].
  left. simpl. eexists. eexists. split; [reflexivity|].
  split; [|exact Hd1]. split; [exact Hsession2|]. simpl.
  repeat split; congruence.
Qed.

Lemma turns_defined (frames : list RRTDemo.frame) :
  ∀ this, inSession this →
    (∃ this', RRTDemo.turns this frames = Done this' ∧ inSession this'
              ∧ RRTDemo.m_data this' = RRTDemo.m_data this)
    ∨ RRTDemo.turns this frames = AssertFail ∨ RRTDemo.turns this frames = OutOfFuel.
Proof.
  induction frames as [|f frames IH]; intros this Hinv; [left; eauto|].
  simpl. destruct (turn_defined this f Hinv)
    as [(this1 & lines & -> & Hinv1 & Hd1)|[->| ->]]; [|auto|auto].
  simpl. destruct (IH this1 Hinv1) as [(this' & -> & Hinv' & Hd')|[->| ->]]; [|auto|auto].
  left. exists this'. split; [reflexivity|]. split; [exact Hinv'|]. congruence.
Qed.

Lemma construct_live (sampleDistance branchDistance : spec_float) (r : RRT.t) :
  RRT.construct sampleDistance branchDistance = Done r →
  ∃ root n, RRT.m_tree r = Some root ∧ RRT.store r !! root = Some n.
Proof.
  unfold RRT.construct. intros H. bind_inv H as u Hu. simpl in H. injection H as <-.
  simpl. eexists. eexists. split; [reflexivity|]. apply lookup_insert_eq.
Qed.

(** X19: memory safety of the game loop. Started on a loaded level with a
    freshly constructed engine and the value-initialised start and goal,
    [gameLoop] makes no bad memory access, whatever the mouse, the window,
    the buttons and [rand ()] supply in each frame: it runs all its turns
    and ends with the engine in a session on that level, or it stops on an
    assertion, or one of its loops is still running when its fuel ends. It
    never indexes a vector out of range and never follows a null or
    dangling pointer. (A float out of the range of [int] is converted as
    [F32.to_int] has it.) *)
Theorem gameLoop_memory_safe (this : RRTDemo.t) (frames : list RRTDemo.frame)
    (sampleDistance branchDistance : spec_float) :
  LevelData.wf (RRTDemo.m_data this) →
  RRT.construct sampleDistance branchDistance = Done (RRTDemo.m_rrt this) →
  RRTDemo.m_start this = sf.origin → RRTDemo.m_end this = sf.origin →
  (∃ this', RRTDemo.gameLoop this frames = Done this' ∧ inSession this'
            ∧ RRTDemo.m_data this' = RRTDemo.m_data this)
  ∨ RRTDemo.gameLoop this frames = AssertFail
  ∨ RRTDemo.gameLoop this frames = OutOfFuel.
Proof.
  intros Hwf Hconstruct Hstart Hend. unfold RRTDemo.gameLoop.
  destruct (construct_live _ _ _ Hconstruct) as (root & nroot & Htree & Hroot).
  assert (Horigin : LevelData.inBounds (RRTDemo.m_data this) sf.origin).
  { destruct Hwf as [Hw Hh _ _]. unfold LevelData.inBounds. simpl. lia. }
  pose proof (flat_in_range _ sf.origin Hwf Horigin) as Hflat.
  assert (Hidx : (Z.to_nat (LevelData.flatIndex (RRTDemo.m_data this) sf.origin)
                  < Z.to_nat (LevelData.getTileCount (RRTDemo.m_data this)))%nat).
  { rewrite getTileCount_wf, flatIndex_inBounds by assumption. lia. }
  pose proof (prepareTree_live (RRTDemo.m_rrt this) (RRTDemo.m_data this)
                sf.origin sf.origin root nroot Htree Hroot
                (prepareCondition_inBounds _ _ _ Hwf Horigin Horigin) Hidx) as Hrun.
  simpl in Hrun. rewrite Hrun. simpl.
  match goal with
  | |- (∃ this', RRTDemo.turns ?s frames = _ ∧ _) ∨ _ => set (this0 := s)
  end.
  assert (Hinv : inSession this0).
  { split; [|simpl; auto].
    exact (session_prepare _ _ _ _ _ Hwf Horigin Horigin Hrun). }
  destruct (turns_defined frames this0 Hinv) as [(this' & Hturns & Hinv' & Hd')|Hstop];
    [|right; exact Hstop].
  left. exists this'. auto.
Qed.

Lemma inSession_demo5 : inSession demo5.
Proof. split; [exact session_session5|]. repeat split. Qed.

Example handleInput_demo5 :
  RRTDemo.handleInput demo5 (sf.mkVector2i 2 3) (sf.mkVector2i 5 5) true false
  = Done (RRTDemo.mk (openLevel 5 5) unitScale
            (RRT.mk (Some (openLevel 5 5)) (sf.mkVector2i 2 3) (sf.mkVector2i 4 4)
               quarter fifteen
               (<[17%nat := Some 2%nat]> (replicate 25 None)) (Some 2%nat)
               {[ 2%nat := Tree.mk (sf.mkVector2i 2 3) None [] ]})
            (sf.mkVector2i 2 3) (sf.mkVector2i 4 4)).
Proof. vm_compute. reflexivity. Qed.

Lemma handleInput_stays_in_session_witness :
  ∃ this',
    RRTDemo.handleInput demo5 (sf.mkVector2i 2 3) (sf.mkVector2i 5 5) true false
    = Done this'
    ∧ inSession this' ∧ RRTDemo.m_start this' = sf.mkVector2i 2 3
    ∧ RRTDemo.m_end this' = sf.mkVector2i 4 4.
Proof.
  destruct (handleInput_stays_in_session demo5 (sf.mkVector2i 2 3) (sf.mkVector2i 5 5)
              true false inSession_demo5)
    as [[Hfail _]|(this' & Hrun & Hinv & _)].
  - rewrite handleInput_demo5 in Hfail. discriminate.
  - exists this'. split; [exact Hrun|]. split; [exact Hinv|].
    rewrite handleInput_demo5 in Hrun. injection Hrun as <-. split; reflexivity.
Defined.

Example gameLoop_fresh5 :
  ∃ rrt, RRTDemo.gameLoop fresh5 [click5; click5]
         = Done (RRTDemo.mk (openLevel 5 5) unitScale rrt
                   (sf.mkVector2i 2 3) sf.origin)
         ∧ RRT.m_start rrt = sf.mkVector2i 2 3 ∧ RRT.m_end rrt = sf.origin.
Proof. eexists. vm_compute. repeat split. Qed.

Lemma gameLoop_memory_safe_witness :
  (∃ this', RRTDemo.gameLoop fresh5 [click5; click5] = Done this' ∧ inSession this'
            ∧ RRTDemo.m_data this' = openLevel 5 5)
  ∨ RRTDemo.gameLoop fresh5 [click5; click5] = AssertFail
  ∨ RRTDemo.gameLoop fresh5 [click5; click5] = OutOfFuel.
Proof.
  apply (gameLoop_memory_safe fresh5 [click5; click5] quarter fifteen).
  - exact (wf_openLevel5).
  - reflexivity.
  - reflexivity.
  - reflexivity.
Defined.

(** ** Loading a level *)

Section loading.
Variables reserved grown : nat → nat.

Lemma determineTileType_throws (c : ascii) :
  LevelData.determineTileType c ≠ LevelData.RuntimeError.
Proof.
  unfold LevelData.determineTileType.
  repeat match goal with |- context [if ?b then _ else _] => destruct b end;
    discriminate.
Qed.

Lemma fill_elements (tiles : list TileType) (v : LevelData.vector) :
  LevelData.elements (foldl (LevelData.push_back grown) v tiles)
  = LevelData.elements v ++ tiles.
Proof.
  revert v. induction tiles as [|tile tiles IH]; intros v; simpl.
  - rewrite app_nil_r. reflexivity.
  - rewrite IH. simpl. rewrite <- app_assoc. reflexivity.
Qed.

Lemma readTiles_decodes (body : list ascii) :
  ∀ tiles v, decodes (tileChars body) tiles →
    LevelData.readTiles grown body v
    = LevelData.Loaded (foldl (LevelData.push_back grown) v tiles).
Proof.
  induction body as [|c body IH]; intros tiles v H.
  - apply Forall2_nil_inv_l in H as ->. reflexivity.
  - unfold tileChars in H. simpl in H |- *.
    destruct (LevelData.isspace c); simpl in H; [exact (IH tiles v H)|].
    apply Forall2_cons_inv_l in H as (tile & rest & Htile & Hrest & ->).
    rewrite Htile. simpl. exact (IH rest _ Hrest).
Qed.

Lemma readTiles_Loaded (body : list ascii) :
  ∀ v v', LevelData.readTiles grown body v = LevelData.Loaded v' →
    ∃ tiles, decodes (tileChars body) tiles
             ∧ v' = foldl (LevelData.push_back grown) v tiles.
Proof.
  induction body as [|c body IH]; intros v v' H.
  - injection H as <-. exists []. split; [constructor|reflexivity].
  - unfold tileChars. simpl in H |- *.
    destruct (LevelData.isspace c); simpl; [exact (IH v v' H)|].
    destruct (LevelData.determineTileType c) as [tile| |] eqn:Htile;
      simpl in H; try discriminate.
    destruct (IH _ _ H) as (rest & Hrest & ->).
    exists (tile :: rest). split; [constructor; assumption|reflexivity].
Qed.

Lemma readTiles_unknown (body : list ascii) (c : ascii) :
  c ∈ body → LevelData.isspace c = false →
  LevelData.determineTileType c = LevelData.InvalidArgument →
  ∀ v, LevelData.readTiles grown body v = LevelData.InvalidArgument.
Proof.
  intros Hin Hspace Hbad.
  induction body as [|c0 body IH]; intros v; [inversion Hin|].
  simpl. destruct (LevelData.isspace c0) eqn:Hspace0.
  - apply IH. apply elem_of_cons in Hin as [->|Hin]; [congruence|exact Hin].
  - destruct (LevelData.determineTileType c0) as [tile| |] eqn:Htile; simpl.
    + apply IH. apply elem_of_cons in Hin as [->|Hin]; [congruence|exact Hin].
    + reflexivity.
    + exfalso. exact (determineTileType_throws c0 Htile).
Qed.

(** The capacity of the vector while it is filled: the least of the
    capacities the library passes through that holds the elements. *)
Lemma fill_capacity (cap0 : nat) (tiles : list TileType) :
  (∀ c, (c < grown c)%nat) →
  ∀ v j,
    LevelData.capacity v = Nat.iter j grown cap0 →
    (length (LevelData.elements v) <= LevelData.capacity v)%nat →
    (j = 0%nat ∨ ∃ j', j = S j'
                       ∧ (Nat.iter j' grown cap0 < length (LevelData.elements v))%nat) →
    ∃ k, LevelData.capacity (foldl (LevelData.push_back grown) v tiles)
         = Nat.iter k grown cap0
         ∧ (length (LevelData.elements v) + length tiles
            <= Nat.iter k grown cap0)%nat
         ∧ (k = 0%nat ∨ ∃ k', k = S k'
                              ∧ (Nat.iter k' grown cap0
                                 < length (LevelData.elements v) + length tiles)%nat).
Proof.
  intros Hgrow. induction tiles as [|tile tiles IH]; intros v j Hcap Hle Hleast.
  - exists j. simpl. rewrite Nat.add_0_r, <- Hcap. auto.
  - simpl.
    destruct (Nat.ltb_spec (length (LevelData.elements v)) (LevelData.capacity v))
      as [Hroom|Hfull].
    + destruct (IH (LevelData.push_back grown v tile) j) as (k & Hk & Hfit & Hmin).
      * unfold LevelData.push_back. simpl.
        destruct (Nat.ltb_spec (length (LevelData.elements v)) (LevelData.capacity v));
          [exact Hcap|lia].
      * unfold LevelData.push_back. simpl. rewrite length_app. simpl.
        destruct (Nat.ltb_spec (length (LevelData.elements v)) (LevelData.capacity v));
          lia.
      * unfold LevelData.push_back. simpl. rewrite length_app. simpl.
        destruct Hleast as [->|(j' & -> & Hj')]; [left; reflexivity|].
        right. exists j'. split; [reflexivity|lia].
      * exists k. unfold LevelData.push_back in Hfit, Hmin. simpl in Hfit, Hmin.
        rewrite length_app in Hfit, Hmin. simpl in Hfit, Hmin.
        split; [exact Hk|]. split; [lia|].
        destruct Hmin as [->|(k' & -> & Hk')]; [left; reflexivity|].
        right. exists k'. split; [reflexivity|lia].
    + destruct (IH (LevelData.push_back grown v tile) (S j)) as (k & Hk & Hfit & Hmin).
      * unfold LevelData.push_back. simpl.
        destruct (Nat.ltb_spec (length (LevelData.elements v)) (LevelData.capacity v));
          [lia|]. rewrite Hcap. reflexivity.
      * unfold LevelData.push_back. simpl. rewrite length_app. simpl.
        destruct (Nat.ltb_spec (length (LevelData.elements v)) (LevelData.capacity v));
          [lia|]. pose proof (Hgrow (LevelData.capacity v)). lia.
      * right. exists j. split; [reflexivity|].
        unfold LevelData.push_back. simpl. rewrite length_app. simpl.
        rewrite <- Hcap. lia.
      * exists k. unfold LevelData.push_back in Hfit, Hmin. simpl in Hfit, Hmin.
        rewrite length_app in Hfit, Hmin. simpl in Hfit, Hmin.
        split; [exact Hk|]. split; [lia|].
        destruct Hmin as [->|(k' & -> & Hk')]; [left; reflexivity|].
        right. exists k'. split; [reflexivity|lia].
Qed.

Lemma iter_grown_mono (cap0 : nat) :
  (∀ c, (c < grown c)%nat) →
  ∀ a b, (a < b)%nat → (Nat.iter a grown cap0 < Nat.iter b grown cap0)%nat.
Proof.
  intros Hgrow a b Hab. induction Hab as [|b Hab IH]; simpl.
  - apply Hgrow.
  - pose proof (Hgrow (Nat.iter b grown cap0)). lia.
Qed.


Lemma fill_at_least (cap0 : nat) (tiles : list TileType) :
  (∀ c, (c < grown c)%nat) →
  (cap0 <= LevelData.capacity
             (foldl (LevelData.push_back grown) (LevelData.mkVector [] cap0) tiles))%nat.
Proof.
  intros Hgrow.
  destruct (fill_capacity cap0 tiles Hgrow (LevelData.mkVector [] cap0) 0%nat
              eq_refl ltac:(simpl; lia) ltac:(left; reflexivity))
    as (j & -> & _).
  destruct j as [|j]; [simpl; lia|].
  pose proof (iter_grown_mono cap0 Hgrow 0%nat (S j) ltac:(lia)). simpl in *. lia.
Qed.

Lemma readHeader_valid (width height : Z) :
  0 < width < INT_MAX → 0 < height < INT_MAX →
  LevelData.readHeader reserved (Some (height, width))
  = LevelData.Loaded (width, height,
      LevelData.mkVector [] (reserved (Z.to_nat (to_uint (width * height))))).
Proof.
  intros Hw Hh. unfold LevelData.readHeader, INT_MAX in *.
  change (to_uint 2147483647) with 2147483647.
  replace (width =? 0) with false by (symmetry; apply Z.eqb_neq; lia).
  replace (height =? 0) with false by (symmetry; apply Z.eqb_neq; lia).
  replace (width >=? 2147483647) with false
    by (symmetry; rewrite Z.geb_leb; apply Z.leb_gt; lia).
  replace (height >=? 2147483647) with false
    by (symmetry; rewrite Z.geb_leb; apply Z.leb_gt; lia).
  reflexivity.
Qed.

Lemma readHeader_Loaded (header : option (Z * Z)) (width height : Z)
    (v : LevelData.vector) :
  LevelData.readHeader reserved header = LevelData.Loaded (width, height, v) →
  header = Some (height, width)
  ∧ (width = 0 ∨ INT_MAX <= width ∨ height = 0 ∨ INT_MAX <= height → False)
  ∧ v = LevelData.mkVector [] (reserved (Z.to_nat (to_uint (width * height)))).
Proof.
  unfold LevelData.readHeader. destruct header as [[h w]|]; [|discriminate].
  destruct ((w =? 0) || (w >=? to_uint INT_MAX) || (h =? 0) || (h >=? to_uint INT_MAX))
    eqn:Hbad; [discriminate|].
  intros H. injection H as <- <- <-. split; [reflexivity|]. split; [|reflexivity].
  apply orb_false_iff in Hbad as [Hbad Hh]. apply orb_false_iff in Hbad as [Hbad Hh0].
  apply orb_false_iff in Hbad as [Hw0 Hw].
  apply Z.eqb_neq in Hw0, Hh0.
  rewrite Z.geb_leb in Hw, Hh. apply Z.leb_gt in Hw, Hh.
  change (to_uint INT_MAX) with 2147483647 in Hw, Hh. unfold INT_MAX. lia.
Qed.

Lemma fill_room (tiles : list TileType) :
  ∀ v, (length (LevelData.elements v) + length tiles <= LevelData.capacity v)%nat →
    LevelData.capacity (foldl (LevelData.push_back grown) v tiles)
    = LevelData.capacity v.
Proof.
  induction tiles as [|tile tiles IH]; intros v Hroom; [reflexivity|].
  simpl in Hroom |- *.
  assert (Hpush : LevelData.capacity (LevelData.push_back grown v tile)
                  = LevelData.capacity v).
  { unfold LevelData.push_back. simpl.
    destruct (Nat.ltb_spec (length (LevelData.elements v)) (LevelData.capacity v));
      [reflexivity|lia]. }
  rewrite IH; [exact Hpush|].
  rewrite Hpush. unfold LevelData.push_back. simpl. rewrite length_app. simpl. lia.
Qed.

(** [loadFromFile] on a header that passes the tests and a body of known
    tile characters: what decides is whether the vector ends full. *)
Lemma loadFromFile_body (width height : Z) (body : list ascii) (tiles : list TileType) :
  0 < width < INT_MAX → 0 < height < INT_MAX →
  decodes (tileChars body) tiles →
  let v := foldl (LevelData.push_back grown)
             (LevelData.mkVector [] (reserved (Z.to_nat (to_uint (width * height)))))
             tiles in
  LevelData.loadFromFile reserved grown (Some (Some (height, width), body))
  = if negb (length tiles =? LevelData.capacity v)%nat then LevelData.RuntimeError
    else LevelData.Loaded (LevelData.mk width height tiles).
Proof.
  intros Hw Hh Hdec v. unfold LevelData.loadFromFile.
  rewrite (readHeader_valid width height Hw Hh). simpl.
  unfold LevelData.readLevel. rewrite (readTiles_decodes body tiles _ Hdec). simpl.
  fold v. assert (Hv : LevelData.elements v = tiles)
    by (unfold v; rewrite fill_elements; reflexivity).
  rewrite Hv. destruct (length tiles =? LevelData.capacity v)%nat; simpl;
    [rewrite Hv|]; reflexivity.
Qed.

Lemma loadFromFile_exact (width height : Z) (body : list ascii) (tiles : list TileType) :
  0 < width < INT_MAX → 0 < height < INT_MAX →
  reserved (Z.to_nat (to_uint (width * height))) = Z.to_nat (to_uint (width * height)) →
  decodes (tileChars body) tiles →
  Z.of_nat (length tiles) = to_uint (width * height) →
  LevelData.loadFromFile reserved grown (Some (Some (height, width), body))
  = LevelData.Loaded (LevelData.mk width height tiles).
Proof.
  intros Hw Hh Hexact Hdec Hcount.
  rewrite (loadFromFile_body width height body tiles Hw Hh Hdec).
  rewrite fill_room by (simpl; lia). simpl. rewrite Hexact.
  replace (length tiles =? Z.to_nat (to_uint (width * height)))%nat with true
    by (symmetry; apply Nat.eqb_eq; lia).
  reflexivity.
Qed.

(** X20: a file that is as its header says loads. When the header gives a
    height and a width that are positive and below [INT_MAX], their product
    fits an [unsigned int], the characters of the body that are not white
    space are known tile characters, and there is one of them per cell, then
    [loadFromFile] returns the level of that width and height with the tiles
    of the characters in their order, and that level is well formed. This
    is on a library whose [reserve] allocates exactly what is asked for. *)
Theorem loadFromFile_accepts (width height : Z) (body : list ascii)
    (tiles : list TileType) :
  0 < width < INT_MAX → 0 < height < INT_MAX → width * height < 4294967296 →
  reserved (Z.to_nat (width * height)) = Z.to_nat (width * height) →
  decodes (tileChars body) tiles →
  Z.of_nat (length tiles) = width * height →
  LevelData.loadFromFile reserved grown (Some (Some (height, width), body))
  = LevelData.Loaded (LevelData.mk width height tiles)
  ∧ LevelData.wf (LevelData.mk width height tiles).
Proof.
  intros Hw Hh Hfits Hexact Hdec Hcount.
  assert (Hn : to_uint (width * height) = width * height)
    by (apply to_uint_small; nia).
  split.
  - apply loadFromFile_exact; try assumption; rewrite Hn; assumption.
  - split; simpl; assumption.
Qed.


Lemma determineTileType_unknown (c : ascii) :
  c ∉ ["."; "G"; "@"; "O"; "T"; "S"; "W"]%char →
  LevelData.determineTileType c = LevelData.InvalidArgument.
Proof.
  intros Hc. unfold LevelData.determineTileType.
  repeat match goal with
         | |- context [(c =? ?k)%char] =>
             destruct (Ascii.eqb_spec c k) as [->|_];
             [exfalso; apply Hc; set_solver|]
         end.
  reflexivity.
Qed.

(** X22: one unknown character spoils the file. When the header passes the
    tests and the body holds, anywhere, a character that is neither white
    space nor one of the seven tile characters, [loadFromFile] throws
    [std::invalid_argument], whatever the number of tiles. *)
Theorem loadFromFile_unknown_character (width height : Z) (body : list ascii)
    (c : ascii) :
  0 < width < INT_MAX → 0 < height < INT_MAX →
  c ∈ body → LevelData.isspace c = false →
  c ∉ ["."; "G"; "@"; "O"; "T"; "S"; "W"]%char →
  LevelData.loadFromFile reserved grown (Some (Some (height, width), body))
  = LevelData.InvalidArgument.
Proof.
  intros Hw Hh Hin Hspace Hc. unfold LevelData.loadFromFile.
  rewrite (readHeader_valid width height Hw Hh). simpl.
  unfold LevelData.readLevel.
  rewrite (readTiles_unknown body c Hin Hspace (determineTileType_unknown c Hc)).
  reflexivity.
Qed.

(** X23: what a loaded level guarantees. When [loadFromFile] returns, on a
    library whose [reserve] allocates at least what is asked for and whose
    vector grows when it is full, the level has the width and height of the
    header, both positive and below [INT_MAX], its tiles are those of the
    characters of the body that are not white space, and there are at
    least as many of them as the product of width and height, computed in
    [unsigned int]. When that product does not wrap around, [getTile]
    returns a tile for every cell of the grid: no lookup on a loaded level
    reads past the tile vector. *)
Theorem loadFromFile_level_in_range (width height : Z) (body : list ascii)
    (d : LevelData.t) :
  (∀ n, (n <= reserved n)%nat) → (∀ c, (c < grown c)%nat) →
  0 <= width < 4294967296 → 0 <= height < 4294967296 →
  LevelData.loadFromFile reserved grown (Some (Some (height, width), body))
  = LevelData.Loaded d →
  LevelData.m_width d = width ∧ LevelData.m_height d = height
  ∧ 0 < width < INT_MAX ∧ 0 < height < INT_MAX
  ∧ decodes (tileChars body) (LevelData.m_tileData d)
  ∧ to_uint (width * height) <= Z.of_nat (length (LevelData.m_tileData d))
  ∧ (width * height < 4294967296 →
       ∀ x y, 0 <= x < width → 0 <= y < height →
         ∃ tile, LevelData.getTile d x y = Done tile
                 ∧ LevelData.m_tileData d !! Z.to_nat (x + y * width) = Some tile).
Proof.
  intros Hreserve Hgrow Hwu Hhu Hload. unfold LevelData.loadFromFile in Hload.
  destruct (LevelData.readHeader reserved (Some (height, width)))
    as [[[w h] v]| |] eqn:Hheader; simpl in Hload; try discriminate.
  destruct (readHeader_Loaded _ w h v Hheader) as (Heq & Hdims & ->).
  injection Heq as <- <-.
  unfold LevelData.readLevel in Hload.
  destruct (LevelData.readTiles grown body _) as [v'| |] eqn:Hread;
    simpl in Hload; try discriminate.
  destruct (negb (length (LevelData.elements v') =? LevelData.capacity v')%nat)
    eqn:Hfull; [discriminate|].
  injection Hload as <-. simpl.
  apply negb_false_iff, Nat.eqb_eq in Hfull.
  destruct (readTiles_Loaded body _ _ Hread) as (tiles & Hdec & ->).
  rewrite fill_elements in Hfull |- *. simpl in Hfull |- *.
  pose proof (fill_at_least (reserved (Z.to_nat (to_uint (width * height)))) tiles Hgrow)
    as Hleast.
  pose proof (Hreserve (Z.to_nat (to_uint (width * height)))) as Hres.
  assert (Hnonneg : 0 <= to_uint (width * height))
    by (unfold to_uint; pose proof (Z.mod_pos_bound (width * height) 4294967296); lia).
  assert (Hcount : to_uint (width * height) <= Z.of_nat (length tiles)) by lia.
  split; [reflexivity|]. split; [reflexivity|].
  split; [lia|]. split; [lia|]. split; [exact Hdec|]. split; [exact Hcount|].
  intros Hfits x y Hx Hy.
  rewrite to_uint_small in Hcount by nia.
  assert (Hidx : 0 <= x + y * width < width * height) by nia.
  destruct (lookup_lt_is_Some_2 tiles (Z.to_nat (x + y * width)) ltac:(lia)) as [tile Htile].
  exists tile. split; [|exact Htile].
  unfold LevelData.getTile. simpl.
  replace (x <? width) with true by (symmetry; apply Z.ltb_lt; lia).
  replace (y <? height) with true by (symmetry; apply Z.ltb_lt; lia).
  simpl. unfold LevelData.tileAt. simpl.
  rewrite to_uint_small by lia. rewrite Htile. reflexivity.
Qed.

(** X24: the tests on the header do not keep the product of width and
    height within [unsigned int]. When it wraps around, [reserve] is asked
    for the wrapped product only, so a body with that many tiles (none at
    all for 65536 by 65536) loads into a level with fewer tiles than cells,
    which is not well formed: the assertion of [getTile (x, y)] passes for
    every cell, and for the cell the wrapped product points at the lookup
    reads past the end of the tile vector. *)
Theorem loadFromFile_product_wraps (width height : Z) (body : list ascii)
    (tiles : list TileType) :
  0 < width < INT_MAX → 0 < height < INT_MAX → 4294967296 <= width * height →
  let cells := to_uint (width * height) in
  reserved (Z.to_nat cells) = Z.to_nat cells →
  decodes (tileChars body) tiles → Z.of_nat (length tiles) = cells →
  let d := LevelData.mk width height tiles in
  LevelData.loadFromFile reserved grown (Some (Some (height, width), body))
  = LevelData.Loaded d
  ∧ 0 <= cells `mod` width < width ∧ 0 <= cells / width < height
  ∧ LevelData.getTile d (cells `mod` width) (cells / width) = Undefined
  ∧ ¬ LevelData.wf d.
Proof.
  intros Hw Hh Hwraps cells Hexact Hdec Hcount d.
  assert (Hcells : 0 <= cells < 4294967296)
    by (unfold cells, to_uint; apply Z.mod_pos_bound; lia).
  split; [exact (loadFromFile_exact width height body tiles Hw Hh Hexact Hdec Hcount)|].
  pose proof (Z.mod_pos_bound cells width ltac:(lia)) as Hx.
  pose proof (Z.div_pos cells width ltac:(lia) ltac:(lia)) as Hy0.
  assert (Hy : cells / width < height).
  { apply Z.div_lt_upper_bound; [lia|]. lia. }
  split; [exact Hx|]. split; [lia|]. split.
  - unfold LevelData.getTile. simpl.
    replace (cells `mod` width <? width) with true by (symmetry; apply Z.ltb_lt; lia).
    replace (cells / width <? height) with true by (symmetry; apply Z.ltb_lt; lia).
    simpl. unfold LevelData.tileAt. simpl.
    replace (cells `mod` width + cells / width * width) with cells
      by (pose proof (Z.div_mod cells width ltac:(lia)); lia).
    rewrite to_uint_small by lia.
    rewrite lookup_ge_None_2 by lia. reflexivity.
  - intros [_ _ Hc Hf]. simpl in Hf. lia.
Qed.
End loading.

Lemma loadFromFile_accepts_witness :
  LevelData.loadFromFile id doubled
    (Some (Some (2, 3), [" "; "."; "T"; "W"; "010"; "G"; "S"; "@"; "010"]%char))
  = LevelData.Loaded (LevelData.mk 3 2 [Terrain; Tree; Water; Terrain; Swamp; OutOfBounds])
  ∧ LevelData.wf (LevelData.mk 3 2 [Terrain; Tree; Water; Terrain; Swamp; OutOfBounds]).
Proof.
  apply (loadFromFile_accepts id doubled 3 2
           [" "; "."; "T"; "W"; "010"; "G"; "S"; "@"; "010"]%char).
  - unfold INT_MAX. lia.
  - unfold INT_MAX. lia.
  - lia.
  - reflexivity.
  - repeat constructor.
  - reflexivity.
Defined.


Lemma loadFromFile_unknown_character_witness :
  LevelData.loadFromFile id doubled (Some (Some (1, 2), ["."; "x"]%char))
  = LevelData.InvalidArgument.
Proof.
  apply (loadFromFile_unknown_character id doubled 2 1 ["."; "x"]%char "x"%char).
  - unfold INT_MAX. lia.
  - unfold INT_MAX. lia.
  - set_solver.
  - reflexivity.
  - intros Hin. repeat (apply elem_of_cons in Hin as [Hin|Hin]; [discriminate|]).
    inversion Hin.
Defined.

Lemma loadFromFile_level_in_range_witness :
  ∃ tile, LevelData.getTile (LevelData.mk 2 1 [Terrain; Terrain; Tree; Tree]) 1 0
          = Done tile
          ∧ [Terrain; Terrain; Tree; Tree] !! Z.to_nat (1 + 0 * 2) = Some tile.
Proof.
  assert (Hgrow : ∀ c, (c < doubled c)%nat) by (intros c; unfold doubled; lia).
  destruct (loadFromFile_level_in_range id doubled 2 1 ["."; "."; "T"; "T"]%char
              (LevelData.mk 2 1 [Terrain; Terrain; Tree; Tree])
              ltac:(intros n; unfold id; lia) Hgrow ltac:(lia) ltac:(lia) eq_refl)
    as (_ & _ & _ & _ & _ & _ & Hcells).
  exact (Hcells ltac:(lia) 1 0 ltac:(lia) ltac:(lia)).
Defined.

Lemma loadFromFile_product_wraps_witness :
  LevelData.loadFromFile id doubled (Some (Some (65536, 65536), []))
  = LevelData.Loaded (LevelData.mk 65536 65536 [])
  ∧ LevelData.getTile (LevelData.mk 65536 65536 []) 0 0 = Undefined.
Proof.
  destruct (loadFromFile_product_wraps id doubled 65536 65536 [] []
              ltac:(unfold INT_MAX; lia) ltac:(unfold INT_MAX; lia) ltac:(lia)
              eq_refl ltac:(constructor) eq_refl)
    as (Hload & _ & _ & Hread & _).
  split; [exact Hload|exact Hread].
Defined.
